(** * Strate: middleware resolution and execution

    A shallow embedding of the route engine of Strate (middleware identity,
    guarded context object, configuration merging, dependency resolution and
    the nested execution of middleware around a route handler), with the
    properties of the engine stated and proved over it. *)

From Stdlib Require Import ZArith.
From stdpp Require Import base tactics option list strings gmap.

Set Warnings "-register-all,-clear-no-such-hyp".


(** ** Errors and results *)

(** What a [throw] of the sources carries.  [HandledError] is the class of
    ErrorHandler.ts; [Error] is the built-in class with its message;
    [TypeError] is what the runtime raises when a value that is not a function
    is called or a property of [undefined] is read; [DepGraphCycleError] is
    raised by the dependency graph with the path it found. *)
Inductive exn :=
| Error (message : string)
| TypeError (message : string)
| HandledError
| DepGraphCycleError (cyclePath : list string).

Global Instance exn_eq_dec : EqDecision exn.
Proof. solve_decision. Defined.

(** A call either returns or throws. *)
Inductive result (A : Type) :=
| Ok (a : A)
| Throw (e : exn).
Arguments Ok {A} a.
Arguments Throw {A} e.

(** [mapM] for calls that may throw: stops at the first throw, as a loop or
    [Array.prototype.map] with a throwing callback does. *)
Fixpoint result_map {A B} (f : A → result B) (l : list A) : result (list B) :=
  match l with
  | [] => Ok []
  | a :: l' =>
      match f a with
      | Throw e => Throw e
      | Ok b =>
          match result_map f l' with
          | Throw e => Throw e
          | Ok bs => Ok (b :: bs)
          end
      end
  end.

(** The double-quote character of the message templates, and a string put
    between two of them. *)
Definition dquote : string :=
  String (Ascii.Ascii false true false false false true false false) EmptyString.

Definition quoted (s : string) : string := dquote +:+ s +:+ dquote.

(** ** Values and events *)

(** Plain data that user code stores in the context. *)
Inductive data :=
| DUndefined
| DString (s : string)
| DNumber (n : Z)
| DBoolean (b : bool)
| DObject (fields : list (string * data)).

(** What a read of the context yields: plain data, the record
    [{ configuration, warn, debug }] that createContext seeds under
    [strate], the [error] closure that ErrorHandler.handle builds, with
    the defaults of its instance, or a member that the target inherits from
    [Object.prototype]: the built-in function of that name, or, for the
    accessor [__proto__], the prototype itself. *)
Inductive value :=
| VData (d : data)
| VStrate
| VErrorResponder (defaultCode defaultMessage : string) (defaultStatusCode : Z)
| VInherited (member : string).

Definition undefined : value := VData DUndefined.

(** What an invocation does that can be seen from outside it. *)
Inductive event :=
| Warn (message : string)        (* a call of the warn logger *)
| Debug (message : string)       (* a call of the debug logger *)
| Handle (identity : string)     (* middlewareInstance.handle(...) is invoked *)
| Continue (identity : string)   (* the continuation given to that middleware is invoked *)
| Handler                        (* handler(request, response, context) is invoked *)
| Mark (label : string)          (* an effect of user code *)
| Response (statusCode : Z) (code message : string).
                                 (* response.status(statusCode).send({ error: { code, message } }) *)

Global Instance event_eq_dec : EqDecision event.
Proof. solve_decision. Defined.

(** ** Keys of the context *)

(** The target of the context is a plain object: what it does not own it
    inherits from [Object.prototype], whose members these are. *)
Definition Object_prototype_members : list string :=
  ["constructor"; "__defineGetter__"; "__defineSetter__"; "hasOwnProperty";
   "__lookupGetter__"; "__lookupSetter__"; "isPrototypeOf"; "propertyIsEnumerable";
   "toString"; "valueOf"; "__proto__"; "toLocaleString"].

(** Two keys are special to the traps of createContext.  An assignment to
    [__proto__] runs the setter of [Object.prototype], which replaces the
    prototype of the target and stores no key; an assignment to
    [hasOwnProperty] shadows the method that both traps call on the target.
    The model covers the contexts on which neither assignment has been made:
    their target has the prototype and the [hasOwnProperty] it was created
    with.  Every key can be read; the keys that can be assigned are the
    others. *)
Definition reserved (property : string) : bool :=
  String.eqb property "__proto__" || String.eqb property "hasOwnProperty".

Class NotReserved (property : string) : Prop :=
  not_reserved : reserved property = false.

Global Hint Extern 0 (NotReserved _) => exact (@eq_refl bool false) : typeclass_instances.

(** ** Bodies of middleware and handlers *)

(** The body of an async function that receives the request, the response,
    the context and, for a middleware, the continuation [next]: a tree of the
    steps it takes.  [N] is the type of the continuations it was given:
    [unit] for [handle(request, response, context, next)], [Empty_set] for a
    route handler.  The branch taken after [await next()] may depend on
    whether the call returned or threw, which is how [try]/[catch] around it
    is written; a body that does not catch re-raises.  A body of this type
    calls its continuation itself and awaits each call: one that hands
    [next] to other code, by storing it on the context, or that calls it
    without awaiting it, is not represented. *)
Inductive prog (N : Type) : Type :=
| Return
| Effect (label : string) (k : prog N)
| ContextSet (property : string) (ok : NotReserved property) (v : value) (k : prog N)
| ContextGet (property : string) (k : value → prog N)
| Invoke (callee : value) (code message : option string) (statusCode : option Z)
         (k : prog N)
| StrateWarn (message : string) (k : prog N)
| NodeEnvIsProduction (k : bool → prog N)
| AwaitNext (next : N) (k : result unit → prog N)
| Raise (e : exn).

Arguments Return {N}.
Arguments Effect {N} label k.
Arguments ContextSet {N} property {ok} v k.
Arguments ContextGet {N} property k.
Arguments Invoke {N} callee code message statusCode k.
Arguments StrateWarn {N} message k.
Arguments NodeEnvIsProduction {N} k.
Arguments AwaitNext {N} next k.
Arguments Raise {N} e.

(** A call [callee(code, message, statusCode)] of a value held in a local
    variable, as the last statement of a body: [Invoke] goes on with [k] when
    the call returns. *)
Definition Call {N} (callee : value) (code message : option string)
    (statusCode : option Z) : prog N :=
  Invoke callee code message statusCode Return.

(** [await next()] outside any [try]: what [next] throws is thrown on. *)
Definition await_next (k : prog unit) : prog unit :=
  AwaitNext () (λ r, match r with Ok _ => k | Throw e => Raise e end).

Definition RouteHandler : Type := prog Empty_set.

(** ** Middleware references *)

(** The statics of a middleware class that a reference to the class gives
    access to: its [name] and its optional [namespace]. *)
Record ClassRef := {
  name : string;
  namespace : option string;
}.

(** An entry of a [dependencies] or [skip] array: a string or a class. *)
Inductive Reference :=
| RefString (s : string)
| RefClass (c : ClassRef).

Global Instance ClassRef_eq_dec : EqDecision ClassRef.
Proof. solve_decision. Defined.

Global Instance Reference_eq_dec : EqDecision Reference.
Proof. solve_decision. Defined.

(** What an instance's [id] member evaluates to when called: a string, or a
    promise when the method is async. *)
Inductive IdResult :=
| IdString (s : string)
| IdPromise.

(** A middleware instance, with the statics of its class. *)
Record Middleware := {
  constructor : ClassRef;
  dependencies : option (list Reference);  (* static dependencies of the class *)
  id : option IdResult;                    (* the id() method, when defined *)
  handle : prog unit;
}.

(** An argument of [getMiddlewareName]. *)
Inductive MiddlewareArg :=
| ArgString (s : string)
| ArgClass (c : ClassRef)
| ArgInstance (m : Middleware).

Definition arg_of_reference (r : Reference) : MiddlewareArg :=
  match r with
  | RefString s => ArgString s
  | RefClass c => ArgClass c
  end.

(** A string is truthy when it is not empty. *)
Definition truthy (s : string) : bool :=
  match s with
  | EmptyString => false
  | String _ _ => true
  end.

(** A local [let namespace: string] of getMiddlewareName: [undefined] until
    assigned. *)
Inductive js_string :=
| JSUndefined
| JSString (s : string).

(** [a + b] where [b] is a string: [a] is converted to a string first, and
    [undefined] converts to ["undefined"]. *)
Definition js_plus (a : js_string) (b : string) : string :=
  match a with
  | JSUndefined => "undefined" +:+ b
  | JSString s => s +:+ b
  end.

Definition async_id_message (className : string) : string :=
  "The " +:+ quoted "id()" +:+ " method of the " +:+ className +:+
  " middleware class must not be async. It should return a string.".

(** [getMiddlewareName], part_000 lines 53-78. *)
Definition getMiddlewareName (middleware : MiddlewareArg) : result string :=
  match middleware with
  | ArgString s => Ok s
  | ArgClass c =>
      match namespace c with
      | Some ns => if truthy ns then Ok (ns +:+ "." +:+ name c) else Ok (name c)
      | None => Ok (name c)
      end
  | ArgInstance m =>
      let namespace_var :=
        match namespace (constructor m) with
        | Some ns => if truthy ns then JSString (ns +:+ ".") else JSUndefined
        | None => JSUndefined
        end in
      match id m with
      | Some IdPromise => Throw (Error (async_id_message (name (constructor m))))
      | Some (IdString s) =>
          Ok (js_plus namespace_var (if truthy s then s else name (constructor m)))
      | None => Ok (js_plus namespace_var (name (constructor m)))
      end
  end.

(** ** Configuration, context and state *)

(** [StrateConfiguration], configuration/default.ts. *)
Record StrateConfiguration := {
  debug : option bool;
  middleware : option (list Middleware);
  skip : option (list Reference);
}.

(** The module-level [DefaultConfiguration]. *)
Definition DefaultConfiguration : StrateConfiguration :=
  {| debug := Some false; middleware := None; skip := None |}.

(** The proxy built by createContext: the own properties of its target, as a
    finite map from keys to values, and the configuration held by the seeded
    [strate] record (its two loggers are determined by it). *)
Record ContextObject := {
  target : gmap string value;
  strate_configuration : StrateConfiguration;
}.

(** The state of one invocation: its context, what it has done so far, and
    the flag of executeRoute. *)
Record State := {
  context : ContextObject;
  trace : list event;
  handlerHasBeenExecuted : bool;
}.

(** Code that runs in a state and returns or throws. *)
Definition M (A : Type) : Type := State → result A * State.

Definition ret {A} (a : A) : M A := λ s, (Ok a, s).

Definition throw {A} (e : exn) : M A := λ s, (Throw e, s).

Definition bind {A B} (c : M A) (f : A → M B) : M B :=
  λ s, match c s with
       | (Ok a, s') => f a s'
       | (Throw e, s') => (Throw e, s')
       end.

Notation "'let*' x ':=' c 'in' k" := (bind c (λ x, k))
  (at level 10, x pattern, c at level 100, k at level 200).
Notation "c ';;' k" := (bind c (λ _, k))
  (at level 100, k at level 200, right associativity).

(** The outcome of a call, as a [try]/[catch] around it sees it. *)
Definition attempt {A} (c : M A) : M (result A) :=
  λ s, match c s with (r, s') => (Ok r, s') end.

Definition lift {A} (r : result A) : M A := λ s, (r, s).

(** The state after some more events. *)
Definition append_trace (events : list event) (s : State) : State :=
  {| context := context s; trace := trace s ++ events;
     handlerHasBeenExecuted := handlerHasBeenExecuted s |}.

Definition emit (e : event) : M unit := λ s, (Ok (), append_trace [e] s).

Definition get_target : M (gmap string value) := λ s, (Ok (target (context s)), s).

Definition set_target (t : gmap string value) : M unit :=
  λ s, (Ok (), {| context := {| target := t;
                                strate_configuration := strate_configuration (context s) |};
                  trace := trace s;
                  handlerHasBeenExecuted := handlerHasBeenExecuted s |}).

Definition get_handlerHasBeenExecuted : M bool := λ s, (Ok (handlerHasBeenExecuted s), s).

Definition set_handlerHasBeenExecuted (b : bool) : M unit :=
  λ s, (Ok (), {| context := context s; trace := trace s; handlerHasBeenExecuted := b |}).

(** ** Loggers and the context object *)

Definition debug_enabled (configuration : StrateConfiguration) : bool :=
  match debug configuration with
  | Some true => true
  | _ => false
  end.

(** [createLoggers]: both loggers print only when [configuration.debug] is
    set.  [console_line] is what a call of a logger prints. *)
Definition console_line (configuration : StrateConfiguration) (e : event) : option string :=
  match e with
  | Debug message =>
      if debug_enabled configuration then Some ("[ Strate - debug ] " +:+ message) else None
  | Warn message =>
      if debug_enabled configuration then Some ("[ Strate - warning ] " +:+ message) else None
  | _ => None
  end.

Definition console (configuration : StrateConfiguration) (t : list event) : list string :=
  omap (console_line configuration) t.

Definition reassigned_message (property : string) : string :=
  "Strate context property " +:+ quoted property +:+
  " is being reassigned by the route or the current middleware. If you meant to do this, ignore this warning.".

Definition not_found_message (property : string) : string :=
  "Property " +:+ quoted property +:+
  " was not found on the context object. Did you forget do add a middleware that provide this property?".

(** [createContext], part_000 lines 83-106: the target holds [strate] only. *)
Definition createContext (configuration : StrateConfiguration) : ContextObject :=
  {| target := {[ "strate" := VStrate ]}; strate_configuration := configuration |}.

(** The own properties of the target: the entries of the map under the keys
    that can be assigned. *)
Definition own (t : gmap string value) (property : string) : option value :=
  if reserved property then None else t !! property.

(** [target.hasOwnProperty(property)]: the method is the one of
    [Object.prototype]. *)
Definition hasOwnProperty (t : gmap string value) (property : string) : bool :=
  bool_decide (is_Some (own t property)).

(** What the target inherits under a key that it does not own. *)
Definition inherited (property : string) : value :=
  if bool_decide (property ∈ Object_prototype_members)
  then VInherited property
  else undefined.

(** [Reflect.get(target, property, receiver)]: the own property, or else
    what the prototype chain gives. *)
Definition Reflect_get (t : gmap string value) (property : string) : value :=
  match own t property with
  | Some v => v
  | None => inherited property
  end.

(** The [set] trap: [context[property] = v].  For a key that can be
    assigned, [Reflect.set] defines or updates the own property of the
    target, also when the key names a member of [Object.prototype], which
    are all writable data properties but [__proto__]. *)
Definition proxy_set (property : string) `{!NotReserved property} (v : value) : M bool :=
  let* t := get_target in
  (if hasOwnProperty t property
   then emit (Warn (reassigned_message property))
   else ret ()) ;;
  set_target (<[property := v]> t) ;;
  ret true.

(** The [get] trap: [context[property]]. *)
Definition proxy_get (property : string) : M value :=
  let* t := get_target in
  (if hasOwnProperty t property
   then ret ()
   else emit (Warn (not_found_message property))) ;;
  ret (Reflect_get t property).

(** [context.strate], read through the proxy, as the record that owns
    [configuration], [warn] and [debug].  The values that user code can put
    in its place have no callable member. *)
Definition strate_record : M StrateConfiguration :=
  let* v := proxy_get "strate" in
  match v with
  | VStrate => λ s, (Ok (strate_configuration (context s)), s)
  | VData DUndefined => throw (TypeError "Cannot read properties of undefined")
  | _ => throw (TypeError "context.strate member is not usable")
  end.

Definition strate_debug (message : string) : M unit :=
  strate_record ;; emit (Debug message).

Definition strate_warn (message : string) : M unit :=
  strate_record ;; emit (Warn message).

(** The built-in functions of [Object.prototype] that return when called
    without a receiver: [Object(code)] makes an object, [isPrototypeOf]
    answers false for a value that is not an object, [toString] answers for
    [undefined].  The others convert their receiver to an object first. *)
Definition returns_without_receiver (member : string) : bool :=
  bool_decide (member ∈ ["constructor"; "isPrototypeOf"; "toString"]).

(** A call [callee(code, message, statusCode)], the callee held in a local
    variable.  The [error] closure of ErrorHandler.handle (lines 30-39)
    fills the arguments left out with the defaults of its instance, sends the
    response and throws the sentinel.  A built-in function inherited from
    [Object.prototype] is called with no receiver.  Nothing else among these
    values can be called. *)
Definition call_value (callee : value) (code message : option string)
    (statusCode : option Z) : M unit :=
  match callee with
  | VErrorResponder defaultCode defaultMessage defaultStatusCode =>
      emit (Response (default defaultStatusCode statusCode)
                     (default defaultCode code)
                     (default defaultMessage message)) ;;
      throw HandledError
  | VInherited member =>
      if returns_without_receiver member then ret ()
      else throw (TypeError "called on null or undefined, or not a function")
  | _ => throw (TypeError "error is not a function")
  end.

(** ** Running a body *)

Section Exec.
(** [process.env.NODE_ENV === 'production'] *)
Variable production : bool.

Fixpoint exec {N : Type} (next : N → M unit) (p : prog N) : M unit :=
  match p with
  | Return => ret ()
  | Effect label k => emit (Mark label) ;; exec next k
  | ContextSet property v k => proxy_set property v ;; exec next k
  | ContextGet property k => let* v := proxy_get property in exec next (k v)
  | Invoke callee code message statusCode k =>
      call_value callee code message statusCode ;; exec next k
  | StrateWarn message k => strate_warn message ;; exec next k
  | NodeEnvIsProduction k => exec next (k production)
  | AwaitNext n k => let* r := attempt (next n) in exec next (k r)
  | Raise e => throw e
  end.
End Exec.

(** ** The middleware shipped with Strate *)

(** [ErrorHandler.handle], ErrorHandler.ts lines 29-59. *)
Definition ErrorHandler_handle (defaultCode defaultMessage : string)
    (defaultStatusCode : Z) : prog unit :=
  let error := VErrorResponder defaultCode defaultMessage defaultStatusCode in
  ContextSet "error" error
    (AwaitNext () (λ r,
       match r with
       | Ok _ => Return
       | Throw err =>
           if bool_decide (err = HandledError) then Return
           else NodeEnvIsProduction (λ production,
                  if production then Call error None None None
                  else StrateWarn "An error was thrown:" (Raise err))
       end)).

Definition ErrorHandler_class : ClassRef :=
  {| name := "ErrorHandler"; namespace := Some "Strate" |}.

(** [new ErrorHandler(defaultCode, defaultMessage, defaultStatusCode)] *)
Definition ErrorHandler (defaultCode defaultMessage : string) (defaultStatusCode : Z)
  : Middleware :=
  {| constructor := ErrorHandler_class;
     dependencies := None;
     id := None;
     handle := ErrorHandler_handle defaultCode defaultMessage defaultStatusCode |}.

(** [new ErrorHandler()], with the defaults of the constructor. *)
Definition ErrorHandler_default : Middleware :=
  ErrorHandler "ERR-0000" "An unspecified error occurred." 500.

(** What [schema.validate] does with the request body. *)
Inductive ValidateOutcome :=
| Valid
| Invalid                   (* throws a ValidationError *)
| ValidateFails (e : exn).  (* throws something else *)

(** [Validation.handle], Validation.ts lines 17-32: [error] is read from the
    context when the call begins; the [catch] swallows whatever is not a
    ValidationError. *)
Definition Validation_handle (outcome : ValidateOutcome) : prog unit :=
  ContextGet "error" (λ error,
    match outcome with
    | Invalid =>
        Invoke error (Some "V-KI-0000")
               (Some "There were validation errors on your request.") (Some 422%Z)
               (await_next Return)
    | Valid | ValidateFails _ => await_next Return
    end).

Definition Validation_class : ClassRef :=
  {| name := "Validation"; namespace := Some "Strate" |}.

Definition Validation (outcome : ValidateOutcome) : Middleware :=
  {| constructor := Validation_class;
     dependencies := Some [RefClass ErrorHandler_class];
     id := None;
     handle := Validation_handle outcome |}.

(** ** The dependency graph *)

(** Modelled from the spec: the [DepGraph] class that part_000 imports from
    the dependency-graph package is not among the sources.  The model keeps
    what the spec says of it (a mapping from identity to instance with
    directed edges from dependent to dependency, an edge whose target is
    absent fails, a cycle fails with a dependency-cycle error, the overall
    order is a topological order that favours insertion order) and lays it
    out as the package does: an edge is refused by [addDependency] only when
    one of its ends is not a node, which is the failure that the [catch] of
    resolveMiddleware turns into its two messages, and a cycle is found by the
    depth-first traversal of [overallOrder], outside that [catch]. *)
Record DepGraph := {
  nodes : list (string * Middleware);           (* in insertion order *)
  outgoingEdges : gmap string (list string);    (* node -> its dependencies *)
  incomingEdges : gmap string (list string);    (* node -> its dependants *)
}.

Definition new_DepGraph : DepGraph :=
  {| nodes := []; outgoingEdges := ∅; incomingEdges := ∅ |}.

Definition keys (graph : DepGraph) : list string := (nodes graph).*1.

Definition hasNode (graph : DepGraph) (node : string) : bool :=
  bool_decide (node ∈ keys graph).

Definition addNode (graph : DepGraph) (node : string) (data : Middleware) : DepGraph :=
  if hasNode graph node then graph
  else {| nodes := nodes graph ++ [(node, data)];
          outgoingEdges := <[node := []]> (outgoingEdges graph);
          incomingEdges := <[node := []]> (incomingEdges graph) |}.

Definition node_missing (node : string) : exn :=
  Error ("Node does not exist: " +:+ node).

Fixpoint lookup_data (l : list (string * Middleware)) (node : string) : option Middleware :=
  match l with
  | [] => None
  | (k, d) :: rest => if String.eqb k node then Some d else lookup_data rest node
  end.

Fixpoint replace_data (l : list (string * Middleware)) (node : string) (data : Middleware)
  : list (string * Middleware) :=
  match l with
  | [] => []
  | (k, d) :: rest =>
      if String.eqb k node then (k, data) :: rest else (k, d) :: replace_data rest node data
  end.

Definition getNodeData (graph : DepGraph) (node : string) : result Middleware :=
  match lookup_data (nodes graph) node with
  | Some data => Ok data
  | None => Throw (node_missing node)
  end.

Definition setNodeData (graph : DepGraph) (node : string) (data : Middleware)
  : result DepGraph :=
  if hasNode graph node
  then Ok {| nodes := replace_data (nodes graph) node data;
             outgoingEdges := outgoingEdges graph;
             incomingEdges := incomingEdges graph |}
  else Throw (node_missing node).

(** [if (edges.indexOf(x) === -1) edges.push(x)] *)
Definition push_unique (x : string) (l : list string) : list string :=
  if bool_decide (x ∈ l) then l else l ++ [x].

Definition addDependency (graph : DepGraph) (from to : string) : result DepGraph :=
  if negb (hasNode graph from) then Throw (node_missing from)
  else if negb (hasNode graph to) then Throw (node_missing to)
  else Ok {| nodes := nodes graph;
             outgoingEdges := alter (push_unique to) from (outgoingEdges graph);
             incomingEdges := alter (push_unique from) to (incomingEdges graph) |}.

Definition edges_of (edges : gmap string (list string)) (node : string) : list string :=
  default [] (edges !! node).

(** One traversal after another, each starting from the marks the previous
    one left; the first failure ends the loop. *)
Fixpoint visit_each (visit : string → list string → result (list string))
    (starts : list string) (visited : list string) : result (list string) :=
  match starts with
  | [] => Ok visited
  | node :: rest =>
      match visit node visited with
      | Ok visited' => visit_each visit rest visited'
      | Throw e => Throw e
      end
  end.

(** The depth-first traversal behind [overallOrder].  [visited] lists the
    nodes whose traversal is finished, in the order in which they finished:
    it is both the set of marks and the result being built.  Meeting a node
    of the current path again is a cycle.  [fuel] bounds the depth; a path
    never repeats a node, so no traversal is deeper than the number of nodes
    and the bound that [overallOrder] gives is never reached. *)
Fixpoint DFS (edges : gmap string (list string)) (fuel : nat) (currentPath : list string)
    (node : string) (visited : list string) : result (list string) :=
  match fuel with
  | 0 => Throw (Error "traversal deeper than the number of nodes")
  | S fuel' =>
      if bool_decide (node ∈ visited) then Ok visited
      else if bool_decide (node ∈ currentPath)
      then Throw (DepGraphCycleError (reverse (node :: currentPath)))
      else
        match visit_each (DFS edges fuel' (node :: currentPath)) (edges_of edges node) visited with
        | Ok visited' => Ok (visited' ++ [node])
        | Throw e => Throw e
        end
  end.

(** [overallOrder()]: a first traversal from every node looks for cycles,
    a second one from the nodes that nothing depends on builds the order. *)
Definition overallOrder (graph : DepGraph) : result (list string) :=
  let fuel := S (length (keys graph)) in
  match visit_each (DFS (outgoingEdges graph) fuel []) (keys graph) [] with
  | Throw e => Throw e
  | Ok _ =>
      visit_each (DFS (outgoingEdges graph) fuel [])
        (filter (λ node, edges_of (incomingEdges graph) node = []) (keys graph)) []
  end.

(** ** Resolving the middleware *)

Definition skip_nonempty (configuration : StrateConfiguration) : bool :=
  match skip configuration with
  | Some (_ :: _) => true
  | _ => false
  end.

(** [skip.includes(identity)]: only a string entry can equal a string. *)
Definition skip_includes (configuration : StrateConfiguration) (identity : string) : bool :=
  match skip configuration with
  | Some entries =>
      existsb (λ r, match r with RefString s => String.eqb s identity | RefClass _ => false end)
              entries
  | None => false
  end.

Definition duplicate_message (instanceName : string) (skipNonEmpty hasId : bool) : string :=
  let intendedSolution :=
    if skipNonEmpty
    then "add " +:+ quoted instanceName +:+ " to the " +:+ quoted "skip" +:+
         " array on this route configuration"
    else "add " +:+ quoted ("skip: [ '" +:+ instanceName +:+ "' ]") +:+
         " to this route configuration" in
  let duplicateIdSolution :=
    if hasId
    then "modify their class' " +:+ quoted "id()" +:+ " method to return unique strings"
    else "create an " +:+ quoted "id()" +:+
         " method on the middleware class that returns unique strings" in
  "The " +:+ quoted instanceName +:+
  " middleware was used more than once. Only the last instance of the middleware will be used. If this was intended, "
  +:+ intendedSolution +:+
  " to suppress this message. If you intended to use both (or more) middleware instances, "
  +:+ duplicateIdSolution +:+ " to identify different instances.".

Definition skipped_message (instanceName dependencyName : string) : string :=
  "Middleware " +:+ quoted instanceName +:+ " depends on a skipped middleware: " +:+
  dependencyName +:+ ". Either remove " +:+ quoted dependencyName +:+ " from the " +:+
  quoted "skip" +:+ " array on your configuration, or remove " +:+ quoted instanceName +:+
  " from your " +:+ quoted "middleware" +:+ " array.".

Definition missing_message (instanceName dependencyName : string) : string :=
  "Middleware " +:+ quoted instanceName +:+ " depends on a missing middleware: " +:+
  dependencyName.

(** [addMiddlewareToGraph], part_000 lines 150-176. *)
Fixpoint addMiddlewareToGraph (graph : DepGraph) (middleware : list Middleware)
  : M DepGraph :=
  match middleware with
  | [] => ret graph
  | instance :: rest =>
      let* instanceName := lift (getMiddlewareName (ArgInstance instance)) in
      if hasNode graph instanceName then
        let* configuration := strate_record in
        strate_warn (duplicate_message instanceName (skip_nonempty configuration)
                       (bool_decide (is_Some (id instance)))) ;;
        let* graph' := lift (setNodeData graph instanceName instance) in
        addMiddlewareToGraph graph' rest
      else addMiddlewareToGraph (addNode graph instanceName instance) rest
  end.

(** The inner loop of resolveMiddleware, lines 192-212, over the
    dependencies of one instance. *)
Fixpoint addDependencies (graph : DepGraph) (instanceName : string)
    (deps : list Reference) : M DepGraph :=
  match deps with
  | [] => ret graph
  | dependency :: rest =>
      let* dependencyName := lift (getMiddlewareName (arg_of_reference dependency)) in
      match addDependency graph instanceName dependencyName with
      | Ok graph' => addDependencies graph' instanceName rest
      | Throw _ =>
          let* configuration := strate_record in
          if skip_includes configuration dependencyName
          then throw (Error (skipped_message instanceName dependencyName))
          else throw (Error (missing_message instanceName dependencyName))
      end
  end.

(** The outer loop, lines 188-214. *)
Fixpoint setDependencies (graph : DepGraph) (middleware : list Middleware) : M DepGraph :=
  match middleware with
  | [] => ret graph
  | instance :: rest =>
      let* instanceName := lift (getMiddlewareName (ArgInstance instance)) in
      let* graph' := addDependencies graph instanceName (default [] (dependencies instance)) in
      setDependencies graph' rest
  end.

(** [resolveMiddleware], part_000 lines 181-217.  The parameter of
    addMiddlewareToGraph defaults to the empty array, the [for] loop of
    resolveMiddleware itself has no default. *)
Definition resolveMiddleware : M (DepGraph * list string) :=
  let* configuration := strate_record in
  let* graph := addMiddlewareToGraph new_DepGraph (default [] (middleware configuration)) in
  let* configuration := strate_record in
  match middleware configuration with
  | None => throw (TypeError "context.strate.configuration.middleware is not iterable")
  | Some instances =>
      let* graph' := setDependencies graph instances in
      let* order := lift (overallOrder graph') in
      ret (graph', order)
  end.

(** ** Executing a route *)

Section Execution.
(** [process.env.NODE_ENV === 'production'] *)
Variable production : bool.

(** The [else] branch of [next], lines 255-262. *)
Definition run_handler (handler : RouteHandler) : M unit :=
  strate_debug "Running route handler" ;;
  set_handlerHasBeenExecuted true ;;
  emit Handler ;;
  exec production (λ n : Empty_set, match n with end) handler.

(** [next(index)], lines 247-263, on [rest], the elements of
    [middlewareArray] from [index] on: the continuation that a middleware
    receives is [next(index + 1)], on the elements after the first.  An
    element that is not truthy sends to the handler, as the end of the
    array does. *)
Fixpoint next_from (graph : DepGraph) (handler : RouteHandler) (rest : list string)
  : M unit :=
  match rest with
  | identity :: rest' =>
      if truthy identity then
        let* middlewareInstance := lift (getNodeData graph identity) in
        let* middlewareName := lift (getMiddlewareName (ArgInstance middlewareInstance)) in
        strate_debug ("Running: " +:+ middlewareName) ;;
        emit (Handle identity) ;;
        exec production
             (λ _, emit (Continue identity) ;; next_from graph handler rest')
             (handle middlewareInstance)
      else run_handler handler
  | [] => run_handler handler
  end.

Definition next (graph : DepGraph) (handler : RouteHandler)
    (middlewareArray : list string) (index : nat) : M unit :=
  next_from graph handler (drop index middlewareArray).

(** The text of a [skip] entry in the debug line; the entries are strings
    once loadConfiguration has resolved them. *)
Definition reference_text (r : Reference) : string :=
  match r with
  | RefString s => s
  | RefClass c => "class " +:+ name c
  end.

(** [executeRoute], part_000 lines 222-275. *)
Definition executeRoute (handler : RouteHandler) : M unit :=
  strate_debug "Generating middleware graph" ;;
  let* resolved := resolveMiddleware in
  let graph := resolved.1 in
  let middlewareArray := resolved.2 in
  strate_debug ("Running middleware in the following order: " +:+
                String.concat " -> " middlewareArray) ;;
  (let* configuration := strate_record in
   if skip_nonempty configuration then
     strate_debug ("The following middleware were skipped: " +:+
                   String.concat ", " (reference_text <$> default [] (skip configuration)))
   else ret ()) ;;
  set_handlerHasBeenExecuted false ;;
  next graph handler middlewareArray 0 ;;
  let* executed := get_handlerHasBeenExecuted in
  if executed then strate_debug "Strate finished execution successfully."
  else strate_warn
         ("Strate finished execution successfully, but the called route handler wasn't" +:+
          " executed. A middleware may have sent a response before the handler had a chance to run.").
End Execution.

(** ** Loading the configuration *)

(** Configuration objects live in a store and are passed by reference. *)
Abbreviation location := positive.

Abbreviation heap := (gmap positive StrateConfiguration).

(** [Object.assign(target, source)] on the fields of a configuration: a
    field that the source owns replaces the target's. *)
Definition Object_assign (target source : StrateConfiguration) : StrateConfiguration :=
  {| debug := match debug source with Some b => Some b | None => debug target end;
     middleware :=
       match middleware source with Some l => Some l | None => middleware target end;
     skip := match skip source with Some l => Some l | None => skip target end |}.

(** [Array.prototype.filter] with a callback that may throw. *)
Fixpoint result_filter {A} (f : A → result bool) (l : list A) : result (list A) :=
  match l with
  | [] => Ok []
  | a :: l' =>
      match f a with
      | Throw e => Throw e
      | Ok b =>
          match result_filter f l' with
          | Throw e => Throw e
          | Ok kept => Ok (if b then a :: kept else kept)
          end
      end
  end.

(** [loadConfiguration], part_000 lines 111-127.  The rest pattern of the
    first parameter, [{ middleware: baseMiddleware = [], ...baseConfiguration }],
    builds a new object out of the other fields of the argument; that new
    object is the one that [Object.assign] writes to and returns. *)
Definition loadConfiguration (base route : location) (h : heap) : result location * heap :=
  match h !! base, h !! route with
  | Some baseObject, Some routeObject =>
      let baseMiddleware := default [] (middleware baseObject) in
      let baseConfiguration :=
        {| debug := debug baseObject; middleware := None; skip := skip baseObject |} in
      let routeMiddleware := default [] (middleware routeObject) in
      let skip_ := default [] (skip routeObject) in
      let routeConfiguration :=
        {| debug := debug routeObject; middleware := None; skip := None |} in
      match result_map (λ r, getMiddlewareName (arg_of_reference r)) skip_ with
      | Throw e => (Throw e, h)
      | Ok resolvedSkip =>
          match result_filter
                  (λ m, match getMiddlewareName (ArgInstance m) with
                        | Ok n => Ok (negb (bool_decide (n ∈ resolvedSkip)))
                        | Throw e => Throw e
                        end)
                  (baseMiddleware ++ routeMiddleware) with
          | Throw e => (Throw e, h)
          | Ok kept =>
              let l := fresh (dom h) in
              (Ok l,
               <[l := Object_assign (Object_assign baseConfiguration routeConfiguration)
                        {| debug := None;
                           middleware := Some kept;
                           skip := Some (RefString <$> resolvedSkip) |}]> h)
          end
      end
  | _, _ => (Throw (TypeError "Cannot destructure the configuration"), h)
  end.

(** ** The entry points *)

Record Request := {
  method : string;
  url : string;
}.

(** Where the module-level default configuration lives. *)
Definition defaultConfiguration : location := 1%positive.

Definition initial_heap : heap := {[ defaultConfiguration := DefaultConfiguration ]}.

Definition initial_state (configuration : StrateConfiguration) : State :=
  {| context := createContext configuration; trace := []; handlerHasBeenExecuted := false |}.

Section EntryPoints.
Variable production : bool.

(** One call of the function that [Route(handler, routeConfiguration)]
    returns, lines 318-333: what it returns or throws to its caller, the
    state it ends in, and the store.  When loadConfiguration throws, no
    context has been created yet: the state given then is an empty one. *)
Definition Route (handler : RouteHandler) (routeConfiguration : location)
    (request : Request) (h : heap) : result unit * State * heap :=
  match loadConfiguration defaultConfiguration routeConfiguration h with
  | (Throw e, h') => (Throw e, initial_state DefaultConfiguration, h')
  | (Ok l, h') =>
      let configuration := default DefaultConfiguration (h' !! l) in
      ((emit (Debug ("Route: " +:+ method request +:+ " " +:+ url request)) ;;
        executeRoute production handler) (initial_state configuration), h')
  end.

(** One call of the function that [makeRoute(baseConfiguration)(handler,
    routeConfiguration)] returns, lines 282-310.  [baseConfiguration] is a
    configuration object or a function run before the route. *)
Definition makeRoute (baseConfiguration : location + RouteHandler)
    (handler : RouteHandler) (routeConfiguration : location)
    (request : Request) (h : heap) : result unit * State * heap :=
  let base := match baseConfiguration with
              | inl l => l
              | inr _ => defaultConfiguration
              end in
  match loadConfiguration base routeConfiguration h with
  | (Throw e, h') => (Throw e, initial_state DefaultConfiguration, h')
  | (Ok l, h') =>
      let configuration := default DefaultConfiguration (h' !! l) in
      ((emit (Debug ("Route: " +:+ method request +:+ " " +:+ url request)) ;;
        match baseConfiguration with
        | inl _ => ret ()
        | inr f => exec production (λ n : Empty_set, match n with end) f
        end ;;
        executeRoute production handler) (initial_state configuration), h')
  end.
End EntryPoints.

(** ** Auxiliary definitions for the statements *)

(** The calls and effects of a trace, without the lines of the loggers. *)
Definition is_log (e : event) : bool :=
  match e with
  | Warn _ | Debug _ => true
  | _ => false
  end.

Definition calls (t : list event) : list event :=
  List.filter (λ e, negb (is_log e)) t.

(** A body that has the given effects, then goes on as [k]. *)
Definition effects {N} (labels : list string) (k : prog N) : prog N :=
  foldr Effect k labels.

(** A middleware that does something, awaits its continuation once, and does
    something else once the continuation has returned. *)
Definition onion (pre post : list string) : prog unit :=
  effects pre (await_next (effects post Return)).

(** [invokes_at_most n p]: however [p] runs, it invokes its continuation at
    most [n] times. *)
Inductive invokes_at_most {N} : nat → prog N → Prop :=
| iam_Return n : invokes_at_most n Return
| iam_Effect n label k : invokes_at_most n k → invokes_at_most n (Effect label k)
| iam_ContextSet n property `{!NotReserved property} v k :
    invokes_at_most n k → invokes_at_most n (ContextSet property v k)
| iam_ContextGet n property k :
    (∀ v, invokes_at_most n (k v)) → invokes_at_most n (ContextGet property k)
| iam_Invoke n callee code message statusCode k :
    invokes_at_most n k → invokes_at_most n (Invoke callee code message statusCode k)
| iam_StrateWarn n message k :
    invokes_at_most n k → invokes_at_most n (StrateWarn message k)
| iam_NodeEnvIsProduction n k :
    (∀ b, invokes_at_most n (k b)) → invokes_at_most n (NodeEnvIsProduction k)
| iam_AwaitNext n next k :
    (∀ r, invokes_at_most n (k r)) → invokes_at_most (S n) (AwaitNext next k)
| iam_Raise n e : invokes_at_most n (Raise e).

(** [adds P c]: whatever state [c] runs in, it only appends to the trace,
    and what it appends satisfies [P]. *)
Definition adds {A} (P : list event → Prop) (c : M A) : Prop :=
  ∀ s, ∃ added, trace (c s).2 = trace s ++ added ∧ P added.

(** The last lines of executeRoute, after the chain has returned. *)
Definition finish : M unit :=
  let* executed := get_handlerHasBeenExecuted in
  if executed then strate_debug "Strate finished execution successfully."
  else strate_warn
         ("Strate finished execution successfully, but the called route handler wasn't" +:+
          " executed. A middleware may have sent a response before the handler had a chance to run.").

(** The state with another trace. *)
Definition rebase (t : list event) (s : State) : State :=
  {| context := context s; trace := t; handlerHasBeenExecuted := handlerHasBeenExecuted s |}.

(** [oblivious c]: [c] never reads the trace: run after any trace, it
    returns what it returns after none, and appends the same events. *)
Definition oblivious {A} (c : M A) : Prop :=
  ∀ s t, c (rebase t s)
         = ((c (rebase [] s)).1, rebase (t ++ trace (c (rebase [] s)).2) (c (rebase [] s)).2).

(** Events that are neither a call of a [handle], nor of a continuation,
    nor of the handler. *)
Definition quiet (e : event) : Prop :=
  match e with
  | Handle _ | Continue _ | Handler => False
  | _ => True
  end.

(** A property of appended events that holds of nothing, of one quiet event,
    and of two runs in a row when it holds of each. *)
Record closed (P : list event → Prop) : Prop := {
  closed_nil : P [];
  closed_quiet : ∀ e, quiet e → P [e];
  closed_app : ∀ l1 l2, P l1 → P l2 → P (l1 ++ l2);
}.

(** The call that [next(index)] makes when every identity is truthy, [rest]
    being the elements of the order from [index] on: the [handle] of the
    first of them, or the handler when there is none. *)
Definition first_call (rest : list string) : event :=
  match rest with
  | identity :: _ => Handle identity
  | [] => Handler
  end.

(** [l] lists nodes in an order that respects the edges: no node twice,
    and every dependency of a listed node is listed at a smaller index. *)
Definition topological (edges : gmap string (list string)) (l : list string) : Prop :=
  NoDup l ∧
  ∀ i a b, l !! i = Some a → b ∈ edges_of edges a → ∃ j, j < i ∧ l !! j = Some b.

(** [b] is a dependency of [a] in the graph. *)
Definition edge (edges : gmap string (list string)) (a b : string) : Prop :=
  b ∈ edges_of edges a.

(** A cycle: a node that is reached from itself along one edge or more. *)
Definition cyclic (edges : gmap string (list string)) : Prop :=
  ∃ x, tc (edge edges) x x.

(** What the graph operations keep true of a graph: no identity is a node
    twice, the nodes are the keys of both edge maps, both ends of an edge are
    nodes, and the incoming edges mirror the outgoing ones. *)
Record well_formed (graph : DepGraph) : Prop := {
  wf_nodup : NoDup (keys graph);
  wf_outgoing : ∀ n, n ∈ keys graph ↔ is_Some (outgoingEdges graph !! n);
  wf_incoming : ∀ n, n ∈ keys graph ↔ is_Some (incomingEdges graph !! n);
  wf_closed : ∀ a b, b ∈ edges_of (outgoingEdges graph) a → b ∈ keys graph;
  wf_mirror : ∀ a b, b ∈ edges_of (outgoingEdges graph) a
                     ↔ a ∈ edges_of (incomingEdges graph) b;
}.

(** What one traversal leaves: the marks it found, then nodes of the graph
    that were not on the path. *)
Definition grows (all path visited visited' : list string) : Prop :=
  ∃ added, visited' = visited ++ added ∧ ∀ x, x ∈ added → (x ∉ path) ∧ x ∈ all.

(** [path], from its last node back to its first, follows edges, and its
    last node has an edge to [node]. *)
Fixpoint follows (edges : gmap string (list string)) (path : list string) (node : string)
  : Prop :=
  match path with
  | [] => True
  | parent :: path' => edge edges parent node ∧ follows edges path' parent
  end.

(** The identity under which an instance is installed. *)
Definition identity_of (m : Middleware) (n : string) : Prop :=
  getMiddlewareName (ArgInstance m) = Ok n.

(** Some instance of the list has identity [n]. *)
Definition installed (instances : list Middleware) (n : string) : Prop :=
  ∃ m, m ∈ instances ∧ identity_of m n.

(** An instance of the list with identity [a] declares a dependency that
    resolves to [b]. *)
Definition depends_on (instances : list Middleware) (a b : string) : Prop :=
  ∃ m d, m ∈ instances ∧ d ∈ default [] (dependencies m) ∧
         identity_of m a ∧ getMiddlewareName (arg_of_reference d) = Ok b.

(** [b] is the first declared dependency that is not installed and [a] the
    identity of the instance that declares it: the first in the order in
    which the loops of resolveMiddleware go through the list of middleware
    and, for each instance, through its [dependencies] array. *)
Definition first_absent_dependency (instances : list Middleware) (a b : string) : Prop :=
  ∃ before m after earlier d later,
    instances = before ++ m :: after ∧
    default [] (dependencies m) = earlier ++ d :: later ∧
    identity_of m a ∧
    getMiddlewareName (arg_of_reference d) = Ok b ∧
    ¬ installed instances b ∧
    (∀ m' d' b', m' ∈ before → d' ∈ default [] (dependencies m') →
                 getMiddlewareName (arg_of_reference d') = Ok b' →
                 installed instances b') ∧
    (∀ d' b', d' ∈ earlier → getMiddlewareName (arg_of_reference d') = Ok b' →
              installed instances b').

(** The context still holds the record that createContext seeded. *)
Definition intact (s : State) : Prop :=
  target (context s) !! "strate" = Some VStrate.

(** The error of resolveMiddleware for a dependency [b] of [a] that is not
    a node. *)
Definition absent_dependency_error (configuration : StrateConfiguration) (a b : string)
  : exn :=
  Error (if skip_includes configuration b
         then skipped_message a b else missing_message a b).

(** Two middleware that depend on each other, the first of which also
    depends on a middleware that is not installed. *)
Definition ping_class : ClassRef := {| name := "Ping"; namespace := Some "App" |}.
Definition pong_class : ClassRef := {| name := "Pong"; namespace := Some "App" |}.
Definition cache_class : ClassRef := {| name := "Cache"; namespace := Some "App" |}.

Definition ping : Middleware :=
  {| constructor := ping_class;
     dependencies := Some [RefClass pong_class; RefClass cache_class];
     id := None; handle := await_next Return |}.

Definition pong : Middleware :=
  {| constructor := pong_class; dependencies := Some [RefClass ping_class];
     id := None; handle := await_next Return |}.

(** A route configuration that keeps Validation and skips the ErrorHandler
    that Validation depends on. *)
Definition validation_without_ErrorHandler : StrateConfiguration :=
  {| debug := None; middleware := Some [Validation Valid];
     skip := Some [RefString "Strate.ErrorHandler"] |}.

(** A middleware that declares its own class as a dependency. *)
Definition loop_class : ClassRef := {| name := "Loop"; namespace := Some "App" |}.

Definition loop : Middleware :=
  {| constructor := loop_class; dependencies := Some [RefClass loop_class];
     id := None; handle := await_next Return |}.

(** The middleware A and B of the nested-execution example: B depends on A,
    both have an effect before and after their continuation. *)
Definition A_class : ClassRef := {| name := "A"; namespace := Some "App" |}.
Definition B_class : ClassRef := {| name := "B"; namespace := Some "App" |}.

Definition middleware_A : Middleware :=
  {| constructor := A_class; dependencies := None; id := None;
     handle := onion ["A-pre"] ["A-post"] |}.

Definition middleware_B : Middleware :=
  {| constructor := B_class; dependencies := Some [RefClass A_class]; id := None;
     handle := onion ["B-pre"] ["B-post"] |}.

(** A route whose only middleware awaits its continuation twice. *)
Definition twice_class : ClassRef := {| name := "Retry"; namespace := Some "App" |}.

Definition twice : Middleware :=
  {| constructor := twice_class; dependencies := None; id := None;
     handle := await_next (await_next Return) |}.

(** A middleware that overwrites [context.strate] before it invokes its
    continuation. *)
Definition eraser_class : ClassRef := {| name := "Eraser"; namespace := Some "App" |}.

Definition eraser : Middleware :=
  {| constructor := eraser_class; dependencies := None; id := None;
     handle := ContextSet "strate" (VData DUndefined) (await_next Return) |}.

(** A middleware that is not behind ErrorHandler and calls [context.error]
    once its continuation has returned. *)
Definition audit_class : ClassRef := {| name := "Audit"; namespace := Some "App" |}.

Definition audit : Middleware :=
  {| constructor := audit_class; dependencies := None; id := None;
     handle := await_next (ContextGet "error" (λ error,
                 Call error (Some "AUDIT") None None)) |}.

(** A store with the default configuration and one route configuration. *)
Definition route_heap (routeConfiguration : StrateConfiguration) : heap :=
  <[2%positive := routeConfiguration]> initial_heap.

Definition with_middleware (instances : list Middleware) : StrateConfiguration :=
  {| debug := None; middleware := Some instances; skip := None |}.

Definition a_request : Request := {| method := "GET"; url := "/api/users" |}.

(** The configuration that a call of loadConfiguration hands back. *)
Definition loaded (r : result location * heap) : result StrateConfiguration :=
  match r with
  | (Ok l, h) =>
      match h !! l with
      | Some configuration => Ok configuration
      | None => Throw (TypeError "dangling configuration")
      end
  | (Throw e, _) => Throw e
  end.

(** What loadConfiguration computes from the two objects it is given. *)
Definition merge_configurations (baseObject routeObject : StrateConfiguration)
  : result StrateConfiguration :=
  match result_map (λ r, getMiddlewareName (arg_of_reference r))
                   (default [] (skip routeObject)) with
  | Throw e => Throw e
  | Ok resolvedSkip =>
      match result_filter
              (λ m, match getMiddlewareName (ArgInstance m) with
                    | Ok n => Ok (negb (bool_decide (n ∈ resolvedSkip)))
                    | Throw e => Throw e
                    end)
              (default [] (middleware baseObject) ++ default [] (middleware routeObject)) with
      | Throw e => Throw e
      | Ok kept =>
          Ok {| debug := match debug routeObject with
                         | Some b => Some b
                         | None => debug baseObject
                         end;
                middleware := Some kept;
                skip := Some (RefString <$> resolvedSkip) |}
      end
  end.

(** A store with the default configuration, a route configuration that
    turns [debug] on and skips a middleware, and one that sets nothing. *)
Definition two_routes_heap : heap :=
  <[2%positive := {| debug := Some true; middleware := None;
                     skip := Some [RefString "Strate.Validation"] |}]>
    (<[3%positive := {| debug := None; middleware := None; skip := None |}]> initial_heap).


(** ** Auxiliary definitions for the further properties *)

Global Instance result_eq_dec {A} `{EqDecision A} : EqDecision (result A).
Proof. solve_decision. Defined.

(** The instances that are given to addMiddlewareToGraph through Route or
    makeRoute: those of the base configuration, then those of the route. *)
Definition listed (baseObject routeObject : StrateConfiguration) : list Middleware :=
  default [] (middleware baseObject) ++ default [] (middleware routeObject).

(** The last instance of the list whose identity is [n]. *)
Fixpoint last_named (n : string) (instances : list Middleware) : option Middleware :=
  match instances with
  | [] => None
  | m :: rest =>
      match last_named n rest with
      | Some m' => Some m'
      | None => if bool_decide (getMiddlewareName (ArgInstance m) = Ok n) then Some m else None
      end
  end.

(** Identities in the order in which they first occur. *)
Definition insertion_order (names : list string) : list string :=
  foldl (λ acc n, push_unique n acc) [] names.

(** The two lines that executeRoute ends with. *)
Definition finished_message : string := "Strate finished execution successfully.".

Definition early_response_message : string :=
  "Strate finished execution successfully, but the called route handler wasn't" +:+
  " executed. A middleware may have sent a response before the handler had a chance to run.".

(** [tracks c]: [c] only appends to the trace, and the flag of executeRoute
    is set after it exactly when it was set before or [c] called the
    handler. *)
Definition tracks {A} (c : M A) : Prop :=
  ∀ s, ∃ added,
    trace (c s).2 = trace s ++ added ∧
    (handlerHasBeenExecuted (c s).2 = true
     ↔ handlerHasBeenExecuted s = true ∨ Handler ∈ added).

(** Solves [tracks c] for a [c] that leaves the trace and the flag alone. *)
Ltac tracks_nothing :=
  let s := fresh "s" in
  intros s; exists []; simpl; rewrite app_nil_r; split; [done|];
  split; [by left | intros [?|H]; [done | by apply elem_of_nil in H]].

(** Every [handle] call of [b] in [l] comes after an event [e]. *)
Definition after (e : event) (b : string) (l : list event) : Prop :=
  ∀ l1 l2, l = l1 ++ Handle b :: l2 → e ∈ l1.

(** Every [handle] call of [b] in [l] comes after a [handle] call of [a] and
    after a call of the continuation given to [a]. *)
Definition preceded (a b : string) (l : list event) : Prop :=
  after (Handle a) b l ∧ after (Continue a) b l.

(** What the chain of [next] calls on its way in, down to the handler. *)
Definition inward_calls (pre : string → list string) (order : list string) : list event :=
  flat_map (λ identity, Handle identity :: (Mark <$> pre identity) ++ [Continue identity])
           order
  ++ [Handler].

(** Two instances of one class that tell themselves apart with [id()]. *)
Definition tenant_class : ClassRef := {| name := "Tenant"; namespace := Some "App" |}.

Definition tenant (identifier : string) : Middleware :=
  {| constructor := tenant_class; dependencies := None;
     id := Some (IdString identifier); handle := await_next Return |}.

(** An instance whose [id()] is an async method. *)
Definition lazy_class : ClassRef := {| name := "Lazy"; namespace := Some "App" |}.

Definition lazy : Middleware :=
  {| constructor := lazy_class; dependencies := None; id := Some IdPromise;
     handle := await_next Return |}.

(** A base configuration with its own middleware and skip list, as given to
    makeRoute, and a route configuration that skips by class reference. *)
Definition base_with_skip : StrateConfiguration :=
  {| debug := Some true; middleware := Some [middleware_A; ErrorHandler_default];
     skip := Some [RefString "App.A"] |}.

Definition route_skipping_A : StrateConfiguration :=
  {| debug := None; middleware := Some [middleware_B]; skip := Some [RefClass A_class] |}.

Definition base_heap : heap :=
  <[3%positive := route_skipping_A]> (<[2%positive := base_with_skip]> initial_heap).

(** ** Bodies in parts *)

(** A body whose type of continuations is empty has no continuation to
    call; this runs it to its end. *)
Definition run (production : bool) (p : prog Empty_set) : M unit :=
  exec production (λ n : Empty_set, match n with end) p.

(** [andThen p q]: the statements of [p], which call no continuation,
    followed by those of [q]. *)
Fixpoint andThen {N} (p : prog Empty_set) (q : prog N) : prog N :=
  match p with
  | Return => q
  | Effect label k => Effect label (andThen k q)
  | ContextSet property v k => ContextSet property v (andThen k q)
  | ContextGet property k => ContextGet property (λ v, andThen (k v) q)
  | Invoke callee code message statusCode k =>
      Invoke callee code message statusCode (andThen k q)
  | StrateWarn message k => StrateWarn message (andThen k q)
  | NodeEnvIsProduction k => NodeEnvIsProduction (λ production, andThen (k production) q)
  | AwaitNext n _ => match n with end
  | Raise e => Raise e
  end.

(** A [handle] that invokes and awaits its continuation once: it runs a
    first part, awaits [next()], and runs a last part when the continuation
    has returned.  [catch e] is what it does instead when the continuation
    throws [e]: for a call outside any [try], it throws [e] on. *)
Definition around (pre post : prog Empty_set) (catch : exn → prog unit) : prog unit :=
  andThen pre
    (AwaitNext () (λ r, match r with
                        | Ok _ => andThen post Return
                        | Throw e => catch e
                        end)).

(** Steps that are run one after the other; a step that throws ends the
    run. *)
Fixpoint in_sequence (steps : list (M unit)) : M unit :=
  match steps with
  | [] => ret ()
  | step :: rest => step ;; in_sequence rest
  end.

(** The way in through a middleware: its [handle] is called, its first part
    runs, its continuation is invoked. *)
Definition way_in (production : bool) (pre : prog Empty_set) (identity : string) : M unit :=
  strate_debug ("Running: " +:+ identity) ;;
  emit (Handle identity) ;;
  run production pre ;;
  emit (Continue identity).

(** The calls that the engine makes, in the order in which it makes them:
    of a [handle], of the continuation given to it, of the handler. *)
Definition engine_calls (t : list event) : list event :=
  List.filter (λ e, match e with
                    | Handle _ | Continue _ | Handler => true
                    | _ => false
                    end) t.

(** The call of the route handler: the debug line, the flag of
    executeRoute, the call, and the handler itself. *)
Definition call_handler (production : bool) (handler : RouteHandler) : M unit :=
  strate_debug "Running route handler" ;;
  set_handlerHasBeenExecuted true ;;
  emit Handler ;;
  run production handler.

(** The nested execution of a chain, laid out flat: the way in through the
    middleware in the order given, the handler, and the last parts of the
    middleware in the reverse order. *)
Definition nested_execution (production : bool) (handler : RouteHandler)
    (pre post : string → prog Empty_set) (order : list string) : M unit :=
  in_sequence (((λ identity, way_in production (pre identity) identity) <$> order)
               ++ [call_handler production handler]
               ++ ((λ identity, run production (post identity)) <$> reverse order)).

(** ** Bodies that leave [context.strate] in place *)

(** [spares_strate p]: however [p] runs, it does not assign to
    [context.strate]. *)
Inductive spares_strate {N} : prog N → Prop :=
| ss_Return : spares_strate Return
| ss_Effect label k : spares_strate k → spares_strate (Effect label k)
| ss_ContextSet property `{!NotReserved property} v k :
    property ≠ "strate" → spares_strate k → spares_strate (ContextSet property v k)
| ss_ContextGet property k :
    (∀ v, spares_strate (k v)) → spares_strate (ContextGet property k)
| ss_Invoke callee code message statusCode k :
    spares_strate k → spares_strate (Invoke callee code message statusCode k)
| ss_StrateWarn message k : spares_strate k → spares_strate (StrateWarn message k)
| ss_NodeEnvIsProduction k :
    (∀ b, spares_strate (k b)) → spares_strate (NodeEnvIsProduction k)
| ss_AwaitNext n k : (∀ r, spares_strate (k r)) → spares_strate (AwaitNext n k)
| ss_Raise e : spares_strate (Raise e).

(** [adds_intact P c]: run in a state where [context.strate] holds the
    seeded record, [c] only appends to the trace, what it appends satisfies
    [P], and [context.strate] still holds the record afterwards. *)
Definition adds_intact {A} (P : list event → Prop) (c : M A) : Prop :=
  ∀ s, intact s →
       ∃ added, trace (c s).2 = trace s ++ added ∧ P added ∧ intact (c s).2.

(** Every identity of [rest] is truthy and is a node of the graph whose
    instance resolves to an identity and does not assign to
    [context.strate]. *)
Definition sparing_nodes (graph : DepGraph) (rest : list string) : Prop :=
  ∀ n, n ∈ rest →
       truthy n = true ∧
       ∃ m name, getNodeData graph n = Ok m ∧
                 getMiddlewareName (ArgInstance m) = Ok name ∧
                 spares_strate (handle m).

(** The handler is called only after the continuation of every one of the
    identities. *)
Definition reaches_handler_through (identities : list string) (l : list event) : Prop :=
  Handler ∈ l → ∀ identity, identity ∈ identities → Continue identity ∈ l.
(** * Properties *)

(** ** Identities *)

Lemma append_cons (x : Ascii.ascii) (a b : string) :
  String x a +:+ b = String x (a +:+ b).
Proof. reflexivity. Qed.

Lemma append_assoc (a b c : string) : (a +:+ b) +:+ c = a +:+ (b +:+ c).
Proof. induction a as [|x a IH]; [done|]. rewrite !append_cons. by rewrite IH. Qed.

Lemma truthy_app_r (a b : string) : truthy b = true → truthy (a +:+ b) = true.
Proof. destruct a; [done | by rewrite append_cons]. Qed.

Lemma truthy_app_l (a b : string) : truthy a = true → truthy (a +:+ b) = true.
Proof. by destruct a. Qed.

(** A class reference resolves to its name, behind its namespace if it
    declares one. *)
Lemma getMiddlewareName_class (c : ClassRef) :
  getMiddlewareName (ArgClass c) =
  Ok (match namespace c with
      | Some ns => if truthy ns then ns +:+ "." +:+ name c else name c
      | None => name c
      end).
Proof. simpl. destruct (namespace c) as [ns|]; [by destruct (truthy ns) | done]. Qed.

(** An instance of a class that declares a namespace resolves to the
    namespace, a dot, and its id or else its class name. *)
Lemma getMiddlewareName_namespaced (m : Middleware) (ns local : string) :
  namespace (constructor m) = Some ns →
  truthy ns = true →
  match id m with
  | Some (IdString s) => local = (if truthy s then s else name (constructor m))
  | Some IdPromise => False
  | None => local = name (constructor m)
  end →
  getMiddlewareName (ArgInstance m) = Ok (ns +:+ "." +:+ local).
Proof.
  intros Hns Ht Hid. simpl. rewrite Hns, Ht.
  destruct (id m) as [[s|]|]; [| done |]; subst local; simpl;
    by rewrite append_assoc.
Qed.

(** The identity of an instance is never the empty string. *)
Lemma getMiddlewareName_instance_truthy (m : Middleware) (n : string) :
  getMiddlewareName (ArgInstance m) = Ok n → truthy n = true.
Proof.
  simpl. intros H.
  assert (∀ x, truthy (js_plus
    match namespace (constructor m) with
    | Some ns => if truthy ns then JSString (ns +:+ ".") else JSUndefined
    | None => JSUndefined
    end x) = true) as Hpre.
  { intros x. destruct (namespace (constructor m)) as [ns|]; [|done].
    destruct (truthy ns) eqn:E; [|done]. simpl.
    apply truthy_app_l, truthy_app_r. done. }
  destruct (id m) as [[s|]|]; simplify_eq; apply Hpre.
Qed.

(** C5, at an instance of a class [Prisma] that declares neither a namespace
    nor an id() method: the class reference resolves to the bare class name,
    the instance to that name behind the text of the unassigned local
    variable. *)
Theorem getMiddlewareName_without_namespace :
  let Prisma_class := {| name := "Prisma"; namespace := None |} in
  let prisma := {| constructor := Prisma_class; dependencies := None;
                   id := None; handle := await_next Return |} in
  getMiddlewareName (ArgClass Prisma_class) = Ok "Prisma" ∧
  getMiddlewareName (ArgInstance prisma) = Ok "undefinedPrisma".
Proof. split; reflexivity. Qed.

(** ** The context object *)

Lemma own_not_reserved (t : gmap string value) (property : string)
    `{!NotReserved property} :
  own t property = t !! property.
Proof. unfold own. by rewrite not_reserved. Qed.

Lemma hasOwnProperty_true (t : gmap string value) (property : string) :
  hasOwnProperty t property = true ↔ is_Some (own t property).
Proof. unfold hasOwnProperty. by rewrite bool_decide_eq_true. Qed.

Lemma hasOwnProperty_false (t : gmap string value) (property : string) :
  hasOwnProperty t property = false ↔ own t property = None.
Proof.
  unfold hasOwnProperty. rewrite bool_decide_eq_false. by rewrite eq_None_not_Some.
Qed.

(** A read of a present key changes nothing and returns what is stored. *)
Lemma proxy_get_present (s : State) (property : string) (v : value) :
  own (target (context s)) property = Some v → proxy_get property s = (Ok v, s).
Proof.
  intros H. unfold proxy_get, bind, get_target, ret, Reflect_get. simpl.
  assert (hasOwnProperty (target (context s)) property = true) as ->
    by (apply hasOwnProperty_true; eauto).
  by rewrite H.
Qed.

(** A read of a key that is not present warns, changes nothing else, and
    returns what the target inherits. *)
Lemma proxy_get_absent (s : State) (property : string) :
  own (target (context s)) property = None →
  proxy_get property s
  = (Ok (inherited property), append_trace [Warn (not_found_message property)] s).
Proof.
  intros H. unfold proxy_get, bind, get_target, emit, ret, Reflect_get. simpl.
  pose proof H as Hf. apply hasOwnProperty_false in Hf as ->. by rewrite H.
Qed.

(** What an assignment leaves: the value under its key, the other keys as
    they were. *)
Lemma proxy_set_target (s : State) (property : string) `{!NotReserved property}
    (v : value) :
  ∃ w, proxy_set property v s
       = (Ok true, {| context := {| target := <[property := v]> (target (context s));
                                    strate_configuration := strate_configuration (context s) |};
                      trace := trace s ++ w;
                      handlerHasBeenExecuted := handlerHasBeenExecuted s |}) ∧
       w = if hasOwnProperty (target (context s)) property
           then [Warn (reassigned_message property)] else [].
Proof.
  unfold proxy_set, bind, get_target, set_target, emit, ret. simpl.
  destruct (hasOwnProperty _ _); eexists; (split; [|reflexivity]); simpl;
    [done | by rewrite app_nil_r].
Qed.




(** ** Loading the configuration *)


Lemma loadConfiguration_inv (base route : location) (h h' : heap) (l : location) :
  loadConfiguration base route h = (Ok l, h') →
  ∃ baseObject routeObject configuration,
    h !! base = Some baseObject ∧ h !! route = Some routeObject ∧
    merge_configurations baseObject routeObject = Ok configuration ∧
    l = fresh (dom h) ∧ h' = <[l := configuration]> h.
Proof.
  unfold loadConfiguration.
  destruct (h !! base) as [baseObject|]; [|by destruct (h !! route)].
  destruct (h !! route) as [routeObject|]; [|done].
  destruct (result_map _ _) as [resolvedSkip|] eqn:E1; [|done].
  destruct (result_filter _ _) as [kept|] eqn:E2; [|done].
  intros [= <- <-]. eexists baseObject, routeObject, _.
  split; [done|]. split; [done|]. split; [|done].
  unfold merge_configurations. rewrite E1, E2. reflexivity.
Qed.

Lemma loadConfiguration_loaded (base route : location) (h : heap)
    (baseObject routeObject : StrateConfiguration) :
  h !! base = Some baseObject → h !! route = Some routeObject →
  loaded (loadConfiguration base route h) = merge_configurations baseObject routeObject.
Proof.
  intros Hb Hr. unfold loadConfiguration, merge_configurations. rewrite Hb, Hr.
  destruct (result_map _ _) as [resolvedSkip|]; [|done].
  destruct (result_filter _ _) as [kept|]; [|done].
  simpl. by rewrite lookup_insert_eq.
Qed.

(** C10, as the code has it: loadConfiguration leaves the object passed as
    first argument, and every other object of the store, as they were.  The
    object that [Object.assign] writes to and returns is a new one, made by
    the rest pattern of the parameter; it carries the debug flag of the route
    configuration or else of the base, the merged and filtered middleware
    list and the resolved skip list.  A later call that reuses the same base
    computes its configuration as if the first call had not happened. *)
Theorem loadConfiguration_leaves_base (base route route2 : location) (h h' : heap)
    (l : location) :
  loadConfiguration base route h = (Ok l, h') →
  route2 ∈ dom h →
  (l ∉ dom h) ∧ l ≠ base ∧
  (∀ other, other ∈ dom h → h' !! other = h !! other) ∧
  h' !! base = h !! base ∧
  (∃ baseObject routeObject,
     h !! base = Some baseObject ∧ h !! route = Some routeObject ∧
     loaded (Ok l, h') = merge_configurations baseObject routeObject) ∧
  loaded (loadConfiguration base route2 h') = loaded (loadConfiguration base route2 h).
Proof.
  intros Hload Hr2.
  destruct (loadConfiguration_inv _ _ _ _ _ Hload)
    as (baseObject & routeObject & configuration & Hb & Hr & Hm & -> & ->).
  pose proof (is_fresh (dom h)) as Hfresh.
  assert (fresh (dom h) ≠ base) as Hne.
  { intros E. apply Hfresh. rewrite E. apply elem_of_dom. eauto. }
  assert (∀ other, other ∈ dom h →
            <[fresh (dom h) := configuration]> h !! other = h !! other) as Hsame.
  { intros other Ho. apply lookup_insert_ne. intros E. apply Hfresh. by rewrite E. }
  split; [done|]. split; [done|]. split; [done|].
  split; [by apply lookup_insert_ne|].
  split.
  - eexists _, _. split; [done|]. split; [done|].
    simpl. by rewrite lookup_insert_eq, Hm.
  - apply elem_of_dom in Hr2 as [routeObject2 Hr2'].
    rewrite (loadConfiguration_loaded base route2 _ baseObject routeObject2).
    + by rewrite (loadConfiguration_loaded base route2 h baseObject routeObject2).
    + by rewrite lookup_insert_ne.
    + rewrite Hsame; [done|]. apply elem_of_dom. eauto.
Qed.


Lemma loadConfiguration_leaves_base_witness :
  loadConfiguration defaultConfiguration 2%positive two_routes_heap
  = (Ok 4%positive,
     <[4%positive := {| debug := Some true; middleware := Some [];
                        skip := Some [RefString "Strate.Validation"] |}]> two_routes_heap) ∧
  3%positive ∈ dom two_routes_heap ∧
  loaded (loadConfiguration defaultConfiguration 3%positive
            (<[4%positive := {| debug := Some true; middleware := Some [];
                                skip := Some [RefString "Strate.Validation"] |}]>
               two_routes_heap))
  = loaded (loadConfiguration defaultConfiguration 3%positive two_routes_heap).
Proof.
  assert (loadConfiguration defaultConfiguration 2%positive two_routes_heap
          = (Ok 4%positive,
             <[4%positive := {| debug := Some true; middleware := Some [];
                                skip := Some [RefString "Strate.Validation"] |}]>
               two_routes_heap)) as H1 by (vm_compute; reflexivity).
  assert (3%positive ∈ dom two_routes_heap) as H2 by (vm_compute; reflexivity).
  split; [exact H1|]. split; [exact H2|].
  exact (proj2 (proj2 (proj2 (proj2 (proj2
    (loadConfiguration_leaves_base _ _ _ _ _ _ H1 H2)))))).
Defined.

(** C10, as stated, fails at the default configuration: the object that the
    call returns is not the one it was given, the default configuration still
    has [debug: false] and no skip list afterwards, and a later call on the
    same base with a route configuration that sets nothing gets [debug: false]
    and an empty skip list. *)
Lemma loadConfiguration_base_not_mutated :
  ∃ l h',
    loadConfiguration defaultConfiguration 2%positive two_routes_heap = (Ok l, h') ∧
    l ≠ defaultConfiguration ∧
    h' !! defaultConfiguration = Some DefaultConfiguration ∧
    debug <$> h' !! l = Some (Some true) ∧
    loaded (loadConfiguration defaultConfiguration 3%positive h')
    = Ok {| debug := Some false; middleware := Some []; skip := Some [] |}.
Proof.
  eexists _, _. split; [vm_compute; reflexivity|].
  split; [done|]. split; [vm_compute; reflexivity|].
  split; vm_compute; reflexivity.
Qed.

(** ** The execution engine *)

Global Arguments getMiddlewareName : simpl never.
Global Arguments getNodeData : simpl never.

Lemma append_trace_nil (s : State) : append_trace [] s = s.
Proof. destruct s. unfold append_trace. simpl. by rewrite app_nil_r. Qed.

Lemma append_trace_app (l1 l2 : list event) (s : State) :
  append_trace l2 (append_trace l1 s) = append_trace (l1 ++ l2) s.
Proof. unfold append_trace. simpl. by rewrite app_assoc. Qed.

(** While [strate] holds the seeded record, reading it changes nothing. *)
Lemma strate_record_intact (s : State) :
  target (context s) !! "strate" = Some VStrate →
  strate_record s = (Ok (strate_configuration (context s)), s).
Proof.
  intros H. unfold strate_record, bind. by rewrite (proxy_get_present s "strate" VStrate H).
Qed.

Lemma strate_debug_intact (s : State) (message : string) :
  target (context s) !! "strate" = Some VStrate →
  strate_debug message s = (Ok (), append_trace [Debug message] s).
Proof.
  intros H. unfold strate_debug, bind. by rewrite (strate_record_intact _ H).
Qed.

Lemma strate_warn_intact (s : State) (message : string) :
  target (context s) !! "strate" = Some VStrate →
  strate_warn message s = (Ok (), append_trace [Warn message] s).
Proof.
  intros H. unfold strate_warn, bind. by rewrite (strate_record_intact _ H).
Qed.

Lemma exec_effects {N} (production : bool) (next : N → M unit) (labels : list string)
    (k : prog N) (s : State) :
  exec production next (effects labels k) s
  = exec production next k (append_trace (Mark <$> labels) s).
Proof.
  revert s. induction labels as [|label labels IH]; intros s; simpl.
  - by rewrite append_trace_nil.
  - unfold bind, emit. rewrite IH. by rewrite append_trace_app.
Qed.

(** [next(index)] as the source writes it, on the index. *)
Lemma next_step (production : bool) (graph : DepGraph) (handler : RouteHandler)
    (middlewareArray : list string) (index : nat) :
  next production graph handler middlewareArray index =
  match middlewareArray !! index with
  | Some identity =>
      if truthy identity then
        let* middlewareInstance := lift (getNodeData graph identity) in
        let* middlewareName := lift (getMiddlewareName (ArgInstance middlewareInstance)) in
        strate_debug ("Running: " +:+ middlewareName) ;;
        emit (Handle identity) ;;
        exec production
             (λ _, emit (Continue identity) ;;
                   next production graph handler middlewareArray (S index))
             (handle middlewareInstance)
      else run_handler production handler
  | None => run_handler production handler
  end.
Proof.
  unfold next. destruct (middlewareArray !! index) as [identity|] eqn:E.
  - by rewrite (drop_S _ _ _ E).
  - apply lookup_ge_None in E. by rewrite drop_ge.
Qed.

(** What the loggers print: nothing unless [debug] is set. *)
Lemma console_warn (configuration : StrateConfiguration) (message : string) :
  console configuration [Warn message] =
  if debug_enabled configuration then ["[ Strate - warning ] " +:+ message] else [].
Proof. unfold console. simpl. by destruct (debug_enabled configuration). Qed.

(** C4, at a route whose only middleware is [new ErrorHandler()] and whose
    handler throws [Error("boom")].  In production the fallback response is
    sent, and the call of the [error] closure that sends it throws the
    sentinel out of the [catch] block: the caller of the route receives
    HandledError.  Outside production the warn logger is called and the
    caller receives the error of the handler. *)
Theorem ErrorHandler_unhandled_error :
  let run production :=
    Route production (Raise (Error "boom")) 2%positive a_request
          (route_heap (with_middleware [ErrorHandler_default])) in
  (run true).1.1 = Throw HandledError ∧
  Response 500 "ERR-0000" "An unspecified error occurred." ∈ trace (run true).1.2 ∧
  (run false).1.1 = Throw (Error "boom") ∧
  Warn "An error was thrown:" ∈ trace (run false).1.2.
Proof.
  split; [vm_compute; reflexivity|].
  split; [vm_compute; set_solver|].
  split; [vm_compute; reflexivity|].
  vm_compute; set_solver.
Qed.

(** C3, as stated, fails at a route with the middleware [Audit] and
    [new ErrorHandler()], where Audit does not depend on ErrorHandler and so
    runs around it: the sentinel that Audit raises through [context.error]
    once its continuation has returned is outside the [try] of ErrorHandler,
    nothing else catches it, and the caller of the route receives it. *)
Lemma sentinel_outside_boundary_reaches_caller :
  (Route false Return 2%positive a_request
         (route_heap (with_middleware [audit; ErrorHandler_default]))).1.1
  = Throw HandledError.
Proof. vm_compute. reflexivity. Qed.

(** C3, as the code has it: ErrorHandler.handle returns normally whenever
    the continuation it awaits ends with the sentinel, whatever that
    continuation ran (the rest of the chain, the handler) and in production or
    not, and leaves the state as the continuation left it. *)
Theorem ErrorHandler_catches_sentinel (production : bool)
    (defaultCode defaultMessage : string) (defaultStatusCode : Z)
    (next : unit → M unit) (s s' : State) :
  next () (proxy_set "error"
             (VErrorResponder defaultCode defaultMessage defaultStatusCode) s).2
  = (Throw HandledError, s') →
  exec production next (ErrorHandler_handle defaultCode defaultMessage defaultStatusCode) s
  = (Ok (), s').
Proof.
  intros H. simpl. unfold bind at 1.
  destruct (proxy_set_target s "error"
              (VErrorResponder defaultCode defaultMessage defaultStatusCode))
    as (w & E & _).
  rewrite E in *. unfold bind, attempt. simpl in H. rewrite H. simpl. reflexivity.
Qed.

Lemma ErrorHandler_catches_sentinel_witness :
  let s := initial_state DefaultConfiguration in
  let next := λ _ : unit, exec false (λ _ : unit, ret ()) (Validation_handle Invalid) in
  ∃ s',
    next () (proxy_set "error"
               (VErrorResponder "ERR-0000" "An unspecified error occurred." 500) s).2
    = (Throw HandledError, s') ∧
    exec false next
         (ErrorHandler_handle "ERR-0000" "An unspecified error occurred." 500) s
    = (Ok (), s').
Proof.
  intros s next. eexists.
  assert (next () (proxy_set "error"
               (VErrorResponder "ERR-0000" "An unspecified error occurred." 500) s).2
          = (Throw HandledError, _)) as H by (vm_compute; reflexivity).
  split; [exact H|].
  exact (ErrorHandler_catches_sentinel false _ _ _ next s _ H).
Defined.

(** Validation on an invalid body, behind the ErrorHandler it depends on:
    the sentinel that Validation raises through [context.error] is caught,
    and the route returns normally, in production or not. *)
Example sentinel_inside_boundary_is_caught :
  ∀ production,
    (Route production Return 2%positive a_request
           (route_heap (with_middleware [Validation Invalid; ErrorHandler_default]))).1.1
    = Ok ().
Proof. intros []; vm_compute; reflexivity. Qed.

(** *** What a run appends to the trace *)

Lemma adds_ret {A} (P : list event → Prop) (a : A) : P [] → adds P (ret a).
Proof. intros H s. exists []. by rewrite app_nil_r. Qed.

Lemma adds_throw {A} (P : list event → Prop) (e : exn) : P [] → adds P (throw (A:=A) e).
Proof. intros H s. exists []. by rewrite app_nil_r. Qed.

Lemma adds_lift {A} (P : list event → Prop) (r : result A) : P [] → adds P (lift r).
Proof. intros H s. exists []. by rewrite app_nil_r. Qed.

Lemma adds_emit (P : list event → Prop) (e : event) : P [e] → adds P (emit e).
Proof. intros H s. by exists [e]. Qed.

Lemma adds_bind {A B} (P : list event → Prop) (c : M A) (f : A → M B) :
  (∀ l1 l2, P l1 → P l2 → P (l1 ++ l2)) →
  adds P c → (∀ a, adds P (f a)) → adds P (bind c f).
Proof.
  intros Happ Hc Hf s. unfold bind.
  destruct (Hc s) as (l1 & E1 & H1). destruct (c s) as [[a|e] s1]; simpl in *.
  - destruct (Hf a s1) as (l2 & E2 & H2). exists (l1 ++ l2).
    split; [|by apply Happ]. rewrite E2, E1. by rewrite app_assoc.
  - eauto.
Qed.

Lemma adds_attempt {A} (P : list event → Prop) (c : M A) : adds P c → adds P (attempt c).
Proof.
  intros Hc s. unfold attempt. destruct (Hc s) as (l & E & H).
  destruct (c s) as [r s1]. simpl in *. eauto.
Qed.

Lemma adds_weaken {A} (P Q : list event → Prop) (c : M A) :
  (∀ l, P l → Q l) → adds P c → adds Q c.
Proof. intros HPQ Hc s. destruct (Hc s) as (l & E & H). eauto. Qed.

Section Closed.
Context (P : list event → Prop) (HP : closed P).

Lemma adds_set_target (t : gmap string value) : adds P (set_target t).
Proof. intros s. exists []. simpl. rewrite app_nil_r. split; [done|apply HP]. Qed.

Lemma adds_get_target : adds P get_target.
Proof. intros s. exists []. simpl. rewrite app_nil_r. split; [done|apply HP]. Qed.

Lemma adds_set_handlerHasBeenExecuted (b : bool) : adds P (set_handlerHasBeenExecuted b).
Proof. intros s. exists []. simpl. rewrite app_nil_r. split; [done|apply HP]. Qed.

Lemma adds_get_handlerHasBeenExecuted : adds P get_handlerHasBeenExecuted.
Proof. intros s. exists []. simpl. rewrite app_nil_r. split; [done|apply HP]. Qed.

Lemma adds_proxy_set (property : string) `{!NotReserved property} (v : value) :
  adds P (proxy_set property v).
Proof.
  unfold proxy_set. apply adds_bind; [apply HP | apply adds_get_target |]. intros t.
  apply adds_bind; [apply HP | |].
  - destruct (hasOwnProperty _ _); [apply adds_emit, HP; exact I | apply adds_ret, HP].
  - intros _. apply adds_bind; [apply HP | apply adds_set_target |].
    intros _. apply adds_ret, HP.
Qed.

Lemma adds_proxy_get (property : string) : adds P (proxy_get property).
Proof.
  unfold proxy_get. apply adds_bind; [apply HP | apply adds_get_target |]. intros t.
  apply adds_bind; [apply HP | |].
  - destruct (hasOwnProperty _ _); [apply adds_ret, HP | apply adds_emit, HP; exact I].
  - intros _. apply adds_ret, HP.
Qed.

Lemma adds_strate_record : adds P strate_record.
Proof.
  unfold strate_record. apply adds_bind; [apply HP | apply adds_proxy_get |].
  intros [[]| | |]; try (apply adds_throw, HP).
  intros s. exists []. simpl. rewrite app_nil_r. split; [done | apply HP].
Qed.

Lemma adds_strate_debug (message : string) : adds P (strate_debug message).
Proof.
  unfold strate_debug. apply adds_bind; [apply HP | apply adds_strate_record |].
  intros _. apply adds_emit, HP. exact I.
Qed.

Lemma adds_strate_warn (message : string) : adds P (strate_warn message).
Proof.
  unfold strate_warn. apply adds_bind; [apply HP | apply adds_strate_record |].
  intros _. apply adds_emit, HP. exact I.
Qed.

Lemma adds_call_value (callee : value) (code message : option string)
    (statusCode : option Z) :
  adds P (call_value callee code message statusCode).
Proof.
  destruct callee as [| | |member]; simpl; try (apply adds_throw, HP).
  - apply adds_bind; [apply HP | apply adds_emit, HP; exact I |].
    intros _. apply adds_throw, HP.
  - destruct (returns_without_receiver member); [apply adds_ret | apply adds_throw]; apply HP.
Qed.

(** A body appends what its own steps append, which is quiet, and what
    the calls of its continuation append. *)
Lemma adds_exec {N} (production : bool) (next : N → M unit) (p : prog N) :
  (∀ n, adds P (next n)) → adds P (exec production next p).
Proof.
  intros Hnext. induction p as [|label k IH|property ok v k IH|property k IH|
    callee code message statusCode k IH|message k IH|k IH|n k IH|e]; simpl.
  - apply adds_ret, HP.
  - apply adds_bind; [apply HP | apply adds_emit, HP; exact I | auto].
  - apply adds_bind; [apply HP | apply adds_proxy_set | auto].
  - apply adds_bind; [apply HP | apply adds_proxy_get | auto].
  - apply adds_bind; [apply HP | apply adds_call_value | auto].
  - apply adds_bind; [apply HP | apply adds_strate_warn | auto].
  - apply IH.
  - apply adds_bind; [apply HP | apply adds_attempt, Hnext | auto].
  - apply adds_throw, HP.
Qed.
End Closed.

Lemma adds_bind2 {A B} (P Q R : list event → Prop) (c : M A) (f : A → M B) :
  (∀ l1 l2, P l1 → Q l2 → R (l1 ++ l2)) →
  (∀ l1, P l1 → R l1) →
  adds P c → (∀ a, adds Q (f a)) → adds R (bind c f).
Proof.
  intros Happ Hone Hc Hf s. unfold bind.
  destruct (Hc s) as (l1 & E1 & H1). destruct (c s) as [[a|e] s1]; simpl in *.
  - destruct (Hf a s1) as (l2 & E2 & H2). exists (l1 ++ l2).
    split; [|by apply Happ]. rewrite E2, E1. by rewrite app_assoc.
  - eauto.
Qed.

Abbreviation count e l := (count_occ event_eq_dec l e).

Lemma adds_bind_lift_ok {A B} (P : list event → Prop) (a : A) (f : A → M B) :
  adds P (f a) → adds P (bind (lift (Ok a)) f).
Proof. intros H s. exact (H s). Qed.

Lemma adds_bind_lift_throw {A B} (P : list event → Prop) (e : exn) (f : A → M B) :
  P [] → adds P (bind (lift (Throw e)) f).
Proof. intros H s. exists []. simpl. by rewrite app_nil_r. Qed.

Lemma count_app (e : event) (l1 l2 : list event) :
  count e (l1 ++ l2) = count e l1 + count e l2.
Proof. apply count_occ_app. Qed.

Lemma count_single_ne (e q : event) : q ≠ e → count e [q] = 0.
Proof. intros H. cbn [count_occ]. by destruct (event_eq_dec q e). Qed.

Lemma count_single_eq (e : event) : count e [e] = 1.
Proof. cbn [count_occ]. by destruct (event_eq_dec e e). Qed.

Lemma count_quiet (e q : event) : ¬ quiet e → quiet q → count e [q] = 0.
Proof. intros He Hq. apply count_single_ne. by intros ->. Qed.

Lemma count_zero_not_in (e : event) (l : list event) : count e l = 0 ↔ e ∉ l.
Proof. rewrite list_elem_of_In. symmetry. apply count_occ_not_In. Qed.

(** Nothing of [e] is appended: a closed property when [e] is not quiet. *)
Lemma closed_none (e : event) : ¬ quiet e → closed (λ l, count e l = 0).
Proof.
  intros He. split.
  - done.
  - intros q Hq. by apply count_quiet.
  - intros l1 l2 H1 H2. rewrite count_app. lia.
Qed.

Lemma closed_le (e1 e2 : event) : ¬ quiet e1 → closed (λ l, count e1 l ≤ count e2 l).
Proof.
  intros He. split.
  - done.
  - intros q Hq. rewrite (count_quiet e1 q) by done. lia.
  - intros l1 l2 H1 H2. rewrite !count_app. lia.
Qed.

Lemma closed_reaches (identities : list string) :
  closed (reaches_handler_through identities).
Proof.
  split.
  - intros H. by apply elem_of_nil in H.
  - intros q Hq H. apply list_elem_of_singleton in H. by subst q.
  - intros l1 l2 H1 H2 H identity Hi. rewrite elem_of_app in *.
    destruct H; [left; by apply H1 | right; by apply H2].
Qed.

Section Chain.
Context (production : bool) (graph : DepGraph) (handler : RouteHandler).

Lemma adds_handler_body (P : list event → Prop) :
  closed P →
  adds P (exec production (λ n : Empty_set, match n with end) handler).
Proof. intros HP. apply adds_exec; [done | intros []]. Qed.

(** The handler is called once by the last branch of [next]. *)
Lemma run_handler_adds (P : list event → Prop) :
  closed P → P [Handler] → adds P (run_handler production handler).
Proof.
  intros HP Hh. unfold run_handler.
  apply adds_bind; [apply HP | by apply adds_strate_debug |]. intros _.
  apply adds_bind; [apply HP | by apply adds_set_handlerHasBeenExecuted |]. intros _.
  apply adds_bind; [apply HP | by apply adds_emit |]. intros _.
  by apply adds_handler_body.
Qed.

(** What [next] appends satisfies a closed property that holds of the calls
    it makes itself, as soon as its continuations satisfy it. *)
Lemma next_from_step (P : list event → Prop) (identity : string) (rest : list string) :
  closed P → P [Handler] → P [Handle identity] →
  adds P (emit (Continue identity) ;; next_from production graph handler rest) →
  adds P (next_from production graph handler (identity :: rest)).
Proof.
  intros HP Hh Hi Hk. simpl. destruct (truthy identity); [|by apply run_handler_adds].
  apply adds_bind; [apply HP | apply adds_lift, HP |]. intros m.
  apply adds_bind; [apply HP | apply adds_lift, HP |]. intros n.
  apply adds_bind; [apply HP | by apply adds_strate_debug |]. intros _.
  apply adds_bind; [apply HP | by apply adds_emit |]. intros _.
  apply adds_exec; [done|]. intros _. exact Hk.
Qed.

(** The [handle] calls that [next] makes are of identities of the order. *)
Lemma next_from_handles (x : string) (rest : list string) :
  x ∉ rest → adds (λ l, count (Handle x) l = 0) (next_from production graph handler rest).
Proof.
  induction rest as [|identity rest IH]; intros Hx.
  - apply run_handler_adds; [apply closed_none; cbn; tauto | done].
  - apply not_elem_of_cons in Hx as [Hne Hx].
    apply next_from_step; [apply closed_none; cbn; tauto | done | | ].
    + apply count_single_ne. by intros [= ->].
    + apply adds_bind; [apply closed_none; cbn; tauto | by apply adds_emit |].
      intros _. by apply IH.
Qed.

(** The handler runs only through the continuations of all the middleware
    of the order. *)
Lemma next_from_reaches (rest : list string) :
  Forall (λ identity, truthy identity = true) rest →
  adds (reaches_handler_through rest) (next_from production graph handler rest).
Proof.
  induction rest as [|identity rest IH]; intros Ht.
  - apply run_handler_adds; [apply closed_reaches |].
    intros _ identity Hi. by apply elem_of_nil in Hi.
  - apply Forall_cons in Ht as [Hid Ht]. simpl. rewrite Hid.
    apply adds_bind; [apply closed_reaches | apply adds_lift, closed_reaches |]. intros m.
    apply adds_bind; [apply closed_reaches | apply adds_lift, closed_reaches |]. intros n.
    apply adds_bind; [apply closed_reaches | apply adds_strate_debug, closed_reaches |].
    intros _.
    apply adds_bind; [apply closed_reaches | |].
    { apply adds_emit. intros H. apply list_elem_of_singleton in H. done. }
    intros _. apply adds_exec; [apply closed_reaches|]. intros _.
    intros s. unfold bind, emit. simpl.
    destruct (IH Ht (append_trace [Continue identity] s)) as (l & E & Hl).
    exists (Continue identity :: l). split.
    + rewrite E. simpl. by rewrite <- app_assoc.
    + intros Hh x Hx. apply elem_of_cons in Hh as [Hh|Hh]; [done|].
      apply elem_of_cons in Hx as [->|Hx]; [left|right; by apply Hl].
Qed.

(** A body that invokes its continuation at most [k] times has the handler
    called at most [k] times as often as one invocation does. *)
Lemma exec_bounded {N} (next : N → M unit) (c k : nat) (p : prog N) :
  (∀ n, adds (λ l, count Handler l ≤ c) (next n)) →
  invokes_at_most k p →
  adds (λ l, count Handler l ≤ k * c) (exec production next p).
Proof.
  intros Hnext Hp.
  assert (closed (λ l, count Handler l = 0)) as H0 by (apply closed_none; cbn; tauto).
  induction Hp as [k|k label p Hp IH|k property ok v p Hp IH|k property p Hp IH|
    k callee code message statusCode p Hp IH|k message p Hp IH|k p Hp IH|k n p Hp IH|k e];
    simpl.
  - apply adds_ret. simpl. lia.
  - eapply adds_bind2; [| |apply adds_emit; exact (closed_quiet _ H0 (Mark label) I)|
                        intros _; exact IH]; simpl; intros; rewrite ?count_app; lia.
  - eapply adds_bind2; [| |apply (adds_proxy_set _ H0)|intros _; exact IH];
      simpl; intros; rewrite ?count_app; lia.
  - eapply adds_bind2; [| |apply (adds_proxy_get _ H0)|intros a; exact (IH a)];
      simpl; intros; rewrite ?count_app; lia.
  - eapply adds_bind2; [| |apply (adds_call_value _ H0)|intros _; exact IH];
      simpl; intros; rewrite ?count_app; lia.
  - eapply adds_bind2; [| |apply (adds_strate_warn _ H0)|intros _; exact IH];
      simpl; intros; rewrite ?count_app; lia.
  - apply IH.
  - eapply adds_bind2; [| |apply adds_attempt, Hnext|intros r; exact (IH r)];
      simpl; intros; rewrite ?count_app; lia.
  - apply adds_throw. simpl. lia.
Qed.

Lemma run_handler_once : adds (λ l, count Handler l ≤ 1) (run_handler production handler).
Proof.
  assert (closed (λ l, count Handler l = 0)) as H0 by (apply closed_none; cbn; tauto).
  unfold run_handler.
  eapply adds_bind2; [| |apply (adds_strate_debug _ H0)|intros _];
    [simpl; intros l1 l2 H1 H2; rewrite count_app, H1; exact H2
    |simpl; intros; lia|].
  eapply adds_bind2; [| |apply (adds_set_handlerHasBeenExecuted _ H0)|intros _];
    [simpl; intros l1 l2 H1 H2; rewrite count_app, H1; exact H2
    |simpl; intros; lia|].
  eapply adds_bind2 with (P := λ l, count Handler l ≤ 1) (Q := λ l, count Handler l = 0);
    [| |by apply adds_emit|intros _; by apply adds_handler_body].
  - simpl. intros l1 l2 H1 H2. rewrite count_app. lia.
  - done.
Qed.

Lemma next_from_once (rest : list string) :
  (∀ identity m, getNodeData graph identity = Ok m → invokes_at_most 1 (handle m)) →
  adds (λ l, count Handler l ≤ 1) (next_from production graph handler rest).
Proof.
  intros Hall.
  assert (closed (λ l, count Handler l = 0)) as H0 by (apply closed_none; cbn; tauto).
  induction rest as [|identity rest IH]; simpl; [apply run_handler_once|].
  destruct (truthy identity); [|apply run_handler_once].
  destruct (getNodeData graph identity) as [m|e] eqn:Em;
    [apply adds_bind_lift_ok | apply adds_bind_lift_throw; simpl; lia].
  destruct (getMiddlewareName (ArgInstance m)) as [n|e];
    [apply adds_bind_lift_ok | apply adds_bind_lift_throw; simpl; lia].
  eapply adds_bind2 with (P := λ l, count Handler l = 0);
    [| |apply (adds_strate_debug _ H0)|intros _].
  { simpl. intros l1 l2 H1 H2. rewrite count_app, H1. exact H2. }
  { simpl. intros. lia. }
  eapply adds_bind2 with (P := λ l, count Handler l = 0); [| |by apply adds_emit|intros _].
  { simpl. intros l1 l2 H1 H2. rewrite count_app, H1. exact H2. }
  { simpl. intros. lia. }
  eapply adds_weaken; [|apply (exec_bounded _ 1 1)].
  - simpl. intros. lia.
  - intros _. eapply adds_bind2 with (P := λ l, count Handler l = 0);
      [| |by apply adds_emit|intros _; exact IH].
    + simpl. intros l1 l2 H1 H2. rewrite count_app, H1. exact H2.
    + simpl. intros. lia.
  - by apply (Hall identity).
Qed.

Lemma next_from_truthy_step (P : list event → Prop) (identity : string)
    (rest : list string) :
  closed P → truthy identity = true → P [Handle identity] →
  adds P (emit (Continue identity) ;; next_from production graph handler rest) →
  adds P (next_from production graph handler (identity :: rest)).
Proof.
  intros HP Ht Hi Hk. simpl. rewrite Ht.
  apply adds_bind; [apply HP | apply adds_lift, HP |]. intros m.
  apply adds_bind; [apply HP | apply adds_lift, HP |]. intros n.
  apply adds_bind; [apply HP | by apply adds_strate_debug |]. intros _.
  apply adds_bind; [apply HP | by apply adds_emit |]. intros _.
  apply adds_exec; [done|]. intros _. exact Hk.
Qed.

(** [next] makes its first call at most once. *)
Lemma next_from_first_once (rest : list string) :
  NoDup rest →
  adds (λ l, count (first_call rest) l ≤ 1) (next_from production graph handler rest).
Proof.
  destruct rest as [|b rest]; intros Hnd; [apply run_handler_once|].
  apply NoDup_cons in Hnd as [Hb Hnd].
  assert (closed (λ l, count (Handle b) l = 0)) as H0 by (apply closed_none; cbn; tauto).
  simpl. destruct (truthy b).
  2:{ eapply adds_weaken; [|apply (run_handler_adds _ H0)]; [simpl; intros; lia|].
      by apply count_single_ne. }
  destruct (getNodeData graph b) as [m|e] eqn:Em;
    [apply adds_bind_lift_ok | apply adds_bind_lift_throw; simpl; lia].
  destruct (getMiddlewareName (ArgInstance m)) as [n|e];
    [apply adds_bind_lift_ok | apply adds_bind_lift_throw; simpl; lia].
  eapply adds_bind2 with (P := λ l, count (Handle b) l = 0);
    [| |apply (adds_strate_debug _ H0)|intros _].
  { simpl. intros l1 l2 H1 H2. rewrite count_app, H1. exact H2. }
  { simpl. intros. lia. }
  eapply adds_bind2 with (P := λ l, count (Handle b) l ≤ 1)
                         (Q := λ l, count (Handle b) l = 0);
    [| |apply adds_emit; by rewrite count_single_eq|intros _].
  { simpl. intros l1 l2 H1 H2. rewrite count_app. lia. }
  { done. }
  apply adds_exec; [done|]. intros _.
  apply adds_bind; [apply H0 | apply adds_emit; by apply count_single_ne |].
  intros _. by apply next_from_handles.
Qed.

(** The continuation of a middleware makes the first call of the rest of
    the chain at most as often as it is invoked. *)
Lemma next_from_resumes (before : list string) (a : string) (rest : list string) :
  NoDup (before ++ a :: rest) →
  Forall (λ identity, truthy identity = true) (before ++ a :: rest) →
  adds (λ l, count (first_call rest) l ≤ count (Continue a) l)
       (next_from production graph handler (before ++ a :: rest)).
Proof.
  assert (¬ quiet (first_call rest)) as Hq by (destruct rest; cbn; tauto).
  pose proof (closed_le (first_call rest) (Continue a) Hq) as HP.
  induction before as [|x before IH]; intros Hnd Ht.
  - simpl in *. apply NoDup_cons in Hnd as [Ha Hnd]. apply Forall_cons in Ht as [Hta Ht].
    apply next_from_truthy_step; [done | done | |].
    + rewrite count_single_ne; [lia|]. destruct rest as [|b rest]; [done|].
      intros [= ->]. apply Ha. left.
    + eapply adds_bind2 with (P := λ l, l = [Continue a])
                             (Q := λ l, count (first_call rest) l ≤ 1);
        [| |by apply adds_emit|intros _; by apply next_from_first_once].
      * simpl. intros l1 l2 -> H2. rewrite !count_app, count_single_eq.
        rewrite count_single_ne; [lia|]. by destruct rest.
      * simpl. intros l1 ->. rewrite count_single_eq.
        rewrite count_single_ne; [lia|]. by destruct rest.
  - simpl in *. apply NoDup_cons in Hnd as [Hx Hnd]. apply Forall_cons in Ht as [Htx Ht].
    apply next_from_truthy_step; [done | done | |].
    + rewrite count_single_ne; [lia|]. destruct rest as [|b rest]; [done|].
      intros [= ->]. apply Hx. apply elem_of_app. right. right. left.
    + apply adds_bind; [apply HP | | intros _; by apply IH].
      apply adds_emit. rewrite count_single_ne; [lia|]. by destruct rest.
Qed.
End Chain.

(** What [next] appends to the trace, whatever the middleware do: the
    handler is called only if the continuation of every middleware of the
    order was invoked; at most once when no middleware invokes its
    continuation more than once; and the continuation of a middleware makes
    the first call of what follows it in the order at most once each time it
    is invoked. *)
Lemma next_handler_and_continuations (production : bool) (graph : DepGraph)
    (handler : RouteHandler) (order : list string) (s : State) :
  NoDup order →
  Forall (λ identity, truthy identity = true) order →
  ∃ added,
    trace (next production graph handler order 0 s).2 = trace s ++ added ∧
    (Handler ∈ added → ∀ identity, identity ∈ order → Continue identity ∈ added) ∧
    ((∀ identity m, getNodeData graph identity = Ok m → invokes_at_most 1 (handle m)) →
     count Handler added ≤ 1) ∧
    (∀ before a rest, order = before ++ a :: rest →
       count (first_call rest) added ≤ count (Continue a) added).
Proof.
  intros Hnd Ht. unfold next. rewrite drop_0.
  destruct (next_from_reaches production graph handler order Ht s) as (added & E & H1).
  exists added. split; [done|]. split; [done|]. split.
  - intros Hall.
    destruct (next_from_once production graph handler order Hall s) as (added' & E' & H2).
    rewrite E in E'. by apply app_inv_head in E' as <-.
  - intros before a rest ->.
    destruct (next_from_resumes production graph handler before a rest Hnd Ht s)
      as (added' & E' & H3).
    rewrite E in E'. by apply app_inv_head in E' as <-.
Qed.

(** *** The engine never reads the trace *)

Lemma rebase_rebase (t t' : list event) (s : State) : rebase t (rebase t' s) = rebase t s.
Proof. done. Qed.

Lemma rebase_trace (s : State) : rebase (trace s) s = s.
Proof. by destruct s. Qed.

Lemma oblivious_ret {A} (a : A) : oblivious (ret a).
Proof. intros s t. unfold ret, rebase. simpl. by rewrite app_nil_r. Qed.

Lemma oblivious_throw {A} (e : exn) : oblivious (throw (A:=A) e).
Proof. intros s t. unfold throw, rebase. simpl. by rewrite app_nil_r. Qed.

Lemma oblivious_lift {A} (r : result A) : oblivious (lift r).
Proof. intros s t. unfold lift, rebase. simpl. by rewrite app_nil_r. Qed.

Lemma oblivious_emit (e : event) : oblivious (emit e).
Proof. intros s t. done. Qed.

Lemma oblivious_get_target : oblivious get_target.
Proof. intros s t. unfold get_target, rebase. simpl. by rewrite app_nil_r. Qed.

Lemma oblivious_set_target (m : gmap string value) : oblivious (set_target m).
Proof. intros s t. unfold set_target, rebase. simpl. by rewrite app_nil_r. Qed.

Lemma oblivious_get_flag : oblivious get_handlerHasBeenExecuted.
Proof. intros s t. unfold get_handlerHasBeenExecuted, rebase. simpl. by rewrite app_nil_r. Qed.

Lemma oblivious_set_flag (b : bool) : oblivious (set_handlerHasBeenExecuted b).
Proof. intros s t. unfold set_handlerHasBeenExecuted, rebase. simpl. by rewrite app_nil_r. Qed.

Lemma oblivious_bind {A B} (c : M A) (f : A → M B) :
  oblivious c → (∀ a, oblivious (f a)) → oblivious (bind c f).
Proof.
  intros Hc Hf s t. unfold bind. rewrite (Hc s t).
  destruct (c (rebase [] s)) as [[a|e] s1] eqn:E; simpl; [|done].
  rewrite (Hf a s1 (t ++ trace s1)).
  pose proof (Hf a s1 (trace s1)) as H1. rewrite rebase_trace in H1.
  rewrite H1. simpl. by rewrite app_assoc.
Qed.

Lemma oblivious_attempt {A} (c : M A) : oblivious c → oblivious (attempt c).
Proof.
  intros Hc s t. unfold attempt. rewrite (Hc s t).
  by destruct (c (rebase [] s)) as [r s1].
Qed.

Lemma oblivious_if {A} (b : bool) (c1 c2 : M A) :
  oblivious c1 → oblivious c2 → oblivious (if b then c1 else c2).
Proof. by destruct b. Qed.

Lemma oblivious_proxy_set (property : string) `{!NotReserved property} (v : value) :
  oblivious (proxy_set property v).
Proof.
  unfold proxy_set. apply oblivious_bind; [apply oblivious_get_target|]. intros m.
  apply oblivious_bind.
  - apply oblivious_if; [apply oblivious_emit | apply oblivious_ret].
  - intros _. apply oblivious_bind; [apply oblivious_set_target|].
    intros _. apply oblivious_ret.
Qed.

Lemma oblivious_proxy_get (property : string) : oblivious (proxy_get property).
Proof.
  unfold proxy_get. apply oblivious_bind; [apply oblivious_get_target|]. intros m.
  apply oblivious_bind.
  - apply oblivious_if; [apply oblivious_ret | apply oblivious_emit].
  - intros _. apply oblivious_ret.
Qed.

Lemma oblivious_strate_record : oblivious strate_record.
Proof.
  unfold strate_record. apply oblivious_bind; [apply oblivious_proxy_get|].
  intros [[]| | |]; try apply oblivious_throw.
  intros s t. unfold rebase. simpl. by rewrite app_nil_r.
Qed.

Lemma oblivious_strate_debug (message : string) : oblivious (strate_debug message).
Proof.
  unfold strate_debug. apply oblivious_bind; [apply oblivious_strate_record|].
  intros _. apply oblivious_emit.
Qed.

Lemma oblivious_strate_warn (message : string) : oblivious (strate_warn message).
Proof.
  unfold strate_warn. apply oblivious_bind; [apply oblivious_strate_record|].
  intros _. apply oblivious_emit.
Qed.

Lemma oblivious_addMiddlewareToGraph (instances : list Middleware) (graph : DepGraph) :
  oblivious (addMiddlewareToGraph graph instances).
Proof.
  revert graph. induction instances as [|instance rest IH]; intros graph.
  - apply oblivious_ret.
  - cbn [addMiddlewareToGraph]. apply oblivious_bind; [apply oblivious_lift|]. intros n.
    apply oblivious_if; [|apply IH].
    apply oblivious_bind; [apply oblivious_strate_record|]. intros configuration.
    apply oblivious_bind; [apply oblivious_strate_warn|]. intros _.
    apply oblivious_bind; [apply oblivious_lift|]. intros graph'. apply IH.
Qed.

Lemma oblivious_addDependencies (deps : list Reference) (graph : DepGraph) (n : string) :
  oblivious (addDependencies graph n deps).
Proof.
  revert graph. induction deps as [|dependency rest IH]; intros graph.
  - apply oblivious_ret.
  - cbn [addDependencies]. apply oblivious_bind; [apply oblivious_lift|]. intros y.
    destruct (addDependency graph n y); [apply IH|].
    apply oblivious_bind; [apply oblivious_strate_record|]. intros configuration.
    apply oblivious_if; apply oblivious_throw.
Qed.

Lemma oblivious_setDependencies (instances : list Middleware) (graph : DepGraph) :
  oblivious (setDependencies graph instances).
Proof.
  revert graph. induction instances as [|instance rest IH]; intros graph.
  - apply oblivious_ret.
  - cbn [setDependencies]. apply oblivious_bind; [apply oblivious_lift|]. intros n.
    apply oblivious_bind; [apply oblivious_addDependencies|]. intros graph'. apply IH.
Qed.

Lemma oblivious_resolveMiddleware : oblivious resolveMiddleware.
Proof.
  unfold resolveMiddleware.
  apply oblivious_bind; [apply oblivious_strate_record|]. intros configuration.
  apply oblivious_bind; [apply oblivious_addMiddlewareToGraph|]. intros graph.
  apply oblivious_bind; [apply oblivious_strate_record|]. intros configuration'.
  destruct (middleware configuration'); [|apply oblivious_throw].
  apply oblivious_bind; [apply oblivious_setDependencies|]. intros graph'.
  apply oblivious_bind; [apply oblivious_lift|]. intros order. apply oblivious_ret.
Qed.

Lemma oblivious_call_value (callee : value) (code message : option string)
    (statusCode : option Z) :
  oblivious (call_value callee code message statusCode).
Proof.
  destruct callee as [| | |member]; simpl; try apply oblivious_throw.
  - apply oblivious_bind; [apply oblivious_emit|]. intros _. apply oblivious_throw.
  - destruct (returns_without_receiver member); [apply oblivious_ret | apply oblivious_throw].
Qed.

Lemma oblivious_exec {N} (production : bool) (next : N → M unit) (p : prog N) :
  (∀ n, oblivious (next n)) → oblivious (exec production next p).
Proof.
  intros Hnext. induction p as [|label k IH|property ok v k IH|property k IH|
    callee code message statusCode k IH|message k IH|k IH|n k IH|e]; simpl.
  - apply oblivious_ret.
  - apply oblivious_bind; [apply oblivious_emit | auto].
  - apply oblivious_bind; [apply oblivious_proxy_set | auto].
  - apply oblivious_bind; [apply oblivious_proxy_get | auto].
  - apply oblivious_bind; [apply oblivious_call_value | auto].
  - apply oblivious_bind; [apply oblivious_strate_warn | auto].
  - apply IH.
  - apply oblivious_bind; [apply oblivious_attempt, Hnext | auto].
  - apply oblivious_throw.
Qed.

Lemma oblivious_run_handler (production : bool) (handler : RouteHandler) :
  oblivious (run_handler production handler).
Proof.
  unfold run_handler.
  apply oblivious_bind; [apply oblivious_strate_debug|]. intros _.
  apply oblivious_bind; [apply oblivious_set_flag|]. intros _.
  apply oblivious_bind; [apply oblivious_emit|]. intros _.
  apply oblivious_exec. intros [].
Qed.

Lemma oblivious_next_from (production : bool) (graph : DepGraph) (handler : RouteHandler)
    (rest : list string) :
  oblivious (next_from production graph handler rest).
Proof.
  induction rest as [|identity rest IH]; [apply oblivious_run_handler|].
  cbn [next_from]. apply oblivious_if; [|apply oblivious_run_handler].
  apply oblivious_bind; [apply oblivious_lift|]. intros m.
  apply oblivious_bind; [apply oblivious_lift|]. intros n.
  apply oblivious_bind; [apply oblivious_strate_debug|]. intros _.
  apply oblivious_bind; [apply oblivious_emit|]. intros _.
  apply oblivious_exec. intros _.
  apply oblivious_bind; [apply oblivious_emit|]. intros _. apply IH.
Qed.

(** The whole of executeRoute: what a route does never depends on what was
    logged before. *)
Lemma oblivious_executeRoute (production : bool) (handler : RouteHandler) :
  oblivious (executeRoute production handler).
Proof.
  unfold executeRoute.
  apply oblivious_bind; [apply oblivious_strate_debug|]. intros _.
  apply oblivious_bind; [apply oblivious_resolveMiddleware|]. intros resolved.
  apply oblivious_bind; [apply oblivious_strate_debug|]. intros _.
  apply oblivious_bind.
  { apply oblivious_bind; [apply oblivious_strate_record|]. intros configuration.
    apply oblivious_if; [apply oblivious_strate_debug | apply oblivious_ret]. }
  intros _. apply oblivious_bind; [apply oblivious_set_flag|]. intros _.
  apply oblivious_bind; [apply oblivious_next_from|]. intros _.
  apply oblivious_bind; [apply oblivious_get_flag|]. intros executed.
  apply oblivious_if; [apply oblivious_strate_debug | apply oblivious_strate_warn].
Qed.

(** What a computation that never reads the trace does after more events
    is what it does without them. *)
Lemma oblivious_append {A} (c : M A) (s s1 : State) (r : result A) (w0 : list event) :
  oblivious c → c s = (r, s1) →
  ∃ added, trace s1 = trace s ++ added ∧
           c (append_trace w0 s) = (r, rebase (trace s ++ w0 ++ added) s1).
Proof.
  intros Hc E. pose proof (Hc s (trace s)) as H1. rewrite rebase_trace, E in H1.
  injection H1 as Hr Hs1. exists (trace (c (rebase [] s)).2). split.
  - rewrite Hs1 at 1. done.
  - pose proof (Hc s (trace s ++ w0)) as H2.
    change (rebase (trace s ++ w0) s) with (append_trace w0 s) in H2.
    rewrite H2, <- Hr. f_equal. rewrite <- app_assoc.
    generalize (trace s ++ w0 ++ trace (c (rebase [] s)).2). intros l.
    rewrite Hs1. by rewrite rebase_rebase.
Qed.

(** ** The depth-first traversal *)

Lemma topological_nil (edges : gmap string (list string)) : topological edges [].
Proof. split; [constructor | intros i a b H; by rewrite lookup_nil in H]. Qed.

Lemma topological_snoc (edges : gmap string (list string)) (l : list string) (a : string) :
  topological edges l → a ∉ l → (∀ b, b ∈ edges_of edges a → b ∈ l) →
  topological edges (l ++ [a]).
Proof.
  intros [Hnd Hl] Ha Hdeps. split.
  - apply NoDup_app. split; [done|]. split; [|apply NoDup_singleton].
    intros x Hx Hx'. apply list_elem_of_singleton in Hx' as ->. done.
  - intros i x b Hi Hb. destruct (decide (i < length l)) as [Hlt|Hge].
    + rewrite lookup_app_l in Hi by done.
      destruct (Hl i x b Hi Hb) as (j & Hj & Hjb). exists j. split; [done|].
      rewrite lookup_app_l; [done|lia].
    + rewrite lookup_app_r in Hi by lia.
      apply list_lookup_singleton_Some in Hi as [Hi ->].
      apply Hdeps in Hb. apply list_elem_of_lookup in Hb as [j Hj].
      exists j. pose proof (lookup_lt_Some _ _ _ Hj). split; [lia|].
      by rewrite lookup_app_l.
Qed.

(** Every dependency of a listed node is listed. *)
Lemma topological_closed (edges : gmap string (list string)) (l : list string)
    (a b : string) :
  topological edges l → a ∈ l → b ∈ edges_of edges a → b ∈ l.
Proof.
  intros [_ Hl] Ha Hb. apply list_elem_of_lookup in Ha as [i Hi].
  destruct (Hl i a b Hi Hb) as (j & _ & Hj). apply list_elem_of_lookup. eauto.
Qed.

(** Along a chain of edges the index goes down. *)
Lemma topological_tc (edges : gmap string (list string)) (l : list string)
    (a b : string) (i : nat) :
  topological edges l → tc (edge edges) a b → l !! i = Some a →
  ∃ j, j < i ∧ l !! j = Some b.
Proof.
  intros [Hnd Hl] Htc. revert i. induction Htc as [a b Hab|a c b Hac Hcb IH]; intros i Hi.
  - by apply (Hl i a b).
  - destruct (Hl i a c Hi Hac) as (k & Hk & Hkc).
    destruct (IH k Hkc) as (j & Hj & Hjb). exists j. split; [lia|done].
Qed.

(** A list that respects the edges has no node of a cycle. *)
Lemma topological_acyclic (edges : gmap string (list string)) (l : list string) (x : string) :
  topological edges l → tc (edge edges) x x → x ∉ l.
Proof.
  intros Ht Htc Hx. apply list_elem_of_lookup in Hx as [i Hi].
  destruct (topological_tc _ _ _ _ _ Ht Htc Hi) as (j & Hj & Hjx).
  destruct Ht as [Hnd _]. pose proof (NoDup_lookup _ _ _ _ Hnd Hi Hjx). lia.
Qed.

Section Traversal.
Context (edges : gmap string (list string)) (all : list string).
Hypothesis targets_listed : ∀ a b, b ∈ edges_of edges a → b ∈ all.

Abbreviation grows := (grows all).
Abbreviation follows := (follows edges).

Lemma grows_refl (path visited : list string) : grows path visited visited.
Proof. exists []. rewrite app_nil_r. split; [done|]. intros x H. by apply elem_of_nil in H. Qed.

Lemma grows_trans (path v1 v2 v3 : list string) :
  grows path v1 v2 → grows path v2 v3 → grows path v1 v3.
Proof.
  intros (a1 & -> & H1) (a2 & -> & H2). exists (a1 ++ a2). rewrite app_assoc.
  split; [done|]. intros x Hx. apply elem_of_app in Hx as [?|?]; auto.
Qed.

Lemma grows_elem (path v v' : list string) (x : string) : grows path v v' → x ∈ v → x ∈ v'.
Proof. intros (a & -> & _) H. apply elem_of_app. by left. Qed.

Lemma visit_each_ok (visit : string → list string → result (list string))
    (path starts visited visited' : list string) :
  (∀ n v v', n ∈ starts → topological edges v → visit n v = Ok v' →
             topological edges v' ∧ n ∈ v' ∧ grows path v v') →
  topological edges visited →
  visit_each visit starts visited = Ok visited' →
  topological edges visited' ∧ (∀ n, n ∈ starts → n ∈ visited') ∧
  grows path visited visited'.
Proof.
  intros Hvisit. revert visited.
  induction starts as [|n starts IH]; intros visited Ht Hv; simpl in Hv.
  - simplify_eq. split; [done|]. split; [|apply grows_refl].
    intros n Hn. by apply elem_of_nil in Hn.
  - destruct (visit n visited) as [v1|e] eqn:E1; [|done].
    destruct (Hvisit n visited v1 ltac:(left) Ht E1) as (Ht1 & Hn1 & Hg1).
    destruct (IH ltac:(intros; eapply Hvisit; eauto; by right) v1 Ht1 Hv)
      as (Ht' & Hall & Hg').
    split; [done|]. split; [|by eapply grows_trans].
    intros x Hx. apply elem_of_cons in Hx as [->|Hx]; [|by apply Hall].
    by eapply grows_elem.
Qed.

(** A traversal that returns leaves a list that respects the edges and
    holds the node it started from. *)
Lemma DFS_ok (fuel : nat) (path : list string) (node : string)
    (visited visited' : list string) :
  node ∈ all → topological edges visited →
  DFS edges fuel path node visited = Ok visited' →
  topological edges visited' ∧ node ∈ visited' ∧ grows path visited visited'.
Proof.
  revert path node visited visited'.
  induction fuel as [|fuel IH]; intros path node visited visited' Hall Ht H; [done|].
  simpl in H. case_bool_decide as Hv.
  { simplify_eq. split; [done|]. split; [done|apply grows_refl]. }
  case_bool_decide as Hp; [done|].
  destruct (visit_each _ _ _) as [v1|e] eqn:E1; [|done]. simplify_eq.
  apply (visit_each_ok _ (node :: path)) in E1 as (Ht1 & Hdeps & (added & -> & Hadded));
    [|intros n v v' Hn Hv' Hd; apply (IH _ _ _ _ (targets_listed _ _ Hn) Hv' Hd)|done].
  assert (node ∉ visited ++ added) as Hnot.
  { intros Hin. apply elem_of_app in Hin as [?|Hin]; [done|].
    apply Hadded in Hin as [Hin _]. apply Hin. left. }
  split; [by apply topological_snoc|].
  split; [apply elem_of_app; right; left|].
  exists (added ++ [node]). rewrite app_assoc. split; [done|].
  intros x Hx. apply elem_of_app in Hx as [Hx|Hx].
  - apply Hadded in Hx as [Hx ?]. split; [|done]. intros ?. apply Hx. by right.
  - apply list_elem_of_singleton in Hx as ->. done.
Qed.

(** The depth that [overallOrder] allows is never reached: a path never
    holds a node twice, so it is no longer than the list of nodes. *)
Lemma DFS_throws_cycle (fuel : nat) (path : list string) (node : string)
    (visited : list string) (e : exn) :
  NoDup path → path ⊆ all → node ∈ all → length all < fuel + length path →
  DFS edges fuel path node visited = Throw e →
  ∃ cyclePath, e = DepGraphCycleError cyclePath.
Proof.
  revert path node visited e.
  induction fuel as [|fuel IH]; intros path node visited e Hnd Hsub Hnode Hlen H.
  - exfalso. assert (length path ≤ length all); [|simpl in Hlen; lia].
    apply submseteq_length. by apply NoDup_submseteq.
  - simpl in H. case_bool_decide as Hv; [done|].
    case_bool_decide as Hp; [by simplify_eq; eauto|].
    destruct (visit_each _ _ _) as [v1|e'] eqn:E1; [done|]. simplify_eq.
    assert (∀ c, c ∈ edges_of edges node → ∀ v e0,
              DFS edges fuel (node :: path) c v = Throw e0 →
              ∃ cyclePath, e0 = DepGraphCycleError cyclePath) as Hchild.
    { intros c Hc v e0. apply IH.
      - by apply NoDup_cons.
      - intros x Hx. apply elem_of_cons in Hx as [->|Hx]; auto.
      - by eapply targets_listed.
      - simpl. lia. }
    clear IH Hv. revert visited E1 Hchild. generalize (edges_of edges node).
    intros children. induction children as [|c children IHc]; intros visited E1 Hchild;
      simpl in E1; [done|].
    destruct (DFS edges fuel (node :: path) c visited) as [v2|e2] eqn:E2.
    + apply (IHc v2 E1). intros c' Hc'. apply Hchild. by right.
    + simplify_eq. apply (Hchild c ltac:(left) _ _ E2).
Qed.

Lemma follows_reaches (path : list string) (node x : string) :
  follows path node → x ∈ path → tc (edge edges) x node.
Proof.
  revert node. induction path as [|parent path IH]; intros node Hf Hx.
  - by apply elem_of_nil in Hx.
  - destruct Hf as [Hedge Hf]. apply elem_of_cons in Hx as [->|Hx].
    + by apply tc_once.
    + eapply tc_r; [by apply IH|done].
Qed.

(** The cycle error is raised only when there is a cycle. *)
Lemma DFS_cycle_sound (fuel : nat) (path : list string) (node : string)
    (visited : list string) (cyclePath : list string) :
  follows path node →
  DFS edges fuel path node visited = Throw (DepGraphCycleError cyclePath) →
  cyclic edges.
Proof.
  revert path node visited.
  induction fuel as [|fuel IH]; intros path node visited Hf H; [done|].
  simpl in H. case_bool_decide as Hv; [done|]. case_bool_decide as Hp.
  { exists node. by eapply follows_reaches. }
  destruct (visit_each _ _ _) as [v1|e'] eqn:E1; [done|]. simplify_eq.
  assert (∀ c, c ∈ edges_of edges node → ∀ v,
            DFS edges fuel (node :: path) c v = Throw (DepGraphCycleError cyclePath) →
            cyclic edges) as Hchild.
  { intros c Hc v. apply IH. split; done. }
  clear IH Hv. revert visited E1 Hchild. generalize (edges_of edges node).
  intros children. induction children as [|c children IHc]; intros visited E1 Hchild;
    simpl in E1; [done|].
  destruct (DFS edges fuel (node :: path) c visited) as [v2|e2] eqn:E2.
  - apply (IHc v2 E1). intros c' Hc'. apply Hchild. by right.
  - simplify_eq. apply (Hchild c ltac:(left) _ E2).
Qed.
End Traversal.

(** ** The overall order *)

Lemma tc_first {A} (R : relation A) (x y : A) : tc R x y → ∃ z, R x z.
Proof. intros H. inversion H; eauto. Qed.

Section OverallOrder.
Context (graph : DepGraph) (Hwf : well_formed graph).

Lemma edge_source_is_node (a b : string) :
  b ∈ edges_of (outgoingEdges graph) a → a ∈ keys graph.
Proof.
  intros H. apply (wf_outgoing _ Hwf). unfold edges_of in H.
  destruct (outgoingEdges graph !! a); [eauto | by apply elem_of_nil in H].
Qed.

Lemma first_pass_ok (starts visited : list string) :
  starts ⊆ keys graph →
  visit_each (DFS (outgoingEdges graph) (S (length (keys graph))) []) starts []
  = Ok visited →
  topological (outgoingEdges graph) visited ∧
  (∀ n, n ∈ starts → n ∈ visited) ∧ (∀ n, n ∈ visited → n ∈ keys graph).
Proof.
  intros Hsub H.
  apply (visit_each_ok (outgoingEdges graph) (keys graph) _ []) in H
    as (Ht & Hall & (added & E & Hadded)).
  - split; [done|]. split; [done|]. simpl in E. subst added. intros n Hn.
    by apply Hadded.
  - intros n v v' Hn Hv Hd.
    apply (DFS_ok _ (keys graph) (wf_closed _ Hwf)) in Hd; [done| |done]. by apply Hsub.
  - apply topological_nil.
Qed.

Lemma pass_throws_cycle (starts visited : list string) (e : exn) :
  starts ⊆ keys graph →
  visit_each (DFS (outgoingEdges graph) (S (length (keys graph))) []) starts visited
  = Throw e →
  (∃ cyclePath, e = DepGraphCycleError cyclePath) ∧ cyclic (outgoingEdges graph).
Proof.
  revert visited. induction starts as [|n starts IH]; intros visited Hsub H; [done|].
  cbn [visit_each] in H. destruct (DFS _ _ _ n visited) as [v1|e1] eqn:E1.
  - apply (IH v1); [|done]. intros x Hx. apply Hsub. by right.
  - simplify_eq.
    assert (∃ cyclePath, e = DepGraphCycleError cyclePath) as [cyclePath ->].
    { eapply (DFS_throws_cycle _ (keys graph) (wf_closed _ Hwf)); [| | | |exact E1].
      - apply NoDup_nil_2.
      - by intros ? ?%elem_of_nil.
      - apply Hsub. left.
      - simpl. lia. }
    split; [eauto|]. eapply DFS_cycle_sound; [|exact E1]. exact I.
Qed.

(** Every node of a graph without cycle is, or is reached from, a node
    that nothing depends on; [v] is the witness that there is no cycle. *)
Lemma sources_cover (v order : list string) :
  topological (outgoingEdges graph) v → (∀ n, n ∈ keys graph → n ∈ v) →
  topological (outgoingEdges graph) order →
  (∀ n, n ∈ keys graph → edges_of (incomingEdges graph) n = [] → n ∈ order) →
  ∀ n, n ∈ keys graph → n ∈ order.
Proof.
  intros Hv Hall Ho Hsrc.
  assert (∀ k i n, v !! i = Some n → n ∈ keys graph → length v - i ≤ k → n ∈ order)
    as Hind.
  { induction k as [|k IH]; intros i n Hi Hn Hk.
    { apply lookup_lt_Some in Hi. lia. }
    destruct (edges_of (incomingEdges graph) n) as [|p ps] eqn:Einc; [by apply Hsrc|].
    assert (n ∈ edges_of (outgoingEdges graph) p) as Hpn.
    { apply (wf_mirror _ Hwf). rewrite Einc. left. }
    pose proof (edge_source_is_node _ _ Hpn) as Hp.
    destruct (proj1 (list_elem_of_lookup _ _) (Hall _ Hp)) as [i' Hi'].
    destruct Hv as [Hnd Hdeps]. destruct (Hdeps i' p n Hi' Hpn) as (j & Hj & Hjn).
    pose proof (NoDup_lookup _ _ _ _ Hnd Hi Hjn) as ->.
    apply (topological_closed _ _ p n Ho); [|done].
    apply (IH i' p Hi' Hp). apply lookup_lt_Some in Hi'. lia. }
  intros n Hn. destruct (proj1 (list_elem_of_lookup _ _) (Hall _ Hn)) as [i Hi].
  apply (Hind (length v) i n); [done | done | lia].
Qed.

(** [overallOrder] returns every node once, dependencies first. *)
Lemma overallOrder_ok (order : list string) :
  overallOrder graph = Ok order →
  topological (outgoingEdges graph) order ∧ (∀ n, n ∈ order ↔ n ∈ keys graph).
Proof.
  unfold overallOrder.
  destruct (visit_each _ (keys graph) []) as [v|e] eqn:E1; [|done]. intros E2.
  apply first_pass_ok in E1 as (Hv & Hall & _); [|done].
  apply first_pass_ok in E2 as (Ho & Hsrc & Hin).
  2:{ intros n Hn. by apply list_elem_of_filter in Hn as [_ Hn]. }
  split; [done|]. intros n. split; [by apply Hin|].
  apply (sources_cover v order Hv Hall Ho).
  intros x Hx Hinc. apply Hsrc. by apply list_elem_of_filter.
Qed.

(** It fails with the cycle error, and only with it, exactly when the
    graph has a cycle. *)
Lemma overallOrder_throws (e : exn) :
  overallOrder graph = Throw e →
  (∃ cyclePath, e = DepGraphCycleError cyclePath) ∧ cyclic (outgoingEdges graph).
Proof.
  unfold overallOrder.
  destruct (visit_each _ (keys graph) []) as [v|e1] eqn:E1.
  - intros E2. apply pass_throws_cycle in E2; [done|].
    intros n Hn. by apply list_elem_of_filter in Hn as [_ Hn].
  - intros [= ->]. by apply pass_throws_cycle in E1.
Qed.

Lemma overallOrder_cyclic :
  cyclic (outgoingEdges graph) →
  ∃ cyclePath, overallOrder graph = Throw (DepGraphCycleError cyclePath).
Proof.
  intros [x Hx]. destruct (overallOrder graph) as [order|e] eqn:E.
  - exfalso. apply overallOrder_ok in E as [Ht Hall].
    apply (topological_acyclic _ _ _ Ht Hx). apply Hall.
    assert (∃ y, edge (outgoingEdges graph) x y) as [y Hy].
    { by apply tc_first in Hx. }
    by apply (edge_source_is_node x y).
  - apply overallOrder_throws in E as [[cyclePath ->] _]. eauto.
Qed.

Lemma overallOrder_acyclic :
  ¬ cyclic (outgoingEdges graph) → ∃ order, overallOrder graph = Ok order.
Proof.
  intros Hno. destruct (overallOrder graph) as [order|e] eqn:E; [eauto|].
  by apply overallOrder_throws in E as [_ ?].
Qed.
End OverallOrder.

(** ** Building the graph *)

Lemma tc_impl {A} (R R' : relation A) (x y : A) :
  (∀ a b, R a b → R' a b) → tc R x y → tc R' x y.
Proof.
  intros H Htc. induction Htc as [a b Hab|a b c Hab _ IH].
  - by apply tc_once, H.
  - eapply tc_l; [by apply H | done].
Qed.

Lemma replace_data_keys (l : list (string * Middleware)) (node : string) (data : Middleware) :
  (replace_data l node data).*1 = l.*1.
Proof.
  induction l as [|[k d] l IH]; [done|]. cbn [replace_data].
  destruct (String.eqb k node); rewrite !fmap_cons; [done | by rewrite IH].
Qed.

Lemma lookup_data_Some (l : list (string * Middleware)) (node : string) :
  node ∈ l.*1 ↔ is_Some (lookup_data l node).
Proof.
  induction l as [|[k d] l IH]; simpl.
  - split; [by intros ?%elem_of_nil | by intros [? ?]].
  - destruct (String.eqb_spec k node) as [->|Hne].
    + split; [eauto | intros _; left].
    + rewrite elem_of_cons, IH. naive_solver.
Qed.

Lemma lookup_data_app (l : list (string * Middleware)) (k node : string) (d : Middleware) :
  lookup_data (l ++ [(k, d)]) node =
  match lookup_data l node with
  | Some m => Some m
  | None => if String.eqb k node then Some d else None
  end.
Proof.
  induction l as [|[k' d'] l IH]; simpl; [done|].
  by destruct (String.eqb k' node).
Qed.

Lemma lookup_data_replace (l : list (string * Middleware)) (node node' : string)
    (data : Middleware) :
  lookup_data (replace_data l node data) node' =
  if String.eqb node node'
  then (match lookup_data l node with Some _ => Some data | None => None end)
  else lookup_data l node'.
Proof.
  induction l as [|[k d] l IH]; simpl.
  - by destruct (String.eqb node node').
  - destruct (String.eqb_spec k node) as [->|Hne]; simpl.
    + destruct (String.eqb_spec node node') as [->|Hne']; [done|done].
    + destruct (String.eqb_spec k node') as [->|Hne'].
      * destruct (String.eqb_spec node node') as [->|]; [done|done].
      * exact IH.
Qed.

Lemma hasNode_true (graph : DepGraph) (node : string) :
  hasNode graph node = true ↔ node ∈ keys graph.
Proof. unfold hasNode. apply bool_decide_eq_true. Qed.

Lemma hasNode_false (graph : DepGraph) (node : string) :
  hasNode graph node = false ↔ node ∉ keys graph.
Proof. unfold hasNode. apply bool_decide_eq_false. Qed.

Lemma elem_of_push_unique (x y : string) (l : list string) :
  y ∈ push_unique x l ↔ y ∈ l ∨ y = x.
Proof.
  unfold push_unique. case_bool_decide as H.
  - split; [by left | intros [?| ->]; done].
  - rewrite elem_of_app, list_elem_of_singleton. done.
Qed.

Lemma edges_of_insert_nil (edges : gmap string (list string)) (node x : string) :
  edges !! node = None → edges_of (<[node := []]> edges) x = edges_of edges x.
Proof.
  intros H. unfold edges_of. destruct (decide (node = x)) as [->|Hne].
  - by rewrite lookup_insert_eq, H.
  - by rewrite lookup_insert_ne.
Qed.

Lemma edges_of_alter_push (edges : gmap string (list string)) (a b x y : string) :
  is_Some (edges !! a) →
  y ∈ edges_of (alter (push_unique b) a edges) x ↔ y ∈ edges_of edges x ∨ (x = a ∧ y = b).
Proof.
  intros [l Hl]. unfold edges_of. destruct (decide (a = x)) as [->|Hne].
  - rewrite lookup_alter_eq, Hl. simpl. rewrite elem_of_push_unique. naive_solver.
  - rewrite lookup_alter_ne by done. naive_solver.
Qed.

Lemma well_formed_new : well_formed new_DepGraph.
Proof.
  split; simpl.
  - constructor.
  - intros n. rewrite lookup_empty. split; [by intros ?%elem_of_nil | by intros [? ?]].
  - intros n. rewrite lookup_empty. split; [by intros ?%elem_of_nil | by intros [? ?]].
  - intros a b H. by apply elem_of_nil in H.
  - intros a b. unfold edges_of. simpl. rewrite !lookup_empty. simpl.
    split; by intros ?%elem_of_nil.
Qed.

Lemma addNode_fresh (graph : DepGraph) (node : string) (data : Middleware) :
  well_formed graph → node ∉ keys graph →
  well_formed (addNode graph node data) ∧
  keys (addNode graph node data) = keys graph ++ [node] ∧
  (∀ x, edges_of (outgoingEdges (addNode graph node data)) x
        = edges_of (outgoingEdges graph) x) ∧
  nodes (addNode graph node data) = nodes graph ++ [(node, data)].
Proof.
  intros Hwf Hfresh. unfold addNode.
  pose proof Hfresh as Hf. apply hasNode_false in Hf as ->.
  assert (outgoingEdges graph !! node = None) as Hout.
  { apply eq_None_not_Some. intros H. by apply (wf_outgoing _ Hwf) in H. }
  assert (incomingEdges graph !! node = None) as Hinc.
  { apply eq_None_not_Some. intros H. by apply (wf_incoming _ Hwf) in H. }
  assert (keys {| nodes := nodes graph ++ [(node, data)];
                  outgoingEdges := <[node:=[]]> (outgoingEdges graph);
                  incomingEdges := <[node:=[]]> (incomingEdges graph) |}
          = keys graph ++ [node]) as Hkeys.
  { unfold keys. simpl. by rewrite fmap_app. }
  split; [|split; [done|split; [|done]]].
  - split; rewrite ?Hkeys; simpl.
    + apply NoDup_app. split; [apply Hwf|]. split; [|apply NoDup_singleton].
      intros x Hx Hx'. apply list_elem_of_singleton in Hx' as ->. done.
    + intros n. rewrite elem_of_app, list_elem_of_singleton, lookup_insert_is_Some.
      rewrite (wf_outgoing _ Hwf). destruct (decide (node = n)); intuition congruence.
    + intros n. rewrite elem_of_app, list_elem_of_singleton, lookup_insert_is_Some.
      rewrite (wf_incoming _ Hwf). destruct (decide (node = n)); intuition congruence.
    + intros a b. rewrite edges_of_insert_nil by done. intros H.
      apply elem_of_app. left. by apply (wf_closed _ Hwf a).
    + intros a b. rewrite !edges_of_insert_nil by done. apply Hwf.
  - intros x. simpl. by apply edges_of_insert_nil.
Qed.

Lemma setNodeData_ok (graph graph' : DepGraph) (node : string) (data : Middleware) :
  well_formed graph → setNodeData graph node data = Ok graph' →
  well_formed graph' ∧ keys graph' = keys graph ∧
  outgoingEdges graph' = outgoingEdges graph ∧
  nodes graph' = replace_data (nodes graph) node data.
Proof.
  intros Hwf. unfold setNodeData. destruct (hasNode graph node); [|done].
  intros [= <-].
  assert (keys {| nodes := replace_data (nodes graph) node data;
                  outgoingEdges := outgoingEdges graph;
                  incomingEdges := incomingEdges graph |} = keys graph) as Hkeys.
  { unfold keys. simpl. apply replace_data_keys. }
  split; [|done].
  split; rewrite ?Hkeys; simpl; apply Hwf.
Qed.

Lemma addDependency_ok (graph graph' : DepGraph) (a b : string) :
  well_formed graph → addDependency graph a b = Ok graph' →
  well_formed graph' ∧ keys graph' = keys graph ∧ nodes graph' = nodes graph ∧
  b ∈ keys graph ∧
  ∀ x y, edge (outgoingEdges graph') x y
         ↔ edge (outgoingEdges graph) x y ∨ (x = a ∧ y = b).
Proof.
  intros Hwf. unfold addDependency.
  destruct (hasNode graph a) eqn:Ha; [|done].
  destruct (hasNode graph b) eqn:Hb; [|done]. simpl. intros [= <-].
  apply hasNode_true in Ha, Hb.
  pose proof (proj1 (wf_outgoing _ Hwf a) Ha) as Hout.
  pose proof (proj1 (wf_incoming _ Hwf b) Hb) as Hinc.
  assert (∀ x y, y ∈ edges_of (alter (push_unique b) a (outgoingEdges graph)) x
                 ↔ y ∈ edges_of (outgoingEdges graph) x ∨ (x = a ∧ y = b)) as Hedges.
  { intros x y. by apply edges_of_alter_push. }
  split; [|done].
  split; simpl; unfold keys; simpl.
  - apply Hwf.
  - intros n. destruct (decide (a = n)) as [->|Hne].
    + rewrite lookup_alter_eq, fmap_is_Some. apply Hwf.
    + rewrite lookup_alter_ne by done. apply Hwf.
  - intros n. destruct (decide (b = n)) as [->|Hne].
    + rewrite lookup_alter_eq, fmap_is_Some. apply Hwf.
    + rewrite lookup_alter_ne by done. apply Hwf.
  - intros x y. rewrite Hedges. intros [H|[-> ->]]; [by apply (wf_closed _ Hwf x)|done].
  - intros x y. rewrite Hedges. rewrite edges_of_alter_push by done.
    rewrite (wf_mirror _ Hwf). naive_solver.
Qed.

Lemma addDependency_throws (graph : DepGraph) (a b : string) (e : exn) :
  a ∈ keys graph → addDependency graph a b = Throw e → b ∉ keys graph.
Proof.
  intros Ha. unfold addDependency. apply hasNode_true in Ha as ->. simpl.
  destruct (hasNode graph b) eqn:Hb; [done|]. intros _. by apply hasNode_false.
Qed.

Lemma reference_name (d : Reference) : ∃ n, getMiddlewareName (arg_of_reference d) = Ok n.
Proof.
  destruct d as [s|c]; [by eexists|]. simpl. rewrite getMiddlewareName_class. eauto.
Qed.

Lemma intact_append_trace (w : list event) (s : State) :
  intact s → intact (append_trace w s).
Proof. done. Qed.

Lemma bind_lift {A B} (r : result A) (f : A → M B) (s : State) :
  bind (lift r) f s = match r with Ok a => f a s | Throw e => (Throw e, s) end.
Proof. by destruct r. Qed.

Lemma bind_strate_record {B} (f : StrateConfiguration → M B) (s : State) :
  intact s → bind strate_record f s = f (strate_configuration (context s)) s.
Proof. intros H. unfold bind. by rewrite (strate_record_intact _ H). Qed.

Lemma bind_strate_warn {B} (message : string) (f : unit → M B) (s : State) :
  intact s → bind (strate_warn message) f s = f () (append_trace [Warn message] s).
Proof. intros H. unfold bind. by rewrite (strate_warn_intact _ _ H). Qed.

Lemma bind_strate_debug {B} (message : string) (f : unit → M B) (s : State) :
  intact s → bind (strate_debug message) f s = f () (append_trace [Debug message] s).
Proof. intros H. unfold bind. by rewrite (strate_debug_intact _ _ H). Qed.

(** [addMiddlewareToGraph] makes a node of every identity of the list, with
    the last instance of that identity as its data, and adds no edge; it
    throws only what resolving an identity throws. *)
Lemma addMiddlewareToGraph_spec (instances : list Middleware) (graph : DepGraph) (s : State) :
  intact s → well_formed graph →
  ∃ r w,
    addMiddlewareToGraph graph instances s = (r, append_trace w s) ∧
    Forall (λ e, is_log e = true) w ∧
    match r with
    | Ok graph' =>
        well_formed graph' ∧
        (∀ m, m ∈ instances → ∃ n, identity_of m n) ∧
        (∀ n, n ∈ keys graph' ↔ n ∈ keys graph ∨ installed instances n) ∧
        (∀ x, edges_of (outgoingEdges graph') x = edges_of (outgoingEdges graph) x) ∧
        (∀ n m, lookup_data (nodes graph') n = Some m →
                lookup_data (nodes graph) n = Some m ∨ (m ∈ instances ∧ identity_of m n))
    | Throw e =>
        ∃ before m after,
          instances = before ++ m :: after ∧
          (∀ m', m' ∈ before → ∃ n, identity_of m' n) ∧
          getMiddlewareName (ArgInstance m) = Throw e
    end.
Proof.
  revert graph s. induction instances as [|instance rest IH]; intros graph s Hs Hwf.
  - exists (Ok graph), []. simpl. rewrite append_trace_nil.
    split; [done|]. split; [done|]. split; [done|]. split.
    { intros m Hm. by apply elem_of_nil in Hm. }
    split; [|split; [done|by left]].
    intros n. split; [by left|]. intros [?|(m & Hm & _)]; [done|by apply elem_of_nil in Hm].
  - cbn [addMiddlewareToGraph]. rewrite bind_lift.
    destruct (getMiddlewareName (ArgInstance instance)) as [n|e] eqn:En.
    2:{ exists (Throw e), []. rewrite append_trace_nil. split; [done|]. split; [done|].
        exists [], instance, rest. split; [done|]. split; [|done].
        intros m' Hm'. by apply elem_of_nil in Hm'. }
    destruct (hasNode graph n) eqn:Hn.
    + rewrite bind_strate_record by done. rewrite bind_strate_warn by done.
      rewrite bind_lift.
      destruct (setNodeData graph n instance) as [g1|e] eqn:E1.
      2:{ unfold setNodeData in E1. by rewrite Hn in E1. }
      apply setNodeData_ok in E1 as (Hwf1 & Hk1 & Ho1 & Hn1); [|done].
      destruct (IH g1 (append_trace [Warn (duplicate_message n
                  (skip_nonempty (strate_configuration (context s)))
                  (bool_decide (is_Some (id instance))))] s)
                  ltac:(done) Hwf1) as (r & w & E & Hw & Hr).
      exists r, (Warn (duplicate_message n
                  (skip_nonempty (strate_configuration (context s)))
                  (bool_decide (is_Some (id instance)))) :: w).
      rewrite E, append_trace_app. split; [done|]. split; [by constructor|].
      destruct r as [g'|e].
      2:{ destruct Hr as (before & m & after & -> & Hbefore & He).
          exists (instance :: before), m, after. split; [done|]. split; [|done].
          intros m' Hm'. apply elem_of_cons in Hm' as [->|Hm']; [by exists n|by apply Hbefore]. }
      destruct Hr as (Hwf' & Hres & Hkeys & Hedges & Hdata).
      split; [done|]. split.
      { intros m Hm. apply elem_of_cons in Hm as [->|Hm]; [by exists n|by apply Hres]. }
      split; [|split].
      * intros x. rewrite Hkeys, Hk1. apply hasNode_true in Hn. split.
        -- intros [?|(m & Hm & Hi)]; [by left|]. right. exists m. split; [by right|done].
        -- intros [?|(m & Hm & Hi)]; [by left|].
           apply elem_of_cons in Hm as [->|Hm]; [|right; by exists m].
           left. unfold identity_of in Hi. assert (x = n) as -> by congruence. done.
      * intros x. by rewrite Hedges, Ho1.
      * intros x m Hx. apply Hdata in Hx as [Hx|[Hm Hi]]; [|right; split; [by right|done]].
        rewrite Hn1, lookup_data_replace in Hx.
        destruct (String.eqb_spec n x) as [->|Hne]; [|by left].
        destruct (lookup_data (nodes graph) x); [|done]. simplify_eq.
        right. split; [left|done].
    + apply hasNode_false in Hn.
      destruct (addNode_fresh graph n instance Hwf Hn) as (Hwf1 & Hk1 & Ho1 & Hn1).
      destruct (IH (addNode graph n instance) s Hs Hwf1) as (r & w & E & Hw & Hr).
      exists r, w. split; [done|]. split; [done|].
      destruct r as [g'|e].
      2:{ destruct Hr as (before & m & after & -> & Hbefore & He).
          exists (instance :: before), m, after. split; [done|]. split; [|done].
          intros m' Hm'. apply elem_of_cons in Hm' as [->|Hm']; [by exists n|by apply Hbefore]. }
      destruct Hr as (Hwf' & Hres & Hkeys & Hedges & Hdata).
      split; [done|]. split.
      { intros m Hm. apply elem_of_cons in Hm as [->|Hm]; [by exists n|by apply Hres]. }
      split; [|split].
      * intros x. rewrite Hkeys, Hk1, elem_of_app, list_elem_of_singleton. split.
        -- intros [[?| ->]|(m & Hm & Hi)]; [by left| |].
           ++ right. exists instance. split; [left|done].
           ++ right. exists m. split; [by right|done].
        -- intros [?|(m & Hm & Hi)]; [by left; left|].
           apply elem_of_cons in Hm as [->|Hm]; [|right; by exists m].
           left. right. unfold identity_of in Hi. congruence.
      * intros x. by rewrite Hedges, Ho1.
      * intros x m Hx. apply Hdata in Hx as [Hx|[Hm Hi]]; [|right; split; [by right|done]].
        rewrite Hn1, lookup_data_app in Hx.
        destruct (lookup_data (nodes graph) x) eqn:Ex; [left; by simplify_eq|].
        destruct (String.eqb_spec n x) as [->|Hne]; [|done]. simplify_eq.
        right. split; [left|done].
Qed.

(** The loops that add the edges leave the state alone; they add an edge
    for every declared dependency, or throw at a dependency that is not a
    node, with the message that the skip list selects. *)
Lemma addDependencies_spec (deps : list Reference) (graph : DepGraph) (n : string)
    (s : State) :
  intact s → well_formed graph → n ∈ keys graph →
  ∃ r,
    addDependencies graph n deps s = (r, s) ∧
    match r with
    | Ok graph' =>
        well_formed graph' ∧ keys graph' = keys graph ∧ nodes graph' = nodes graph ∧
        (∀ x y, edge (outgoingEdges graph') x y
                ↔ edge (outgoingEdges graph) x y
                  ∨ (x = n ∧ ∃ d, d ∈ deps ∧ getMiddlewareName (arg_of_reference d) = Ok y)) ∧
        (∀ d y, d ∈ deps → getMiddlewareName (arg_of_reference d) = Ok y → y ∈ keys graph)
    | Throw e =>
        ∃ earlier d later y,
          deps = earlier ++ d :: later ∧
          getMiddlewareName (arg_of_reference d) = Ok y ∧
          (y ∉ keys graph) ∧
          (∀ d' y', d' ∈ earlier → getMiddlewareName (arg_of_reference d') = Ok y' →
                    y' ∈ keys graph) ∧
          e = absent_dependency_error (strate_configuration (context s)) n y
    end.
Proof.
  revert graph. induction deps as [|dependency rest IH]; intros graph Hs Hwf Hn.
  - exists (Ok graph). split; [done|]. split; [done|]. split; [done|]. split; [done|].
    split.
    + intros x y. split; [by left|]. intros [?|(_ & d & Hd & _)]; [done|].
      by apply elem_of_nil in Hd.
    + intros d y Hd. by apply elem_of_nil in Hd.
  - cbn [addDependencies]. rewrite bind_lift.
    destruct (reference_name dependency) as [y Hy]. rewrite Hy.
    destruct (addDependency graph n y) as [g1|e1] eqn:E1.
    + apply addDependency_ok in E1 as (Hwf1 & Hk1 & Hn1 & Hy1 & He1); [|done].
      destruct (IH g1 Hs Hwf1 ltac:(by rewrite Hk1)) as (r & E & Hr).
      exists r. split; [done|]. destruct r as [g'|e].
      * destruct Hr as (Hwf' & Hk' & Hn' & He' & Hd').
        split; [done|]. split; [by rewrite Hk'|]. split; [by rewrite Hn'|]. split.
        -- intros x z. rewrite He', He1. split.
           ++ intros [[?|[-> ->]]|(-> & d & Hd & Hz)]; [by left| |].
              ** right. split; [done|]. exists dependency. split; [left|done].
              ** right. split; [done|]. exists d. split; [by right|done].
           ++ intros [?|(-> & d & Hd & Hz)]; [by left; left|].
              apply elem_of_cons in Hd as [->|Hd].
              ** left. right. split; [done|]. congruence.
              ** right. split; [done|]. by exists d.
        -- intros d z Hd Hz. apply elem_of_cons in Hd as [->|Hd].
           ++ assert (z = y) as -> by congruence. done.
           ++ rewrite <- Hk1. by apply (Hd' d).
      * destruct Hr as (earlier & d & later & z & -> & Hz & Hno & Hearlier & ->).
        exists (dependency :: earlier), d, later, z. split; [done|]. split; [done|].
        split; [by rewrite <- Hk1|]. split; [|done].
        intros d' y' Hd' Hy'. apply elem_of_cons in Hd' as [->|Hd'].
        -- assert (y' = y) as -> by congruence. done.
        -- rewrite <- Hk1. by apply (Hearlier d').
    + apply addDependency_throws in E1; [|done].
      rewrite bind_strate_record by done.
      exists (Throw (absent_dependency_error (strate_configuration (context s)) n y)).
      split; [unfold absent_dependency_error; by destruct (skip_includes _ _)|].
      exists [], dependency, rest, y. split; [done|]. split; [done|]. split; [done|].
      split; [|done]. intros d' y' Hd'. by apply elem_of_nil in Hd'.
Qed.

Lemma setDependencies_spec (instances : list Middleware) (graph : DepGraph) (s : State) :
  intact s → well_formed graph →
  (∀ m, m ∈ instances → ∃ n, identity_of m n ∧ n ∈ keys graph) →
  ∃ r,
    setDependencies graph instances s = (r, s) ∧
    match r with
    | Ok graph' =>
        well_formed graph' ∧ keys graph' = keys graph ∧ nodes graph' = nodes graph ∧
        (∀ x y, edge (outgoingEdges graph') x y
                ↔ edge (outgoingEdges graph) x y ∨ depends_on instances x y) ∧
        (∀ x y, depends_on instances x y → y ∈ keys graph)
    | Throw e =>
        ∃ before m after earlier d later x y,
          instances = before ++ m :: after ∧
          default [] (dependencies m) = earlier ++ d :: later ∧
          identity_of m x ∧ getMiddlewareName (arg_of_reference d) = Ok y ∧
          (y ∉ keys graph) ∧
          (∀ m' d' y', m' ∈ before → d' ∈ default [] (dependencies m') →
                       getMiddlewareName (arg_of_reference d') = Ok y' → y' ∈ keys graph) ∧
          (∀ d' y', d' ∈ earlier → getMiddlewareName (arg_of_reference d') = Ok y' →
                    y' ∈ keys graph) ∧
          e = absent_dependency_error (strate_configuration (context s)) x y
    end.
Proof.
  revert graph. induction instances as [|instance rest IH]; intros graph Hs Hwf Hall.
  - exists (Ok graph). split; [done|]. split; [done|]. split; [done|]. split; [done|].
    split.
    + intros x y. split; [by left|]. intros [?|(m & d & Hm & _)]; [done|].
      by apply elem_of_nil in Hm.
    + intros x y (m & d & Hm & _). by apply elem_of_nil in Hm.
  - cbn [setDependencies]. rewrite bind_lift.
    destruct (Hall instance ltac:(left)) as (n & Hi & Hn). unfold identity_of in Hi.
    rewrite Hi. unfold bind at 1.
    destruct (addDependencies_spec (default [] (dependencies instance)) graph n s Hs Hwf Hn)
      as (r1 & E1 & Hr1).
    rewrite E1. destruct r1 as [g1|e1].
    + destruct Hr1 as (Hwf1 & Hk1 & Hn1 & He1 & Hd1).
      destruct (IH g1 Hs Hwf1) as (r & E & Hr).
      { intros m Hm. rewrite Hk1. apply Hall. by right. }
      exists r. split; [done|]. destruct r as [g'|e].
      * destruct Hr as (Hwf' & Hk' & Hn' & He' & Hd').
        split; [done|]. split; [by rewrite Hk'|]. split; [by rewrite Hn'|]. split.
        -- intros x y. rewrite He', He1. split.
           ++ intros [[?|(-> & d & Hd & Hy)]|(m & d & Hm & Hd & Hx & Hy)]; [by left| |].
              ** right. exists instance, d. split; [left|done].
              ** right. exists m, d. split; [by right|done].
           ++ intros [?|(m & d & Hm & Hd & Hx & Hy)]; [by left; left|].
              apply elem_of_cons in Hm as [->|Hm].
              ** left. right. unfold identity_of in Hx. split; [congruence|].
                 by exists d.
              ** right. by exists m, d.
        -- intros x y (m & d & Hm & Hd & Hx & Hy).
           apply elem_of_cons in Hm as [->|Hm].
           ++ by apply (Hd1 d).
           ++ rewrite <- Hk1. apply (Hd' x y). by exists m, d.
      * destruct Hr as (before & m & after & earlier & d & later & x & y
                        & -> & Hdeps & Hx & Hy & Hno & Hbefore & Hearlier & ->).
        exists (instance :: before), m, after, earlier, d, later, x, y.
        split; [done|]. split; [done|]. split; [done|]. split; [done|].
        split; [by rewrite <- Hk1|]. split; [|split; [|done]].
        -- intros m' d' y' Hm' Hd' Hy'. apply elem_of_cons in Hm' as [->|Hm'].
           ++ by apply (Hd1 d').
           ++ rewrite <- Hk1. by apply (Hbefore m' d').
        -- intros d' y' Hd' Hy'. rewrite <- Hk1. by apply (Hearlier d').
    + destruct Hr1 as (earlier & d & later & y & Hdeps & Hy & Hno & Hearlier & ->).
      eexists. split; [reflexivity|].
      exists [], instance, rest, earlier, d, later, n, y.
      split; [done|]. split; [done|]. split; [done|]. split; [done|]. split; [done|].
      split; [|done]. intros m' d' y' Hm'. by apply elem_of_nil in Hm'.
Qed.

(** ** resolveMiddleware *)

(** What resolveMiddleware returns or throws, in a context that still holds
    the seeded record. *)
Lemma resolveMiddleware_spec (s : State) (instances : list Middleware) :
  intact s →
  middleware (strate_configuration (context s)) = Some instances →
  ∃ r w,
    resolveMiddleware s = (r, append_trace w s) ∧
    Forall (λ e, is_log e = true) w ∧
    match r with
    | Ok (graph, order) =>
        well_formed graph ∧
        (∀ n, n ∈ keys graph ↔ installed instances n) ∧
        (∀ x y, edge (outgoingEdges graph) x y ↔ depends_on instances x y) ∧
        (∀ n m, lookup_data (nodes graph) n = Some m → m ∈ instances ∧ identity_of m n) ∧
        overallOrder graph = Ok order
    | Throw e =>
        (∃ before m after,
           instances = before ++ m :: after ∧
           (∀ m', m' ∈ before → ∃ n, identity_of m' n) ∧
           getMiddlewareName (ArgInstance m) = Throw e) ∨
        ((∀ m, m ∈ instances → ∃ n, identity_of m n) ∧
         ∃ x y, first_absent_dependency instances x y ∧
                e = absent_dependency_error (strate_configuration (context s)) x y) ∨
        ((∀ m, m ∈ instances → ∃ n, identity_of m n) ∧
         (∀ x y, depends_on instances x y → installed instances y) ∧
         (∃ cyclePath, e = DepGraphCycleError cyclePath) ∧
         ∃ x, tc (depends_on instances) x x)
    end.
Proof.
  intros Hs Hm. unfold resolveMiddleware.
  rewrite bind_strate_record by done. rewrite Hm. simpl.
  destruct (addMiddlewareToGraph_spec instances new_DepGraph s Hs well_formed_new)
    as (r1 & w & E1 & Hw & Hr1).
  unfold bind at 1. rewrite E1. destruct r1 as [g1|e1].
  2:{ exists (Throw e1), w. split; [done|]. split; [done|]. by left. }
  destruct Hr1 as (Hwf1 & Hres & Hkeys & Hedges & Hdata).
  assert (∀ n, n ∈ keys g1 ↔ installed instances n) as Hkeys1.
  { intros n. rewrite Hkeys. split; [|by right]. intros [H|H]; [|done].
    by apply elem_of_nil in H. }
  rewrite bind_strate_record by done. simpl. rewrite Hm.
  destruct (setDependencies_spec instances g1 (append_trace w s) ltac:(done) Hwf1)
    as (r2 & E2 & Hr2).
  { intros m Hmi. destruct (Hres m Hmi) as [n Hn]. exists n. split; [done|].
    apply Hkeys1. by exists m. }
  unfold bind at 1. rewrite E2. destruct r2 as [g2|e2].
  2:{ exists (Throw e2), w. split; [done|]. split; [done|]. right. left.
      split; [done|].
      destruct Hr2 as (before & m & after & earlier & d & later & x & y
                       & Hi & Hdeps & Hx & Hy & Hno & Hbefore & Hearlier & ->).
      exists x, y. split; [|done].
      exists before, m, after, earlier, d, later.
      split; [done|]. split; [done|]. split; [done|]. split; [done|].
      split; [by rewrite <- Hkeys1|]. split.
      - intros m' d' y' Hm' Hd' Hy'. apply Hkeys1. by apply (Hbefore m' d').
      - intros d' y' Hd' Hy'. apply Hkeys1. by apply (Hearlier d'). }
  destruct Hr2 as (Hwf2 & Hk2 & Hn2 & He2 & Hd2).
  assert (∀ x y, edge (outgoingEdges g2) x y ↔ depends_on instances x y) as Hedge.
  { intros x y. rewrite He2. split; [|by right]. intros [H|H]; [|done].
    unfold edge in H. rewrite Hedges in H. unfold edges_of in H. simpl in H.
    rewrite lookup_empty in H. by apply elem_of_nil in H. }
  rewrite bind_lift. destruct (overallOrder g2) as [order|e] eqn:E3.
  - exists (Ok (g2, order)), w. split; [done|]. split; [done|].
    split; [done|]. split; [by intros n; rewrite Hk2|]. split; [done|]. split; [|done].
    intros n m Hl. rewrite Hn2 in Hl. apply Hdata in Hl as [Hl|Hl]; [done|done].
  - exists (Throw e), w. split; [done|]. split; [done|]. right. right.
    apply overallOrder_throws in E3 as [Hcyc [x Hx]]; [|done].
    split; [done|]. split; [|split; [done|]].
    + intros x' y Hd. apply Hkeys1. by apply (Hd2 x').
    + exists x. eapply tc_impl; [|exact Hx]. intros a b. apply Hedge.
Qed.

(** The order that resolveMiddleware returns lists the installed identities,
    each once, every dependency at a smaller index than its dependent. *)
Lemma resolveMiddleware_ok (s s' : State) (instances : list Middleware)
    (graph : DepGraph) (order : list string) :
  intact s →
  middleware (strate_configuration (context s)) = Some instances →
  resolveMiddleware s = (Ok (graph, order), s') →
  NoDup order ∧ (∀ n, n ∈ order ↔ installed instances n) ∧
  (∀ a b, depends_on instances a b →
          ∃ i j, i < j ∧ order !! i = Some b ∧ order !! j = Some a) ∧
  (∀ n, n ∈ order → truthy n = true ∧
        ∃ m, m ∈ instances ∧ identity_of m n ∧ getNodeData graph n = Ok m) ∧
  context s' = context s ∧ handlerHasBeenExecuted s' = handlerHasBeenExecuted s ∧
  calls (trace s') = calls (trace s).
Proof.
  intros Hs Hm E.
  destruct (resolveMiddleware_spec s instances Hs Hm) as (r & w & E' & Hw & Hr).
  rewrite E in E'. injection E' as <- ->.
  destruct Hr as (Hwf & Hkeys & Hedge & Hdata & Ho).
  apply overallOrder_ok in Ho as [[Hnd Htopo] Hall]; [|done].
  split; [done|]. split; [by intros n; rewrite Hall|]. split; [|split].
  - intros a b Hab.
    assert (a ∈ order) as Ha.
    { apply Hall, Hkeys. destruct Hab as (m & d & Hmi & _ & Hi & _). by exists m. }
    apply list_elem_of_lookup in Ha as [j Hj].
    destruct (Htopo j a b Hj) as (i & Hi & Hib); [by apply Hedge|]. by exists i, j.
  - intros n Hn. apply Hall in Hn.
    apply lookup_data_Some in Hn as [m Hl]. destruct (Hdata n m Hl) as [Hmi Hi].
    split; [by apply (getMiddlewareName_instance_truthy m)|].
    exists m. split; [done|]. split; [done|]. unfold getNodeData. by rewrite Hl.
  - split; [done|]. split; [done|]. simpl. unfold calls. rewrite List.filter_app.
    assert (List.filter (λ e, negb (is_log e)) w = []) as ->; [|by rewrite app_nil_r].
    clear -Hw. induction Hw as [|e w He _ IH]; [done|]. simpl. by rewrite He.
Qed.

(** ** What resolveMiddleware throws *)

Lemma first_absent_dependency_absent (instances : list Middleware) (a b : string) :
  first_absent_dependency instances a b →
  depends_on instances a b ∧ ¬ installed instances b.
Proof.
  intros (before & m & after & earlier & d & later & -> & Hdeps & Ha & Hb & Hno & _).
  split; [|done]. exists m, d. split; [apply elem_of_app; right; left|].
  split; [|done]. rewrite Hdeps. apply elem_of_app. right. left.
Qed.

(** An instance resolves to an identity unless its [id()] is async. *)
Lemma identity_resolves (m : Middleware) :
  (∃ n, identity_of m n) ↔ id m ≠ Some IdPromise.
Proof.
  unfold identity_of, getMiddlewareName.
  destruct (id m) as [i|]; [destruct i as [s|]|]; split; try done; eauto.
  intros H. destruct H as [n Hn]. discriminate Hn.
Qed.

Lemma getMiddlewareName_throws_async (m : Middleware) (e : exn) :
  getMiddlewareName (ArgInstance m) = Throw e →
  id m = Some IdPromise ∧
  e = Error ("The " +:+ quoted "id()" +:+ " method of the " +:+ name (constructor m)
             +:+ " middleware class must not be async. It should return a string.").
Proof.
  unfold getMiddlewareName. destruct (id m) as [i|]; [destruct i as [s|]|]; [done| |done].
  by intros [= <-].
Qed.

Lemma unresolved_not_all (instances : list Middleware) (e : exn) :
  (∃ before m after,
     instances = before ++ m :: after ∧
     (∀ m', m' ∈ before → ∃ n, identity_of m' n) ∧
     getMiddlewareName (ArgInstance m) = Throw e) →
  ¬ (∀ m, m ∈ instances → ∃ n, identity_of m n).
Proof.
  intros (before & m & after & -> & _ & He) Hres.
  destruct (Hres m) as [n Hn]; [apply elem_of_app; right; left|].
  unfold identity_of in Hn. congruence.
Qed.

(** [skip.includes(identity)] holds exactly when the string is an entry of
    the array. *)
Lemma skip_includes_entry (configuration : StrateConfiguration) (identity : string) :
  skip_includes configuration identity
  = bool_decide (RefString identity ∈ default [] (skip configuration)).
Proof.
  unfold skip_includes. destruct (skip configuration) as [entries|]; simpl.
  - induction entries as [|r entries IH]; [done|]. simpl. rewrite IH.
    destruct r as [s'|c].
    + destruct (String.eqb_spec s' identity) as [->|Hne]; simpl.
      * symmetry. apply bool_decide_eq_true. left.
      * apply bool_decide_ext. rewrite elem_of_cons. naive_solver.
    + simpl. apply bool_decide_ext. rewrite elem_of_cons. naive_solver.
  - done.
Qed.

(** The text of the error for a dependency that is not a node. *)
Lemma absent_dependency_error_text (configuration : StrateConfiguration) (a b : string) :
  absent_dependency_error configuration a b
  = Error (if bool_decide (RefString b ∈ default [] (skip configuration))
           then "Middleware " +:+ quoted a +:+ " depends on a skipped middleware: " +:+ b
                +:+ ". Either remove " +:+ quoted b +:+ " from the " +:+ quoted "skip"
                +:+ " array on your configuration, or remove " +:+ quoted a
                +:+ " from your " +:+ quoted "middleware" +:+ " array."
           else "Middleware " +:+ quoted a +:+ " depends on a missing middleware: " +:+ b).
Proof. unfold absent_dependency_error. by rewrite skip_includes_entry. Qed.

(** C1: in a context built by createContext, whenever resolveMiddleware
    returns an execution order, the order holds every installed identity
    once and places every declared dependency at a strictly smaller index
    than its dependent; and it does return one for every list of middleware
    whose identities resolve, whose declared dependencies are installed, and
    whose dependency declarations form no cycle. *)
Theorem resolveMiddleware_order (s : State) (instances : list Middleware) :
  intact s →
  middleware (strate_configuration (context s)) = Some instances →
  (∀ graph order s',
     resolveMiddleware s = (Ok (graph, order), s') →
     NoDup order ∧ (∀ n, n ∈ order ↔ installed instances n) ∧
     ∀ a b, depends_on instances a b →
            ∃ i j, i < j ∧ order !! i = Some b ∧ order !! j = Some a) ∧
  ((∀ m, m ∈ instances → ∃ n, identity_of m n) →
   (∀ a b, depends_on instances a b → installed instances b) →
   ¬ (∃ x, tc (depends_on instances) x x) →
   ∃ graph order s', resolveMiddleware s = (Ok (graph, order), s')).
Proof.
  intros Hs Hm. split.
  - intros graph order s' E.
    destruct (resolveMiddleware_ok s s' instances graph order Hs Hm E)
      as (Hnd & Hall & Hdeps & _). done.
  - intros Hres Hclosed Hacyclic.
    destruct (resolveMiddleware_spec s instances Hs Hm) as (r & w & E & _ & Hr).
    destruct r as [[graph order]|e]; [by eauto|]. exfalso.
    destruct Hr as [Hthrows|[(_ & x & y & Hf & _)|(_ & _ & _ & Hcyc)]].
    + by apply (unresolved_not_all instances e).
    + apply first_absent_dependency_absent in Hf as [Hd Hno].
      apply Hno. by apply (Hclosed x).
    + by apply Hacyclic.
Qed.

Lemma resolveMiddleware_order_witness :
  let s := initial_state (with_middleware [middleware_B; middleware_A]) in
  intact s ∧
  middleware (strate_configuration (context s)) = Some [middleware_B; middleware_A] ∧
  (∀ graph order s',
     resolveMiddleware s = (Ok (graph, order), s') →
     NoDup order ∧ (∀ n, n ∈ order ↔ installed [middleware_B; middleware_A] n) ∧
     ∀ a b, depends_on [middleware_B; middleware_A] a b →
            ∃ i j, i < j ∧ order !! i = Some b ∧ order !! j = Some a).
Proof.
  intros s.
  assert (intact s) as H1 by reflexivity.
  assert (middleware (strate_configuration (context s))
          = Some [middleware_B; middleware_A]) as H2 by reflexivity.
  split; [exact H1|]. split; [exact H2|].
  exact (proj1 (resolveMiddleware_order s [middleware_B; middleware_A] H1 H2)).
Defined.



(** The error for Validation when the ErrorHandler it depends on is skipped,
    and when it is merely not listed. *)
Example resolveMiddleware_skipped_dependency :
  (resolveMiddleware (initial_state validation_without_ErrorHandler)).1
  = Throw (Error ("Middleware " +:+ quoted "Strate.Validation"
                  +:+ " depends on a skipped middleware: Strate.ErrorHandler. Either remove "
                  +:+ quoted "Strate.ErrorHandler" +:+ " from the " +:+ quoted "skip"
                  +:+ " array on your configuration, or remove "
                  +:+ quoted "Strate.Validation" +:+ " from your " +:+ quoted "middleware"
                  +:+ " array.")) ∧
  (resolveMiddleware (initial_state (with_middleware [Validation Valid]))).1
  = Throw (Error ("Middleware " +:+ quoted "Strate.Validation"
                  +:+ " depends on a missing middleware: Strate.ErrorHandler")).
Proof. split; vm_compute; reflexivity. Qed.

(** C7, as stated, fails at the middleware Ping and Pong, which depend on
    each other, when Ping also depends on a middleware that is not installed:
    there is a cycle among the installed middleware, and the error that
    resolveMiddleware throws is the one about the missing middleware, raised
    while the edges are being added, before any cycle is looked for. *)
Lemma resolveMiddleware_cycle_and_missing :
  tc (depends_on [ping; pong]) "App.Ping" "App.Ping" ∧
  (resolveMiddleware (initial_state (with_middleware [ping; pong]))).1
  = Throw (Error ("Middleware " +:+ quoted "App.Ping"
                  +:+ " depends on a missing middleware: App.Cache")).
Proof.
  split; [|vm_compute; reflexivity].
  apply (tc_l _ _ "App.Pong").
  - exists ping, (RefClass pong_class). split; [left|]. split; [left|]. split; reflexivity.
  - apply tc_once. exists pong, (RefClass ping_class).
    split; [right; left|]. split; [left|]. split; reflexivity.
Qed.

(** Likewise for a middleware that depends on itself, listed with an
    instance whose [id()] is async: every declared dependency is installed,
    and the error is the one about the async [id()], raised while the nodes
    are being added. *)
Example resolveMiddleware_cycle_and_async_id :
  tc (depends_on [loop; lazy]) "App.Loop" "App.Loop" ∧
  (∀ a b, depends_on [loop; lazy] a b → installed [loop; lazy] b) ∧
  (resolveMiddleware (initial_state (with_middleware [loop; lazy]))).1
  = Throw (Error ("The " +:+ quoted "id()" +:+ " method of the Lazy"
                  +:+ " middleware class must not be async. It should return a string.")).
Proof.
  assert (depends_on [loop; lazy] "App.Loop" "App.Loop") as Hloop.
  { exists loop, (RefClass loop_class). split; [left|]. split; [left|]. split; reflexivity. }
  split; [by apply tc_once|]. split; [|vm_compute; reflexivity].
  intros a b (m & d & Hm & Hd & Ha & Hb).
  apply elem_of_cons in Hm as [->|Hm].
  - apply list_elem_of_singleton in Hd as ->. exists loop. split; [left|].
    unfold identity_of. by rewrite <- Hb.
  - apply list_elem_of_singleton in Hm as ->. by apply elem_of_nil in Hd.
Qed.

(** C7, as the code has it: in a context built by createContext, for a list
    of middleware whose dependency declarations form a cycle,
    resolveMiddleware returns no order and throws.  What it throws is
    decided in the order in which it works: when the [id()] of some instance
    is async, the error about the async [id()] of the first such instance,
    naming its class; otherwise, when some declared dependency is not
    installed, the error about the first such dependency, in the order of
    the list and of the [dependencies] arrays, which is the error about a
    skipped middleware when the identity of the dependency is an entry of the
    skip list and the error about a missing middleware when it is not;
    otherwise the dependency-cycle error. *)
Theorem resolveMiddleware_cycle (s : State) (instances : list Middleware) :
  intact s →
  middleware (strate_configuration (context s)) = Some instances →
  (∃ x, tc (depends_on instances) x x) →
  ∃ e s',
    resolveMiddleware s = (Throw e, s') ∧
    ((∃ m, m ∈ instances ∧ id m = Some IdPromise) →
     ∃ before m after,
       instances = before ++ m :: after ∧
       (∀ m', m' ∈ before → id m' ≠ Some IdPromise) ∧
       id m = Some IdPromise ∧
       e = Error ("The " +:+ quoted "id()" +:+ " method of the " +:+ name (constructor m)
                  +:+ " middleware class must not be async. It should return a string.")) ∧
    ((∀ m, m ∈ instances → id m ≠ Some IdPromise) →
     (∃ a b, depends_on instances a b ∧ ¬ installed instances b) →
     ∃ a b,
       first_absent_dependency instances a b ∧
       e = Error
             (if bool_decide
                   (RefString b ∈ default [] (skip (strate_configuration (context s))))
              then "Middleware " +:+ quoted a +:+ " depends on a skipped middleware: "
                   +:+ b +:+ ". Either remove " +:+ quoted b +:+ " from the "
                   +:+ quoted "skip" +:+ " array on your configuration, or remove "
                   +:+ quoted a +:+ " from your " +:+ quoted "middleware" +:+ " array."
              else "Middleware " +:+ quoted a +:+ " depends on a missing middleware: "
                   +:+ b)) ∧
    ((∀ m, m ∈ instances → id m ≠ Some IdPromise) →
     (∀ a b, depends_on instances a b → installed instances b) →
     ∃ cyclePath, e = DepGraphCycleError cyclePath).
Proof.
  intros Hs Hm [x Hx].
  destruct (resolveMiddleware_spec s instances Hs Hm) as (r & w & E & _ & Hr).
  destruct r as [[graph order]|e].
  - exfalso. destruct Hr as (Hwf & _ & Hedge & _ & Ho).
    destruct (overallOrder_cyclic graph Hwf) as [cyclePath Hc]; [|congruence].
    exists x. eapply tc_impl; [|exact Hx]. intros a b. apply Hedge.
  - exists e, (append_trace w s). split; [done|].
    assert ((∀ m, m ∈ instances → id m ≠ Some IdPromise) →
            ∀ m, m ∈ instances → ∃ n, identity_of m n) as Hall.
    { intros H m Hmi. apply identity_resolves. by apply H. }
    split; [|split].
    + intros (m0 & Hm0 & Hid0).
      destruct Hr as [(before & m & after & -> & Hbefore & He)|[(Hres & _)|(Hres & _)]].
      * apply getMiddlewareName_throws_async in He as [Hid ->].
        exists before, m, after. split; [done|]. split; [|done].
        intros m' Hm'. apply identity_resolves. by apply Hbefore.
      * exfalso. by apply (proj1 (identity_resolves m0) (Hres m0 Hm0)).
      * exfalso. by apply (proj1 (identity_resolves m0) (Hres m0 Hm0)).
    + intros Hres (a & b & Hab & Hno).
      destruct Hr as [Hthrows|[(_ & a' & b' & Hf & ->)|(_ & Hclosed & _)]].
      * exfalso. apply (unresolved_not_all instances e); auto.
      * exists a', b'. split; [done|]. apply absent_dependency_error_text.
      * exfalso. apply Hno. by apply (Hclosed a).
    + intros Hres Hclosed.
      destruct Hr as [Hthrows|[(_ & a & b & Hf & _)|(_ & _ & Hc & _)]].
      * exfalso. apply (unresolved_not_all instances e); auto.
      * exfalso. apply first_absent_dependency_absent in Hf as [Hd Hno].
        apply Hno. by apply (Hclosed a).
      * done.
Qed.

Lemma resolveMiddleware_cycle_witness :
  let s := initial_state (with_middleware [loop]) in
  intact s ∧
  middleware (strate_configuration (context s)) = Some [loop] ∧
  (∃ x, tc (depends_on [loop]) x x) ∧
  ∃ e s',
    resolveMiddleware s = (Throw e, s') ∧
    ((∃ m, m ∈ [loop] ∧ id m = Some IdPromise) →
     ∃ before m after,
       [loop] = before ++ m :: after ∧
       (∀ m', m' ∈ before → id m' ≠ Some IdPromise) ∧
       id m = Some IdPromise ∧
       e = Error ("The " +:+ quoted "id()" +:+ " method of the " +:+ name (constructor m)
                  +:+ " middleware class must not be async. It should return a string.")) ∧
    ((∀ m, m ∈ [loop] → id m ≠ Some IdPromise) →
     (∃ a b, depends_on [loop] a b ∧ ¬ installed [loop] b) →
     ∃ a b,
       first_absent_dependency [loop] a b ∧
       e = Error
             (if bool_decide
                   (RefString b ∈ default [] (skip (strate_configuration (context s))))
              then "Middleware " +:+ quoted a +:+ " depends on a skipped middleware: "
                   +:+ b +:+ ". Either remove " +:+ quoted b +:+ " from the "
                   +:+ quoted "skip" +:+ " array on your configuration, or remove "
                   +:+ quoted a +:+ " from your " +:+ quoted "middleware" +:+ " array."
              else "Middleware " +:+ quoted a +:+ " depends on a missing middleware: "
                   +:+ b)) ∧
    ((∀ m, m ∈ [loop] → id m ≠ Some IdPromise) →
     (∀ a b, depends_on [loop] a b → installed [loop] b) →
     ∃ cyclePath, e = DepGraphCycleError cyclePath).
Proof.
  intros s.
  assert (intact s) as H1 by reflexivity.
  assert (middleware (strate_configuration (context s)) = Some [loop]) as H2 by reflexivity.
  assert (∃ x, tc (depends_on [loop]) x x) as H3.
  { exists "App.Loop". apply tc_once. exists loop, (RefClass loop_class).
    split; [left|]. split; [left|]. split; reflexivity. }
  split; [exact H1|]. split; [exact H2|]. split; [exact H3|].
  exact (resolveMiddleware_cycle s [loop] H1 H2 H3).
Defined.

(** The error of the self-dependent middleware, with the path found. *)
Example resolveMiddleware_loop :
  (resolveMiddleware (initial_state (with_middleware [loop]))).1
  = Throw (DepGraphCycleError ["App.Loop"; "App.Loop"]).
Proof. vm_compute. reflexivity. Qed.

(** ** The flag of executeRoute *)

Lemma tracks_ret {A} (a : A) : tracks (ret a).
Proof. tracks_nothing. Qed.

Lemma tracks_throw {A} (e : exn) : tracks (throw (A:=A) e).
Proof. tracks_nothing. Qed.

Lemma tracks_lift {A} (r : result A) : tracks (lift r).
Proof. tracks_nothing. Qed.

Lemma tracks_get_target : tracks get_target.
Proof. tracks_nothing. Qed.

Lemma tracks_set_target (t : gmap string value) : tracks (set_target t).
Proof. tracks_nothing. Qed.

Lemma tracks_emit (e : event) : e ≠ Handler → tracks (emit e).
Proof.
  intros He s. exists [e]. simpl. split; [done|].
  split; [by left | intros [?|H]; [done | by apply list_elem_of_singleton in H]].
Qed.

Lemma tracks_bind {A B} (c : M A) (f : A → M B) :
  tracks c → (∀ a, tracks (f a)) → tracks (bind c f).
Proof.
  intros Hc Hf s. unfold bind.
  destruct (Hc s) as (l1 & E1 & H1). destruct (c s) as [[a|e] s1]; simpl in *.
  - destruct (Hf a s1) as (l2 & E2 & H2). exists (l1 ++ l2).
    split; [by rewrite E2, E1, app_assoc|]. rewrite H2, H1, elem_of_app. tauto.
  - eauto.
Qed.

Lemma tracks_attempt {A} (c : M A) : tracks c → tracks (attempt c).
Proof.
  intros Hc s. unfold attempt. destruct (Hc s) as (l & E & H).
  destruct (c s) as [r s1]. simpl in *. eauto.
Qed.

Lemma tracks_proxy_set (property : string) `{!NotReserved property} (v : value) :
  tracks (proxy_set property v).
Proof.
  unfold proxy_set. apply tracks_bind; [apply tracks_get_target|]. intros t.
  apply tracks_bind.
  - destruct (hasOwnProperty _ _); [by apply tracks_emit | apply tracks_ret].
  - intros _. apply tracks_bind; [apply tracks_set_target|]. intros _. apply tracks_ret.
Qed.

Lemma tracks_proxy_get (property : string) : tracks (proxy_get property).
Proof.
  unfold proxy_get. apply tracks_bind; [apply tracks_get_target|]. intros t.
  apply tracks_bind.
  - destruct (hasOwnProperty _ _); [apply tracks_ret | by apply tracks_emit].
  - intros _. apply tracks_ret.
Qed.

Lemma tracks_strate_record : tracks strate_record.
Proof.
  unfold strate_record. apply tracks_bind; [apply tracks_proxy_get|].
  intros [[]| | |]; try apply tracks_throw. tracks_nothing.
Qed.

Lemma tracks_strate_debug (message : string) : tracks (strate_debug message).
Proof.
  unfold strate_debug. apply tracks_bind; [apply tracks_strate_record|].
  intros _. by apply tracks_emit.
Qed.

Lemma tracks_strate_warn (message : string) : tracks (strate_warn message).
Proof.
  unfold strate_warn. apply tracks_bind; [apply tracks_strate_record|].
  intros _. by apply tracks_emit.
Qed.

Lemma tracks_call_value (callee : value) (code message : option string)
    (statusCode : option Z) :
  tracks (call_value callee code message statusCode).
Proof.
  destruct callee as [| | |member]; simpl; try apply tracks_throw.
  - apply tracks_bind; [by apply tracks_emit|]. intros _. apply tracks_throw.
  - destruct (returns_without_receiver member); [apply tracks_ret | apply tracks_throw].
Qed.

Lemma tracks_exec {N} (production : bool) (next : N → M unit) (p : prog N) :
  (∀ n, tracks (next n)) → tracks (exec production next p).
Proof.
  intros Hnext. induction p as [|label k IH|property ok v k IH|property k IH|
    callee code message statusCode k IH|message k IH|k IH|n k IH|e]; simpl.
  - apply tracks_ret.
  - apply tracks_bind; [by apply tracks_emit | auto].
  - apply tracks_bind; [apply tracks_proxy_set | auto].
  - apply tracks_bind; [apply tracks_proxy_get | auto].
  - apply tracks_bind; [apply tracks_call_value | auto].
  - apply tracks_bind; [apply tracks_strate_warn | auto].
  - apply IH.
  - apply tracks_bind; [apply tracks_attempt, Hnext | auto].
  - apply tracks_throw.
Qed.

(** The flag is set right before the handler is called. *)
Lemma tracks_run_handler (production : bool) (handler : RouteHandler) :
  tracks (run_handler production handler).
Proof.
  unfold run_handler. apply tracks_bind; [apply tracks_strate_debug|]. intros _ s.
  set (s1 := append_trace [Handler]
               {| context := context s; trace := trace s; handlerHasBeenExecuted := true |}).
  change ((set_handlerHasBeenExecuted true ;; emit Handler ;;
           exec production (λ n : Empty_set, match n with end) handler) s)
    with (exec production (λ n : Empty_set, match n with end) handler s1).
  destruct (tracks_exec production (λ n : Empty_set, match n with end) handler
              ltac:(intros []) s1) as (l & E & H).
  exists (Handler :: l). split; [by rewrite E; simpl; rewrite <- app_assoc|].
  rewrite H. simpl. split; [intros _; right; left | intros _; by left].
Qed.

Lemma tracks_next_from (production : bool) (graph : DepGraph) (handler : RouteHandler)
    (rest : list string) :
  tracks (next_from production graph handler rest).
Proof.
  induction rest as [|identity rest IH]; [apply tracks_run_handler|].
  cbn [next_from]. destruct (truthy identity); [|apply tracks_run_handler].
  apply tracks_bind; [apply tracks_lift|]. intros m.
  apply tracks_bind; [apply tracks_lift|]. intros n.
  apply tracks_bind; [apply tracks_strate_debug|]. intros _.
  apply tracks_bind; [by apply tracks_emit|]. intros _.
  apply tracks_exec. intros _.
  apply tracks_bind; [by apply tracks_emit | by intros _].
Qed.

(** ** What executeRoute does around the chain *)

Lemma closed_Forall_quiet : closed (Forall quiet).
Proof.
  split.
  - constructor.
  - intros e He. by repeat constructor.
  - intros l1 l2 H1 H2. by apply Forall_app.
Qed.

Lemma is_log_quiet (l : list event) : Forall (λ e, is_log e = true) l → Forall quiet l.
Proof. intros H. eapply Forall_impl; [exact H|]. by intros []. Qed.

Lemma count_Forall_quiet (e : event) (l : list event) :
  ¬ quiet e → Forall quiet l → count e l = 0.
Proof.
  intros He Hl. apply count_zero_not_in. intros Hin.
  apply He. by eapply (proj1 (Forall_forall _ _) Hl).
Qed.

(** When resolveMiddleware throws, executeRoute throws the same after one
    log line of its own. *)
Lemma executeRoute_throws (production : bool) (handler : RouteHandler) (s s1 : State)
    (instances : list Middleware) (e : exn) :
  intact s →
  middleware (strate_configuration (context s)) = Some instances →
  resolveMiddleware s = (Throw e, s1) →
  ∃ before, Forall quiet before ∧
    executeRoute production handler s = (Throw e, rebase (trace s ++ before) s1).
Proof.
  intros Hs Hm E.
  destruct (resolveMiddleware_spec s instances Hs Hm) as (r & w & E0 & Hw & _).
  rewrite E in E0. injection E0 as <- ->.
  destruct (oblivious_append _ _ _ _ [Debug "Generating middleware graph"]
              oblivious_resolveMiddleware E) as (w' & Ew & E').
  simpl in Ew. apply app_inv_head in Ew as <-.
  exists ([Debug "Generating middleware graph"] ++ w). split.
  { apply Forall_app. split; [by repeat constructor | by apply is_log_quiet]. }
  unfold executeRoute. rewrite bind_strate_debug by done.
  unfold bind at 1. by rewrite E'.
Qed.

(** When it returns an order, executeRoute runs the chain of [next] from a
    state that differs from the first by log lines and the cleared flag, then
    its last lines. *)
Lemma executeRoute_resolved (production : bool) (handler : RouteHandler) (s s1 : State)
    (instances : list Middleware) (graph : DepGraph) (order : list string) :
  intact s →
  middleware (strate_configuration (context s)) = Some instances →
  resolveMiddleware s = (Ok (graph, order), s1) →
  ∃ before, Forall quiet before ∧
    executeRoute production handler s
    = (next production graph handler order 0 ;; finish)
        {| context := context s; trace := trace s ++ before;
           handlerHasBeenExecuted := false |}.
Proof.
  intros Hs Hm E.
  destruct (resolveMiddleware_spec s instances Hs Hm) as (r & w & E0 & Hw & _).
  rewrite E in E0. injection E0 as <- ->.
  destruct (oblivious_append _ _ _ _ [Debug "Generating middleware graph"]
              oblivious_resolveMiddleware E) as (w' & Ew & E').
  simpl in Ew. apply app_inv_head in Ew as <-. apply is_log_quiet in Hw.
  set (s2 := rebase (trace s ++ [Debug "Generating middleware graph"] ++ w)
                    (append_trace w s)) in E'.
  assert (intact s2) as Hs2 by done.
  set (line := "Running middleware in the following order: " +:+ String.concat " -> " order).
  set (skipped := "The following middleware were skipped: " +:+
                  String.concat ", "
                    (reference_text <$> default [] (skip (strate_configuration (context s))))).
  exists ([Debug "Generating middleware graph"] ++ w ++ [Debug line] ++
          (if skip_nonempty (strate_configuration (context s)) then [Debug skipped] else [])).
  split.
  { apply Forall_app. split; [by repeat constructor|]. apply Forall_app. split; [done|].
    destruct (skip_nonempty _); by repeat constructor. }
  unfold executeRoute. rewrite bind_strate_debug by done.
  unfold bind at 1. rewrite E'. cbn [fst snd].
  rewrite bind_strate_debug by done. fold line.
  unfold bind at 1. unfold bind at 1.
  rewrite (strate_record_intact _ (intact_append_trace _ s2 Hs2)).
  change (context (append_trace [Debug line] s2)) with (context s). fold skipped.
  destruct (skip_nonempty (strate_configuration (context s))).
  - match goal with |- context [strate_debug skipped ?st] =>
      rewrite (strate_debug_intact st skipped ltac:(done)) end.
    unfold bind at 1, set_handlerHasBeenExecuted, append_trace. simpl.
    repeat first [rewrite <- app_assoc | rewrite <- app_comm_cons]. reflexivity.
  - unfold ret. unfold bind at 1, set_handlerHasBeenExecuted, append_trace. simpl.
    repeat first [rewrite <- app_assoc | rewrite <- app_comm_cons]. reflexivity.
Qed.

(** The last lines only call a logger. *)
Lemma finish_adds : adds (Forall quiet) finish.
Proof.
  unfold finish.
  apply adds_bind; [apply closed_Forall_quiet |
                    apply adds_get_handlerHasBeenExecuted, closed_Forall_quiet |].
  intros []; [apply adds_strate_debug | apply adds_strate_warn]; apply closed_Forall_quiet.
Qed.

Lemma quiet_not_in (e : event) (l1 l2 l3 : list event) :
  ¬ quiet e → Forall quiet l1 → Forall quiet l3 →
  e ∈ l1 ++ l2 ++ l3 ↔ e ∈ l2.
Proof.
  intros He H1 H3. rewrite !elem_of_app. split; [|by intros; right; left].
  intros [Hin|[?|Hin]]; [|done|]; exfalso; apply He;
    by eapply (proj1 (Forall_forall _ _)); [|exact Hin].
Qed.

Lemma count_between_quiet (e : event) (l1 l2 l3 : list event) :
  ¬ quiet e → Forall quiet l1 → Forall quiet l3 →
  count e (l1 ++ l2 ++ l3) = count e l2.
Proof.
  intros He H1 H3. rewrite !count_app.
  rewrite (count_Forall_quiet e l1), (count_Forall_quiet e l3) by done. lia.
Qed.

Lemma calls_logs (w : list event) : Forall (λ e, is_log e = true) w → calls w = [].
Proof. intros Hw. induction Hw as [|e w He _ IH]; [done|]. unfold calls in *. simpl. by rewrite He. Qed.

(** What executeRoute does before the chain of [next] is log lines only. *)
Lemma executeRoute_resolved_logs (production : bool) (s s1 : State)
    (instances : list Middleware) (graph : DepGraph) (order : list string) :
  intact s →
  middleware (strate_configuration (context s)) = Some instances →
  resolveMiddleware s = (Ok (graph, order), s1) →
  ∃ before, Forall (λ e, is_log e = true) before ∧
    ∀ handler,
      executeRoute production handler s
      = (next production graph handler order 0 ;; finish)
          {| context := context s; trace := trace s ++ before;
             handlerHasBeenExecuted := false |}.
Proof.
  intros Hs Hm E.
  destruct (resolveMiddleware_spec s instances Hs Hm) as (r & w & E0 & Hw & _).
  rewrite E in E0. injection E0 as <- ->.
  destruct (oblivious_append _ _ _ _ [Debug "Generating middleware graph"]
              oblivious_resolveMiddleware E) as (w' & Ew & E').
  simpl in Ew. apply app_inv_head in Ew as <-.
  set (s2 := rebase (trace s ++ [Debug "Generating middleware graph"] ++ w)
                    (append_trace w s)) in E'.
  assert (intact s2) as Hs2 by done.
  set (line := "Running middleware in the following order: " +:+ String.concat " -> " order).
  set (skipped := "The following middleware were skipped: " +:+
                  String.concat ", "
                    (reference_text <$> default [] (skip (strate_configuration (context s))))).
  exists ([Debug "Generating middleware graph"] ++ w ++ [Debug line] ++
          (if skip_nonempty (strate_configuration (context s)) then [Debug skipped] else [])).
  split.
  { apply Forall_app. split; [by repeat constructor|]. apply Forall_app. split; [done|].
    destruct (skip_nonempty _); by repeat constructor. }
  intros handler.
  unfold executeRoute. rewrite bind_strate_debug by done.
  unfold bind at 1. rewrite E'. cbn [fst snd].
  rewrite bind_strate_debug by done. fold line.
  unfold bind at 1. unfold bind at 1.
  rewrite (strate_record_intact _ (intact_append_trace _ s2 Hs2)).
  change (context (append_trace [Debug line] s2)) with (context s). fold skipped.
  destruct (skip_nonempty (strate_configuration (context s))).
  - match goal with |- context [strate_debug skipped ?st] =>
      rewrite (strate_debug_intact st skipped ltac:(done)) end.
    unfold bind at 1, set_handlerHasBeenExecuted, append_trace. simpl.
    repeat first [rewrite <- app_assoc | rewrite <- app_comm_cons]. reflexivity.
  - unfold ret. unfold bind at 1, set_handlerHasBeenExecuted, append_trace. simpl.
    repeat first [rewrite <- app_assoc | rewrite <- app_comm_cons]. reflexivity.
Qed.

Lemma executeRoute_throws_logs (production : bool) (handler : RouteHandler) (s s1 : State)
    (instances : list Middleware) (e : exn) :
  intact s →
  middleware (strate_configuration (context s)) = Some instances →
  resolveMiddleware s = (Throw e, s1) →
  ∃ before, Forall (λ e, is_log e = true) before ∧
    executeRoute production handler s
    = (Throw e, {| context := context s; trace := trace s ++ before;
                   handlerHasBeenExecuted := handlerHasBeenExecuted s |}).
Proof.
  intros Hs Hm E.
  destruct (resolveMiddleware_spec s instances Hs Hm) as (r & w & E0 & Hw & _).
  rewrite E in E0. injection E0 as <- ->.
  destruct (oblivious_append _ _ _ _ [Debug "Generating middleware graph"]
              oblivious_resolveMiddleware E) as (w' & Ew & E').
  simpl in Ew. apply app_inv_head in Ew as <-.
  exists ([Debug "Generating middleware graph"] ++ w). split.
  { apply Forall_app. split; [by repeat constructor | done]. }
  unfold executeRoute. rewrite bind_strate_debug by done.
  unfold bind at 1. by rewrite E'.
Qed.


(** ** Nested execution *)

Lemma calls_app (t1 t2 : list event) : calls (t1 ++ t2) = calls t1 ++ calls t2.
Proof. apply List.filter_app. Qed.

Lemma calls_marks (labels : list string) : calls (Mark <$> labels) = Mark <$> labels.
Proof.
  induction labels as [|l labels IH]; [done|]. rewrite fmap_cons.
  unfold calls in *. cbn [List.filter is_log negb]. by rewrite IH.
Qed.

(** *** Bodies in parts *)

Lemma bind_assoc {A B C} (c : M A) (f : A → M B) (g : B → M C) (s : State) :
  bind (bind c f) g s = bind c (λ a, bind (f a) g) s.
Proof. unfold bind. by destruct (c s) as [[a|e] s1]. Qed.

Lemma bind_returns {A B} (c : M A) (f : A → M B) (b : B) (s s' : State) :
  bind c f s = (Ok b, s') ↔ ∃ a s1, c s = (Ok a, s1) ∧ f a s1 = (Ok b, s').
Proof.
  unfold bind. destruct (c s) as [[a|e] s1]; split.
  - intros H. by exists a, s1.
  - by intros (a' & s1' & [= -> ->] & H).
  - done.
  - by intros (a' & s1' & [=] & _).
Qed.

Lemma bind_ext {A B} (c : M A) (f g : A → M B) (s : State) :
  (∀ a s1, f a s1 = g a s1) → bind c f s = bind c g s.
Proof. intros H. unfold bind. destruct (c s) as [[a|e] s1]; [apply H | done]. Qed.

Lemma in_sequence_app (l1 l2 : list (M unit)) (s : State) :
  in_sequence (l1 ++ l2) s = (in_sequence l1 ;; in_sequence l2) s.
Proof.
  revert s. induction l1 as [|c l1 IH]; intros s; [reflexivity|].
  cbn [app in_sequence]. rewrite bind_assoc. apply bind_ext. intros _ s1. apply IH.
Qed.

(** The statements of the first part run, then those of the second. *)
Lemma exec_andThen {N} (production : bool) (next : N → M unit) (p : prog Empty_set)
    (q : prog N) (s : State) :
  exec production next (andThen p q) s
  = (run production p ;; exec production next q) s.
Proof.
  unfold run. revert s.
  induction p as [|label k IH|property ok v k IH|property k IH|
    callee code message statusCode k IH|message k IH|k IH|n k IH|e]; intros s;
    cbn [andThen exec]; rewrite ?bind_assoc;
    try (apply bind_ext; intros; apply IH).
  - done.
  - apply IH.
  - destruct n.
  - done.
Qed.

Lemma run_then_return (production : bool) (N : Type) (next : N → M unit)
    (p : prog Empty_set) (s : State) :
  exec production next (andThen p Return) s = run production p s.
Proof.
  rewrite exec_andThen. unfold bind. cbn [exec].
  by destruct (run production p s) as [[[]|e] s1].
Qed.

(** The shipped middleware that await their continuation whatever they
    find are of this form, as is a middleware that has effects around the
    call of its continuation. *)
Lemma ErrorHandler_handle_around (defaultCode defaultMessage : string)
    (defaultStatusCode : Z) :
  ErrorHandler_handle defaultCode defaultMessage defaultStatusCode
  = around (ContextSet "error"
              (VErrorResponder defaultCode defaultMessage defaultStatusCode) Return)
           Return
           (λ err,
              if bool_decide (err = HandledError) then Return
              else NodeEnvIsProduction (λ production,
                     if production
                     then Call (VErrorResponder defaultCode defaultMessage defaultStatusCode)
                               None None None
                     else StrateWarn "An error was thrown:" (Raise err))).
Proof. reflexivity. Qed.

Lemma Validation_handle_around :
  Validation_handle Valid = around (ContextGet "error" (λ _, Return)) Return (λ e, Raise e).
Proof. reflexivity. Qed.

Lemma andThen_effects {N} (labels : list string) (q : prog N) :
  andThen (effects labels Return) q = effects labels q.
Proof. induction labels as [|l labels IH]; [done|]. simpl. by rewrite IH. Qed.

Lemma onion_around (pre post : list string) :
  onion pre post = around (effects pre Return) (effects post Return) (λ e, Raise e).
Proof. unfold onion, around, await_next. by rewrite !andThen_effects. Qed.

Lemma nested_execution_unfold (production : bool) (handler : RouteHandler)
    (pre post : string → prog Empty_set) (order : list string) :
  nested_execution production handler pre post order
  = in_sequence (((λ identity, way_in production (pre identity) identity) <$> order)
                 ++ [run_handler production handler]
                 ++ ((λ identity, run production (post identity)) <$> reverse order)).
Proof. reflexivity. Qed.

(** The chain of [next] over middleware in parts, from any point of the
    order: when the parts return normally as they are run one after the
    other, the first parts in the order, the handler, the last parts in the
    reverse order, the chain does as they do. *)
Lemma next_from_nested (production : bool) (graph : DepGraph) (handler : RouteHandler)
    (pre post : string → prog Empty_set) (catch : string → exn → prog unit)
    (rest : list string) (s s' : State) :
  (∀ n, n ∈ rest →
        truthy n = true ∧
        ∃ m, getNodeData graph n = Ok m ∧
             getMiddlewareName (ArgInstance m) = Ok n ∧
             handle m = around (pre n) (post n) (catch n)) →
  nested_execution production handler pre post rest s = (Ok (), s') →
  next_from production graph handler rest s = (Ok (), s').
Proof.
  revert s s'. induction rest as [|n rest IH]; intros s s' Hrest.
  - rewrite nested_execution_unfold. cbn [fmap list_fmap reverse app in_sequence next_from].
    unfold bind, ret. by destruct (run_handler production handler s) as [[[]|e] s1].
  - destruct (Hrest n ltac:(left)) as (Ht & m & Hm & Hname & Hh).
    rewrite nested_execution_unfold.
    set (f := λ identity, way_in production (pre identity) identity).
    set (g := λ identity, run production (post identity)).
    assert ((f <$> n :: rest) ++ [run_handler production handler]
              ++ (g <$> reverse (n :: rest))
            = f n :: ((f <$> rest) ++ [run_handler production handler]
                        ++ (g <$> reverse rest)) ++ [g n]) as ->.
    { rewrite reverse_cons, fmap_app. cbn. by rewrite <- !app_assoc. }
    cbn [in_sequence]. intros H. apply bind_returns in H as ([] & s1 & Hin & H).
    rewrite in_sequence_app in H. apply bind_returns in H as ([] & s3 & Hrun & Hout).
    unfold f in Hin. unfold g in Hout.
    unfold way_in in Hin.
    apply bind_returns in Hin as ([] & sa & Ha & Hin).
    apply bind_returns in Hin as ([] & sb & Hb & Hin).
    apply bind_returns in Hin as ([] & sc & Hc & Hd).
    apply (IH s1 s3) in Hrun; [|intros x Hx; apply Hrest; by right].
    cbn [next_from]. rewrite Ht, bind_lift, Hm, bind_lift, Hname.
    unfold bind at 1. rewrite Ha. unfold bind at 1. rewrite Hb.
    rewrite Hh. unfold around. rewrite exec_andThen. unfold bind at 1. rewrite Hc.
    cbn [exec]. unfold bind at 1, attempt. unfold bind at 1. rewrite Hd, Hrun.
    rewrite run_then_return.
    cbn [in_sequence] in Hout. apply bind_returns in Hout as ([] & s4 & Hout & H).
    by injection H as <-.
Qed.

(** The flag of executeRoute is set once the flat run has returned. *)
Lemma in_sequence_flag (steps : list (M unit)) (s s' : State) :
  Forall (λ c : M unit, tracks c) steps →
  in_sequence steps s = (Ok (), s') →
  handlerHasBeenExecuted s = true → handlerHasBeenExecuted s' = true.
Proof.
  intros Hsteps. revert s. induction Hsteps as [|c steps Hc _ IH]; intros s.
  - by intros [= ->].
  - cbn [in_sequence]. intros H. apply bind_returns in H as ([] & s1 & E1 & H).
    intros Hf. apply (IH s1 H). destruct (Hc s) as (added & _ & Hflag).
    rewrite E1 in Hflag. apply Hflag. by left.
Qed.

Lemma run_handler_flag (production : bool) (handler : RouteHandler) (s s' : State) :
  run_handler production handler s = (Ok (), s') → handlerHasBeenExecuted s' = true.
Proof.
  intros H. unfold run_handler in H.
  apply bind_returns in H as ([] & s1 & _ & H).
  apply bind_returns in H as ([] & s2 & H2 & H).
  apply bind_returns in H as ([] & s3 & H3 & H).
  injection H2 as <-. injection H3 as <-.
  destruct (tracks_exec production (λ n : Empty_set, match n with end) handler
              ltac:(intros []) (append_trace [Handler]
                 {| context := context s1; trace := trace s1;
                    handlerHasBeenExecuted := true |})) as (added & _ & Hflag).
  rewrite H in Hflag. apply Hflag. by left.
Qed.

Lemma nested_execution_flag (production : bool) (handler : RouteHandler)
    (pre post : string → prog Empty_set) (order : list string) (s s' : State) :
  nested_execution production handler pre post order s = (Ok (), s') →
  handlerHasBeenExecuted s' = true.
Proof.
  rewrite nested_execution_unfold. rewrite in_sequence_app. intros H.
  apply bind_returns in H as ([] & s1 & _ & H). cbn [app in_sequence] in H.
  apply bind_returns in H as ([] & s2 & Hh & H).
  apply run_handler_flag in Hh. revert H Hh. apply in_sequence_flag.
  apply Forall_fmap, Forall_forall. intros n _. apply tracks_exec. intros [].
Qed.


(** *** The calls of the flat run *)

Lemma engine_calls_app (t1 t2 : list event) :
  engine_calls (t1 ++ t2) = engine_calls t1 ++ engine_calls t2.
Proof. apply List.filter_app. Qed.

Lemma engine_calls_quiet (t : list event) : Forall quiet t → engine_calls t = [].
Proof.
  induction 1 as [|e t He _ IH]; [done|]. unfold engine_calls in *. simpl.
  rewrite IH. by destruct e.
Qed.

Lemma run_quiet (production : bool) (p : prog Empty_set) :
  adds (Forall quiet) (run production p).
Proof. apply adds_exec; [apply closed_Forall_quiet | intros []]. Qed.

Lemma way_in_calls (production : bool) (pre : prog Empty_set) (n : string)
    (s s' : State) :
  way_in production pre n s = (Ok (), s') →
  ∃ added, trace s' = trace s ++ added ∧ engine_calls added = [Handle n; Continue n].
Proof.
  intros H. unfold way_in in H.
  apply bind_returns in H as ([] & sa & Ha & H).
  apply bind_returns in H as ([] & sb & Hb & H).
  apply bind_returns in H as ([] & sc & Hc & Hd).
  destruct (adds_strate_debug _ closed_Forall_quiet ("Running: " +:+ n) s)
    as (l1 & E1 & H1).
  destruct (run_quiet production pre sb) as (l2 & E2 & H2).
  rewrite Ha in E1. rewrite Hc in E2. injection Hb as <-. injection Hd as <-.
  cbn [snd] in *. exists (l1 ++ [Handle n] ++ l2 ++ [Continue n]). split.
  - cbn [append_trace trace]. rewrite E2. cbn [append_trace trace]. rewrite E1.
    by rewrite <- !app_assoc.
  - rewrite !engine_calls_app, (engine_calls_quiet l1), (engine_calls_quiet l2) by done.
    reflexivity.
Qed.

Lemma call_handler_calls (production : bool) (handler : RouteHandler) (s s' : State) :
  call_handler production handler s = (Ok (), s') →
  ∃ added, trace s' = trace s ++ added ∧ engine_calls added = [Handler].
Proof.
  intros H. unfold call_handler in H.
  apply bind_returns in H as ([] & sa & Ha & H).
  apply bind_returns in H as ([] & sb & Hb & H).
  apply bind_returns in H as ([] & sc & Hc & Hd).
  destruct (adds_strate_debug _ closed_Forall_quiet "Running route handler" s)
    as (l1 & E1 & H1).
  destruct (run_quiet production handler sc) as (l2 & E2 & H2).
  rewrite Ha in E1. rewrite Hd in E2. injection Hb as <-. injection Hc as <-.
  cbn [snd] in *. exists (l1 ++ [Handler] ++ l2). split.
  - rewrite E2. cbn [append_trace trace]. rewrite E1. by rewrite <- !app_assoc.
  - rewrite !engine_calls_app, (engine_calls_quiet l1), (engine_calls_quiet l2) by done.
    reflexivity.
Qed.

Lemma in_sequence_quiet (steps : list (M unit)) :
  Forall (λ c : M unit, adds (Forall quiet) c) steps →
  adds (Forall quiet) (in_sequence steps).
Proof.
  induction 1 as [|c steps Hc _ IH]; [apply adds_ret; constructor|].
  cbn [in_sequence]. apply adds_bind; [apply closed_Forall_quiet | done | by intros _].
Qed.

(** On its way in the flat run calls each [handle] and then the
    continuation given to it, in the order of the middleware, and the
    handler after the last of them; it makes no such call on its way out. *)
Lemma nested_execution_calls (production : bool) (handler : RouteHandler)
    (pre post : string → prog Empty_set) (order : list string) (s s' : State) :
  nested_execution production handler pre post order s = (Ok (), s') →
  ∃ added,
    trace s' = trace s ++ added ∧
    engine_calls added = flat_map (λ n, [Handle n; Continue n]) order ++ [Handler].
Proof.
  unfold nested_execution. revert s.
  induction order as [|n order IH] using rev_ind; intros s.
  - cbn [fmap list_fmap reverse app in_sequence flat_map]. intros H.
    apply bind_returns in H as ([] & s1 & H & [= <-]).
    exact (call_handler_calls production handler s s1 H).
  - rewrite reverse_app, !fmap_app. cbn [reverse fmap list_fmap app].
    rewrite reverse_singleton. cbn [app fmap list_fmap].
    rewrite <- app_assoc, in_sequence_app. intros H.
    apply bind_returns in H as ([] & s1 & Hin & H).
    cbn [app in_sequence] in H.
    apply bind_returns in H as ([] & s2 & Hn & H).
    apply bind_returns in H as ([] & s3 & Hh & H).
    apply bind_returns in H as ([] & s4 & Ho & Hrest).
    (* the way in through the other middleware, as in the run without [n] *)
    assert (∃ l0, trace s1 = trace s ++ l0 ∧
                  engine_calls l0 = flat_map (λ n, [Handle n; Continue n]) order)
      as (l0 & E0 & H0).
    { clear -Hin. revert s Hin. induction order as [|x order IHo]; intros s Hin.
      - injection Hin as <-. exists []. by rewrite app_nil_r.
      - cbn [fmap list_fmap in_sequence] in Hin.
        apply bind_returns in Hin as ([] & sx & Hx & Hin).
        apply way_in_calls in Hx as (lx & Ex & Hx).
        destruct (IHo sx Hin) as (l0 & E0 & H0). exists (lx ++ l0). split.
        + by rewrite E0, Ex, app_assoc.
        + by rewrite engine_calls_app, Hx, H0. }
    apply way_in_calls in Hn as (ln & En & Hn).
    apply call_handler_calls in Hh as (lh & Eh & Hh).
    destruct (run_quiet production (post n) s3) as (lo & Eo & Hlo). rewrite Ho in Eo.
    destruct (in_sequence_quiet ((λ identity, run production (post identity))
                                   <$> reverse order)) with (s := s4)
      as (lr & Er & Hlr).
    { apply Forall_fmap, Forall_forall. intros x _. apply run_quiet. }
    rewrite Hrest in Er. cbn [snd] in *.
    exists (l0 ++ ln ++ lh ++ lo ++ lr). split.
    + rewrite Er, Eo, Eh, En, E0. by rewrite <- !app_assoc.
    + rewrite !engine_calls_app, H0, Hn, Hh, (engine_calls_quiet lo),
        (engine_calls_quiet lr) by done.
      rewrite flat_map_app. cbn [flat_map]. by rewrite !app_nil_r, <- !app_assoc.
Qed.

Lemma oblivious_in_sequence (steps : list (M unit)) :
  Forall (λ c : M unit, oblivious c) steps → oblivious (in_sequence steps).
Proof.
  induction 1 as [|c steps Hc _ IH]; [apply oblivious_ret|].
  cbn [in_sequence]. by apply oblivious_bind.
Qed.

Lemma oblivious_nested_execution (production : bool) (handler : RouteHandler)
    (pre post : string → prog Empty_set) (order : list string) :
  oblivious (nested_execution production handler pre post order).
Proof.
  rewrite nested_execution_unfold.
  apply oblivious_in_sequence. apply Forall_app. split; [|apply Forall_app; split].
  - apply Forall_fmap, Forall_forall. intros n _. unfold way_in.
    apply oblivious_bind; [apply oblivious_strate_debug|]. intros _.
    apply oblivious_bind; [apply oblivious_emit|]. intros _.
    apply oblivious_bind; [apply oblivious_exec; intros []|]. intros _.
    apply oblivious_emit.
  - repeat constructor. apply oblivious_run_handler.
  - apply Forall_fmap, Forall_forall. intros n _. apply oblivious_exec. intros [].
Qed.



(** At the middleware A and B of the example, B depending on A, and a
    handler that returns: the calls of the invocation, in order.  With no
    middleware the handler runs directly; with one, its first effects come
    before the handler and its last effects after. *)
Example executeRoute_nested_example :
  let run instances :=
    executeRoute false (effects ["handler"] Return)
      (initial_state (with_middleware instances)) in
  (run [middleware_B; middleware_A]).1 = Ok () ∧
  calls (trace (run [middleware_B; middleware_A]).2)
  = [Handle "App.A"; Mark "A-pre"; Continue "App.A";
     Handle "App.B"; Mark "B-pre"; Continue "App.B";
     Handler; Mark "handler"; Mark "B-post"; Mark "A-post"] ∧
  calls (trace (run []).2) = [Handler; Mark "handler"] ∧
  calls (trace (run [middleware_A]).2)
  = [Handle "App.A"; Mark "A-pre"; Continue "App.A"; Handler; Mark "handler";
     Mark "A-post"].
Proof. repeat split; vm_compute; reflexivity. Qed.

(** ** The handler and the continuations *)

(** *** While [context.strate] is in place *)

Lemma adds_intact_of {A} (P : list event → Prop) (c : M A) :
  adds P c → (∀ s, intact s → intact (c s).2) → adds_intact P c.
Proof. intros Hc Hi s Hs. destruct (Hc s) as (added & E & H). eauto. Qed.

Lemma adds_intact_bind {A B} (P Q R : list event → Prop) (c : M A) (f : A → M B) :
  (∀ l1 l2, P l1 → Q l2 → R (l1 ++ l2)) →
  (∀ l1, P l1 → R l1) →
  adds_intact P c → (∀ a, adds_intact Q (f a)) → adds_intact R (bind c f).
Proof.
  intros Happ Hone Hc Hf s Hs. unfold bind.
  destruct (Hc s Hs) as (l1 & E1 & H1 & Hs1). destruct (c s) as [[a|e] s1]; simpl in *.
  - destruct (Hf a s1 Hs1) as (l2 & E2 & H2 & Hs2). exists (l1 ++ l2).
    split; [by rewrite E2, E1, app_assoc|]. split; [by apply Happ | done].
  - eauto.
Qed.

Lemma adds_intact_attempt {A} (P : list event → Prop) (c : M A) :
  adds_intact P c → adds_intact P (attempt c).
Proof.
  intros Hc s Hs. unfold attempt. destruct (Hc s Hs) as (l & E & H & Hs1).
  destruct (c s) as [r s1]. simpl in *. eauto.
Qed.

Lemma intact_proxy_set (property : string) `{!NotReserved property} (v : value)
    (s : State) :
  property ≠ "strate" → intact s → intact (proxy_set property v s).2.
Proof.
  intros Hne Hs. destruct (proxy_set_target s property v) as (w & -> & _).
  unfold intact. cbn [snd context target]. by rewrite lookup_insert_ne.
Qed.

Lemma intact_proxy_get (property : string) (s : State) :
  intact s → intact (proxy_get property s).2.
Proof.
  intros Hs. unfold proxy_get, bind, get_target, emit, ret. cbn.
  by destruct (hasOwnProperty _ _).
Qed.

Lemma intact_call_value (callee : value) (code message : option string)
    (statusCode : option Z) (s : State) :
  intact s → intact (call_value callee code message statusCode s).2.
Proof.
  intros Hs. destruct callee as [| | |member]; try done.
  simpl. by destruct (returns_without_receiver member).
Qed.

Section Intact.
Context (P : list event → Prop) (HP : closed P).

(** A body that does not assign to [context.strate] leaves it in place when
    the calls of its continuation do. *)
Lemma adds_intact_exec {N} (production : bool) (next : N → M unit) (p : prog N) :
  spares_strate p →
  (∀ n, adds_intact P (next n)) → adds_intact P (exec production next p).
Proof.
  intros Hp Hnext.
  induction Hp as [|label k Hk IH|property ok v k Hne Hk IH|property k Hk IH|
    callee code message statusCode k Hk IH|message k Hk IH|k Hk IH|n k Hk IH|e];
    cbn [exec].
  - apply adds_intact_of; [apply adds_ret, HP | done].
  - apply (adds_intact_bind P P P); [apply HP | done | | intros _; exact IH].
    apply adds_intact_of; [apply adds_emit, HP; exact I | done].
  - apply (adds_intact_bind P P P); [apply HP | done | | intros _; exact IH].
    apply adds_intact_of; [by apply adds_proxy_set|]. intros s. by apply intact_proxy_set.
  - apply (adds_intact_bind P P P); [apply HP | done | | intros w; exact (IH w)].
    apply adds_intact_of; [by apply adds_proxy_get|]. intros s. apply intact_proxy_get.
  - apply (adds_intact_bind P P P); [apply HP | done | | intros _; exact IH].
    apply adds_intact_of; [by apply adds_call_value|]. intros s. apply intact_call_value.
  - apply (adds_intact_bind P P P); [apply HP | done | | intros _; exact IH].
    apply adds_intact_of; [by apply adds_strate_warn|]. intros s Hs.
    by rewrite strate_warn_intact.
  - apply IH.
  - apply (adds_intact_bind P P P); [apply HP | done | | intros r; exact (IH r)].
    apply adds_intact_attempt, Hnext.
  - apply adds_intact_of; [apply adds_throw, HP | done].
Qed.
End Intact.

Lemma closed_eq (e1 e2 : event) :
  ¬ quiet e1 → ¬ quiet e2 → closed (λ l, count e1 l = count e2 l).
Proof.
  intros H1 H2. split.
  - done.
  - intros q Hq. by rewrite (count_quiet e1 q), (count_quiet e2 q).
  - intros l1 l2 E1 E2. rewrite !count_app. lia.
Qed.

Section ChainIntact.
Context (production : bool) (graph : DepGraph) (handler : RouteHandler).
Context (Hhandler : spares_strate handler).

(** The last branch of [next], taken while [context.strate] is in place:
    it writes its debug line and calls the handler. *)
Lemma run_handler_intact (P : list event → Prop) (s : State) :
  closed P → intact s →
  ∃ added,
    trace (run_handler production handler s).2
    = trace s ++ [Debug "Running route handler"; Handler] ++ added ∧
    P added ∧ intact (run_handler production handler s).2.
Proof.
  intros HP Hs. unfold run_handler. rewrite bind_strate_debug by done.
  set (s1 := append_trace [Handler]
               {| context := context s;
                  trace := trace (append_trace [Debug "Running route handler"] s);
                  handlerHasBeenExecuted := true |}).
  change ((set_handlerHasBeenExecuted true ;; emit Handler ;;
           exec production (λ n : Empty_set, match n with end) handler)
            (append_trace [Debug "Running route handler"] s))
    with (exec production (λ n : Empty_set, match n with end) handler s1).
  destruct (adds_intact_exec P HP production (λ n : Empty_set, match n with end)
              handler Hhandler ltac:(intros []) s1 ltac:(done))
    as (added & E & H & Hs').
  exists added. split; [|done]. rewrite E. unfold s1. simpl.
  by rewrite <- !app_assoc.
Qed.

(** The first branch of [next], taken while [context.strate] is in place:
    it writes its debug line, calls the [handle] of the middleware, and the
    body of that [handle] runs. *)
Lemma next_from_cons_intact (P : list event → Prop) (n : string) (rest : list string)
    (s : State) :
  closed P → sparing_nodes graph [n] →
  adds_intact P (emit (Continue n) ;; next_from production graph handler rest) →
  intact s →
  ∃ name added,
    trace (next_from production graph handler (n :: rest) s).2
    = trace s ++ [Debug ("Running: " +:+ name); Handle n] ++ added ∧
    P added ∧ intact (next_from production graph handler (n :: rest) s).2.
Proof.
  intros HP Hn Hk Hs. destruct (Hn n ltac:(left)) as (Ht & m & name & Hm & Hname & Hsp).
  cbn [next_from]. rewrite Ht, bind_lift, Hm, bind_lift, Hname.
  rewrite bind_strate_debug by done. unfold bind at 1, emit at 1.
  destruct (adds_intact_exec P HP production _ (handle m) Hsp (λ _, Hk)
              (append_trace [Handle n] (append_trace [Debug ("Running: " +:+ name)] s))
              ltac:(done)) as (added & E & H & Hs').
  exists name, added. split; [|done]. rewrite E. simpl. by rewrite <- !app_assoc.
Qed.

Lemma next_from_cons_adds_intact (P : list event → Prop) (n : string)
    (rest : list string) :
  closed P → P [Handle n] → sparing_nodes graph [n] →
  adds_intact P (emit (Continue n) ;; next_from production graph handler rest) →
  adds_intact P (next_from production graph handler (n :: rest)).
Proof.
  intros HP Hh Hn Hk s Hs.
  destruct (next_from_cons_intact P n rest s HP Hn Hk Hs) as (name & added & E & H & Hs').
  eexists. split; [exact E|]. split; [|done].
  change ([Debug ("Running: " +:+ name); Handle n] ++ added)
    with ([Debug ("Running: " +:+ name)] ++ [Handle n] ++ added).
  apply HP; [by apply HP|]. by apply HP.
Qed.

Lemma sparing_nodes_cons (n : string) (rest : list string) :
  sparing_nodes graph (n :: rest) → sparing_nodes graph [n] ∧ sparing_nodes graph rest.
Proof.
  intros H. split; intros x Hx; apply H.
  - apply list_elem_of_singleton in Hx as ->. left.
  - by right.
Qed.

(** The chain keeps [context.strate] in place, and what it appends satisfies
    a closed property that holds of the calls it makes. *)
Lemma next_from_adds_intact (P : list event → Prop) (rest : list string) :
  closed P → P [Handler] →
  (∀ n, n ∈ rest → P [Handle n] ∧ P [Continue n]) →
  sparing_nodes graph rest →
  adds_intact P (next_from production graph handler rest).
Proof.
  intros HP Hh. induction rest as [|n rest IH]; intros Hcalls Hnodes.
  - intros s Hs. destruct (run_handler_intact P s HP Hs) as (added & E & H & Hs').
    eexists. split; [exact E|]. split; [|done].
    change ([Debug "Running route handler"; Handler] ++ added)
      with ([Debug "Running route handler"] ++ [Handler] ++ added).
    apply HP; [by apply HP|]. by apply HP.
  - apply sparing_nodes_cons in Hnodes as [Hn Hnodes].
    apply next_from_cons_adds_intact; [done | apply Hcalls; left | done |].
    apply (adds_intact_bind P P P); [apply HP | done | |].
    + apply adds_intact_of; [apply adds_emit, Hcalls; left | done].
    + intros _. apply IH; [|done]. intros x Hx. apply Hcalls. by right.
Qed.

(** [next], called while [context.strate] is in place, makes its first call
    exactly once. *)
Lemma next_from_first_exactly (rest : list string) :
  NoDup rest → sparing_nodes graph rest →
  adds_intact (λ l, count (first_call rest) l = 1)
              (next_from production graph handler rest).
Proof.
  destruct rest as [|b rest]; intros Hnd Hnodes s Hs.
  - assert (closed (λ l, count Handler l = 0)) as H0 by (apply closed_none; cbn; tauto).
    destruct (run_handler_intact _ s H0 Hs) as (added & E & H & Hs').
    eexists. split; [exact E|]. split; [|done]. cbn [first_call].
    rewrite count_app, H. reflexivity.
  - apply NoDup_cons in Hnd as [Hb Hnd].
    apply sparing_nodes_cons in Hnodes as [Hn Hnodes].
    assert (closed (λ l, count (Handle b) l = 0)) as H0 by (apply closed_none; cbn; tauto).
    destruct (next_from_cons_intact _ b rest s H0 Hn) as (name & added & E & H & Hs');
      [|done|].
    + apply (adds_intact_bind _ _ _ _ _ (closed_app _ H0)); [done| |].
      * apply adds_intact_of; [apply adds_emit; by apply count_single_ne | done].
      * intros _. apply next_from_adds_intact; [done | by apply count_single_ne | | done].
        intros x Hx. split; apply count_single_ne; [|done]. intros [= ->]. done.
    + eexists. split; [exact E|]. split; [|done]. cbn [first_call].
      rewrite count_app, H. cbn [count_occ].
      destruct (event_eq_dec (Debug ("Running: " +:+ name)) (Handle b)); [done|].
      by destruct (event_eq_dec (Handle b) (Handle b)).
Qed.

(** Each invocation of the continuation of a middleware makes the first call
    of the rest of the chain exactly once, while [context.strate] is in
    place. *)
Lemma next_from_resumes_exactly (before : list string) (a : string) (rest : list string) :
  NoDup (before ++ a :: rest) →
  sparing_nodes graph (before ++ a :: rest) →
  adds_intact (λ l, count (first_call rest) l = count (Continue a) l)
              (next_from production graph handler (before ++ a :: rest)).
Proof.
  assert (¬ quiet (first_call rest)) as Hq by (destruct rest; cbn; tauto).
  assert (¬ quiet (Continue a)) as Hqa by (cbn; tauto).
  pose proof (closed_eq (first_call rest) (Continue a) Hq Hqa) as HP.
  assert (first_call rest ≠ Continue a) as Hne by (by destruct rest).
  induction before as [|x before IH]; intros Hnd Hnodes.
  - cbn [app] in *. apply NoDup_cons in Hnd as [Ha Hnd].
    apply sparing_nodes_cons in Hnodes as [Hn Hnodes].
    apply next_from_cons_adds_intact; [done | | done |].
    + rewrite !count_single_ne; [done | done |]. destruct rest as [|b rest]; [done|].
      intros [= ->]. apply Ha. left.
    + intros s Hs. unfold bind, emit.
      assert (intact (append_trace [Continue a] s)) as Hs1 by done.
      destruct (next_from_first_exactly rest Hnd Hnodes _ Hs1) as (l & E & H1 & Hs').
      assert (closed (λ l, count (Continue a) l = 0)) as H0
        by (apply closed_none; cbn; tauto).
      destruct (next_from_adds_intact _ rest H0 ltac:(done)
                  ltac:(intros n Hin; split; apply count_single_ne; [done|];
                        intros [= ->]; done) Hnodes _ Hs1)
        as (l' & E' & H2 & _).
      rewrite E in E'. apply app_inv_head in E' as <-.
      exists (Continue a :: l). split; [|split; [|done]].
      * rewrite E. simpl. by rewrite <- app_assoc.
      * change (Continue a :: l) with ([Continue a] ++ l).
        rewrite !count_app, H1, H2, count_single_eq, count_single_ne by done. done.
  - cbn [app] in *. apply NoDup_cons in Hnd as [Hx Hnd].
    apply sparing_nodes_cons in Hnodes as [Hn Hnodes].
    apply next_from_cons_adds_intact; [done | | done |].
    + rewrite !count_single_ne; [done | done |]. destruct rest as [|b rest]; [done|].
      intros [= ->]. apply Hx. apply elem_of_app. right. right. left.
    + apply (adds_intact_bind _ _ _ _ _ (closed_app _ HP)); [done| |].
      * apply adds_intact_of; [|done]. apply adds_emit.
        rewrite (count_single_ne (first_call rest) (Continue x)),
                (count_single_ne (Continue a) (Continue x)); [done| |by destruct rest].
        intros [= ->]. apply Hx. apply elem_of_app. right. left.
      * intros _. by apply IH.
Qed.
End ChainIntact.


(** Once a middleware has overwritten [context.strate], the invocation of
    its continuation throws before it starts the rest of the chain: [next]
    calls [context.strate.debug] first. *)
Example continuation_without_strate :
  let r := executeRoute false Return (initial_state (with_middleware [eraser])) in
  r.1 = Throw (TypeError "Cannot read properties of undefined") ∧
  count (Continue "App.Eraser") (trace r.2) = 1 ∧
  count Handler (trace r.2) = 0.
Proof. repeat split; vm_compute; reflexivity. Qed.



(** * Further properties *)

(** ** Identities *)

Lemma append_inj_l (a b c : string) : a +:+ b = a +:+ c → b = c.
Proof.
  induction a as [|x a IH]; [done|]. rewrite !append_cons. intros [=]. by apply IH.
Qed.

Lemma length_append (a b : string) :
  String.length (a +:+ b) = String.length a + String.length b.
Proof. induction a as [|x a IH]; [done|]. rewrite append_cons. simpl. by rewrite IH. Qed.

(** The identity of an instance is the text of a local variable that
    depends on its class only, followed by its id or else its class name. *)
Lemma getMiddlewareName_instance (m : Middleware) :
  getMiddlewareName (ArgInstance m) =
  let prefix := match namespace (constructor m) with
                | Some ns => if truthy ns then JSString (ns +:+ ".") else JSUndefined
                | None => JSUndefined
                end in
  match id m with
  | Some IdPromise => Throw (Error (async_id_message (name (constructor m))))
  | Some (IdString s) => Ok (js_plus prefix (if truthy s then s else name (constructor m)))
  | None => Ok (js_plus prefix (name (constructor m)))
  end.
Proof. reflexivity. Qed.

Lemma js_plus_inj (prefix : js_string) (a b : string) :
  js_plus prefix a = js_plus prefix b → a = b.
Proof. destruct prefix; simpl; apply append_inj_l. Qed.

(** X1: two instances of one class whose id() methods return non-empty
    strings both have an identity, and the two identities are equal exactly
    when the two strings are: id() is what tells instances of a class
    apart. *)
Theorem getMiddlewareName_id_distinguishes (m1 m2 : Middleware) (s1 s2 : string) :
  constructor m1 = constructor m2 →
  id m1 = Some (IdString s1) → id m2 = Some (IdString s2) →
  truthy s1 = true → truthy s2 = true →
  ∃ n1 n2, getMiddlewareName (ArgInstance m1) = Ok n1 ∧
           getMiddlewareName (ArgInstance m2) = Ok n2 ∧
           (n1 = n2 ↔ s1 = s2).
Proof.
  intros Hc H1 H2 Ht1 Ht2. rewrite !getMiddlewareName_instance. cbv zeta.
  rewrite H1, H2, Ht1, Ht2, Hc. eexists _, _. split; [done|]. split; [done|].
  split; [apply js_plus_inj | by intros ->].
Qed.

Lemma getMiddlewareName_id_distinguishes_witness :
  ∃ n1 n2, getMiddlewareName (ArgInstance (tenant "eu")) = Ok n1 ∧
           getMiddlewareName (ArgInstance (tenant "us")) = Ok n2 ∧
           (n1 = n2 ↔ "eu" = "us").
Proof.
  apply (getMiddlewareName_id_distinguishes (tenant "eu") (tenant "us") "eu" "us");
    reflexivity.
Defined.

(** X2: for an instance without an id() method, the identity of the
    instance is the identity that a reference to its class resolves to
    exactly when the class declares a non-empty namespace. *)
Theorem getMiddlewareName_class_reference (m : Middleware) :
  id m = None →
  (getMiddlewareName (ArgInstance m) = getMiddlewareName (ArgClass (constructor m))
   ↔ ∃ ns, namespace (constructor m) = Some ns ∧ truthy ns = true).
Proof.
  intros Hid. rewrite getMiddlewareName_instance, getMiddlewareName_class, Hid. cbv zeta.
  assert (Ok (js_plus JSUndefined (name (constructor m))) ≠ Ok (name (constructor m)))
    as Hne.
  { intros [= E]. apply (f_equal String.length) in E. simpl in E.
    rewrite length_append in E. simpl in E. lia. }
  destruct (namespace (constructor m)) as [ns|].
  - destruct (truthy ns) eqn:Et.
    + simpl. rewrite append_assoc. split; [eauto | done].
    + split; [done|]. intros (ns' & [= <-] & Ht). congruence.
  - split; [done|]. by intros (ns' & [=] & _).
Qed.

Lemma getMiddlewareName_class_reference_witness :
  getMiddlewareName (ArgInstance middleware_A) = getMiddlewareName (ArgClass A_class).
Proof.
  apply (proj2 (getMiddlewareName_class_reference middleware_A eq_refl)).
  exists "App". split; reflexivity.
Defined.

(** ** The context object *)

(** X3: on the context object, a value that was assigned to a key (any key
    but [__proto__] and [hasOwnProperty]) is what a read of that key yields
    next, with no warning and nothing else changed; and the assignment leaves
    every other key as it was, present or absent, with the value a read of
    it yields. *)
Theorem context_set_then_get (s : State) (property other : string)
    `{!NotReserved property} (v : value) :
  let s' := (proxy_set property v s).2 in
  proxy_get property s' = (Ok v, s') ∧
  (other ≠ property →
   hasOwnProperty (target (context s')) other = hasOwnProperty (target (context s)) other ∧
   (proxy_get other s').1 = (proxy_get other s).1).
Proof.
  intros s'.
  assert (target (context s') = <[property := v]> (target (context s))) as Ht.
  { unfold s'. by destruct (proxy_set_target s property v) as (w & -> & _). }
  split.
  - apply proxy_get_present. rewrite own_not_reserved by done. rewrite Ht.
    apply lookup_insert_eq.
  - intros Hne.
    assert (own (target (context s')) other = own (target (context s)) other) as Hl
      by (unfold own; rewrite Ht; destruct (reserved other); [done|];
          by apply lookup_insert_ne).
    assert (hasOwnProperty (target (context s')) other
            = hasOwnProperty (target (context s)) other) as Hh
      by (unfold hasOwnProperty; by rewrite Hl).
    split; [done|].
    unfold proxy_get, bind, get_target, emit, ret, Reflect_get. cbn [fst snd].
    rewrite Hh, Hl.
    by destruct (hasOwnProperty (target (context s)) other).
Qed.

Lemma context_set_then_get_witness :
  let s := initial_state DefaultConfiguration in
  let s' := (proxy_set "user" (VData DUndefined) s).2 in
  proxy_get "user" s' = (Ok (VData DUndefined), s') ∧
  ("strate" ≠ "user" →
   hasOwnProperty (target (context s')) "strate" = hasOwnProperty (target (context s)) "strate" ∧
   (proxy_get "strate" s').1 = (proxy_get "strate" s).1).
Proof.
  exact (context_set_then_get (initial_state DefaultConfiguration) "user" "strate"
           (VData DUndefined)).
Defined.

(** ** Loading the configuration *)

Lemma result_map_references (references : list Reference) :
  ∃ names,
    result_map (λ r, getMiddlewareName (arg_of_reference r)) references = Ok names ∧
    Forall2 (λ r n, getMiddlewareName (arg_of_reference r) = Ok n) references names.
Proof.
  induction references as [|r references (names & E & H)]; [by exists []|].
  destruct (reference_name r) as [n Hn]. exists (n :: names). simpl.
  rewrite Hn, E. split; [done|]. by constructor.
Qed.

Lemma getMiddlewareName_instance_throws (m : Middleware) (e : exn) :
  getMiddlewareName (ArgInstance m) = Throw e ↔
  id m = Some IdPromise ∧ e = Error (async_id_message (name (constructor m))).
Proof.
  rewrite getMiddlewareName_instance. cbv zeta.
  destruct (id m) as [[s|]|]; split; try done; try by intros [[=] _].
  - by intros [= <-].
  - by intros [_ ->].
Qed.

(** What filtering with the skip list keeps or throws. *)
Lemma result_filter_skip (names : list string) (instances : list Middleware) :
  match result_filter
          (λ m, match getMiddlewareName (ArgInstance m) with
                | Ok n => Ok (negb (bool_decide (n ∈ names)))
                | Throw e => Throw e
                end) instances with
  | Ok kept =>
      kept `sublist_of` instances ∧
      ∀ m, m ∈ instances → ∃ n, identity_of m n ∧ (m ∈ kept ↔ n ∉ names)
  | Throw e => ∃ m, m ∈ instances ∧ getMiddlewareName (ArgInstance m) = Throw e
  end.
Proof.
  induction instances as [|m instances IH]; simpl.
  - split; [done|]. intros m Hm. by apply elem_of_nil in Hm.
  - destruct (getMiddlewareName (ArgInstance m)) as [n|e] eqn:En.
    2:{ exists m. split; [left | done]. }
    destruct (result_filter _ instances) as [kept|e].
    2:{ destruct IH as (m' & Hin & E). exists m'. split; [by right | done]. }
    destruct IH as [Hsub Hkept].
    assert (∀ m', m' ∈ kept → ∃ n', identity_of m' n' ∧ n' ∉ names) as Hin.
    { intros m' Hm'. assert (m' ∈ instances) as Hi by (by eapply elem_of_sublist).
      destruct (Hkept m' Hi) as (n' & Hn' & Hiff). exists n'. split; [done|].
      by apply Hiff. }
    case_bool_decide as Hs; simpl.
    + split; [by apply sublist_cons|]. intros m' [->|Hm']%elem_of_cons.
      * exists n. split; [done|]. split; [|done]. intros Hk.
        destruct (Hin _ Hk) as (n' & Hn' & Hnot). unfold identity_of in Hn'. congruence.
      * apply Hkept, Hm'.
    + split; [by apply sublist_skip|]. intros m' [->|Hm']%elem_of_cons.
      * exists n. split; [done|]. split; [done | intros; left].
      * destruct (Hkept m' Hm') as (n' & Hn' & Hiff). exists n'. split; [done|].
        rewrite elem_of_cons. split; [|by intros; right; apply Hiff].
        intros [->|Hk]; [|by apply Hiff].
        unfold identity_of in Hn'. congruence.
Qed.

(** X4: loadConfiguration returns a configuration exactly when no listed
    instance has an async id() method.  When one has, the call throws the
    error of such an instance, which names its class, and the store is left
    as it was. *)
Theorem loadConfiguration_async_id (base route : location) (h : heap)
    (baseObject routeObject : StrateConfiguration) :
  h !! base = Some baseObject → h !! route = Some routeObject →
  ((∀ m, m ∈ listed baseObject routeObject → id m ≠ Some IdPromise) →
   ∃ l h', loadConfiguration base route h = (Ok l, h')) ∧
  (∀ m, m ∈ listed baseObject routeObject → id m = Some IdPromise →
   ∃ m', m' ∈ listed baseObject routeObject ∧ id m' = Some IdPromise ∧
         loadConfiguration base route h
         = (Throw (Error (async_id_message (name (constructor m')))), h)).
Proof.
  intros Hb Hr. unfold loadConfiguration. rewrite Hb, Hr.
  destruct (result_map_references (default [] (skip routeObject))) as (names & -> & _).
  pose proof (result_filter_skip names (listed baseObject routeObject)) as Hf.
  unfold listed in *. destruct (result_filter _ _) as [kept|e].
  - destruct Hf as [_ Hkept]. split; [by eauto|].
    intros m Hm Hid. destruct (Hkept m Hm) as (n & Hn & _).
    unfold identity_of in Hn. rewrite getMiddlewareName_instance in Hn. cbv zeta in Hn.
    by rewrite Hid in Hn.
  - destruct Hf as (m' & Hm' & [Hid ->]%getMiddlewareName_instance_throws). split.
    + intros Hall. by destruct (Hall m' Hm').
    + intros _ _ _. by exists m'.
Qed.

Lemma loadConfiguration_async_id_witness :
  ∃ m', m' ∈ listed DefaultConfiguration (with_middleware [middleware_A; lazy]) ∧
        id m' = Some IdPromise ∧
        loadConfiguration defaultConfiguration 2%positive
          (route_heap (with_middleware [middleware_A; lazy]))
        = (Throw (Error (async_id_message (name (constructor m')))),
           route_heap (with_middleware [middleware_A; lazy])).
Proof.
  assert (route_heap (with_middleware [middleware_A; lazy]) !! defaultConfiguration
          = Some DefaultConfiguration) as H1 by (vm_compute; reflexivity).
  assert (route_heap (with_middleware [middleware_A; lazy]) !! 2%positive
          = Some (with_middleware [middleware_A; lazy])) as H2 by (vm_compute; reflexivity).
  apply (proj2 (loadConfiguration_async_id _ _ _ _ _ H1 H2) lazy).
  - unfold listed. simpl. right. left.
  - reflexivity.
Defined.



(** X6: a skip list on the base configuration is never applied: two base
    configurations that have the same debug flag and the same middleware
    list give the same loaded configuration with every route configuration,
    whatever their skip lists. *)
Theorem loadConfiguration_base_skip_ignored (base base' route : location) (h : heap)
    (baseObject baseObject' : StrateConfiguration) :
  h !! base = Some baseObject → h !! base' = Some baseObject' →
  debug baseObject = debug baseObject' →
  middleware baseObject = middleware baseObject' →
  loaded (loadConfiguration base route h) = loaded (loadConfiguration base' route h).
Proof.
  intros Hb Hb' Hd Hm. destruct (h !! route) as [routeObject|] eqn:Hr.
  - rewrite (loadConfiguration_loaded _ _ _ _ _ Hb Hr),
            (loadConfiguration_loaded _ _ _ _ _ Hb' Hr).
    unfold merge_configurations. by rewrite Hd, Hm.
  - unfold loadConfiguration. by rewrite Hb, Hb', Hr.
Qed.

Lemma loadConfiguration_base_skip_ignored_witness :
  loaded (loadConfiguration 2%positive 3%positive
            (<[4%positive := {| debug := Some true;
                                middleware := Some [middleware_A; ErrorHandler_default];
                                skip := None |}]> base_heap))
  = loaded (loadConfiguration 4%positive 3%positive
              (<[4%positive := {| debug := Some true;
                                  middleware := Some [middleware_A; ErrorHandler_default];
                                  skip := None |}]> base_heap)).
Proof.
  apply (loadConfiguration_base_skip_ignored 2%positive 4%positive 3%positive _
           base_with_skip
           {| debug := Some true; middleware := Some [middleware_A; ErrorHandler_default];
              skip := None |});
    vm_compute; reflexivity.
Defined.

(** ** The loggers *)

(** X7: the loggers of createLoggers print nothing, whatever they are
    called with and however often, unless the debug flag of the
    configuration is true; when it is true they print one line for each call
    of a logger. *)
Theorem createLoggers_print_only_in_debug (configuration : StrateConfiguration)
    (t : list event) :
  length (console configuration t)
  = if debug_enabled configuration then length (List.filter is_log t) else 0.
Proof.
  unfold console. induction t as [|e t IH]; [by destruct (debug_enabled _)|].
  destruct e; cbn [omap list_omap console_line List.filter is_log];
    destruct (debug_enabled configuration); simpl; by rewrite ?IH.
Qed.

(** ** Reading the seeded record *)

(** Reading [context.strate] returns only when the seeded record is there. *)
Lemma strate_record_returns (s s' : State) (configuration : StrateConfiguration) :
  strate_record s = (Ok configuration, s') → intact s ∧ s' = s.
Proof.
  intros H. unfold intact. destruct (target (context s) !! "strate") as [v|] eqn:E.
  - unfold strate_record, bind in H. rewrite (proxy_get_present s "strate" v E) in H.
    destruct v as [[]| | |]; simpl in H; try done. split; [done | congruence].
  - unfold strate_record, bind in H. rewrite (proxy_get_absent s "strate" E) in H.
    done.
Qed.

Lemma strate_debug_returns (message : string) (s s' : State) :
  strate_debug message s = (Ok (), s') → s' = append_trace [Debug message] s.
Proof.
  intros H. unfold strate_debug, bind in H.
  destruct (strate_record s) as [[configuration|e] s1] eqn:E; [|done].
  apply strate_record_returns in E as [_ ->]. unfold emit in H. congruence.
Qed.

Lemma strate_warn_returns (message : string) (s s' : State) :
  strate_warn message s = (Ok (), s') → s' = append_trace [Warn message] s.
Proof.
  intros H. unfold strate_warn, bind in H.
  destruct (strate_record s) as [[configuration|e] s1] eqn:E; [|done].
  apply strate_record_returns in E as [_ ->]. unfold emit in H. congruence.
Qed.

(** X8: when executeRoute returns normally, the last thing it did is a call
    of a logger: of debug with the line of a successful execution when the
    handler was called during the invocation, of warn with the line about an
    early response when it was not. *)
Theorem executeRoute_early_response (production : bool) (handler : RouteHandler)
    (s s' : State) (instances : list Middleware) :
  intact s →
  middleware (strate_configuration (context s)) = Some instances →
  executeRoute production handler s = (Ok (), s') →
  ∃ added,
    trace s' = trace s ++ added ∧
    last added = Some (if bool_decide (Handler ∈ added)
                       then Debug finished_message
                       else Warn early_response_message).
Proof.
  intros Hs Hm Hexec. destruct (resolveMiddleware s) as [[[graph order]|e] s1] eqn:E.
  2:{ destruct (executeRoute_throws production handler s s1 instances e Hs Hm E)
        as (before & _ & Et). congruence. }
  destruct (executeRoute_resolved production handler s s1 instances graph order Hs Hm E)
    as (before & Hbefore & Eexec).
  rewrite Eexec in Hexec. clear Eexec. unfold bind at 1 in Hexec.
  set (s2 := {| context := context s; trace := trace s ++ before;
                handlerHasBeenExecuted := false |}) in Hexec.
  destruct (tracks_next_from production graph handler (drop 0 order) s2) as (l & El & Hl).
  fold (next production graph handler order 0) in El, Hl.
  destruct (next production graph handler order 0 s2) as [[[]|e] s3]; [|done].
  simpl in El, Hl. unfold finish, bind, get_handlerHasBeenExecuted in Hexec.
  assert (¬ quiet Handler) as Hq by (cbn; tauto).
  assert (∀ e, quiet e → (Handler ∈ before ++ l ++ [e] ↔ Handler ∈ l)) as Hin.
  { intros e He. apply quiet_not_in; [done | done | by repeat constructor]. }
  destruct (handlerHasBeenExecuted s3) eqn:Ef.
  - apply strate_debug_returns in Hexec as ->. exists (before ++ l ++ [Debug finished_message]).
    split; [simpl; rewrite El; by rewrite <- !app_assoc|].
    rewrite !app_assoc, last_snoc, <- !app_assoc.
    rewrite bool_decide_eq_true_2; [done|]. apply Hin; [exact I|].
    destruct Hl as [Hl _]. by destruct (Hl eq_refl).
  - apply strate_warn_returns in Hexec as ->. exists (before ++ l ++ [Warn early_response_message]).
    split; [simpl; rewrite El; by rewrite <- !app_assoc|].
    rewrite !app_assoc, last_snoc, <- !app_assoc.
    rewrite bool_decide_eq_false_2; [done|]. rewrite Hin by exact I.
    intros Hh. destruct Hl as [_ Hl]. by specialize (Hl (or_intror Hh)).
Qed.

Lemma executeRoute_early_response_witness :
  ∃ added,
    trace (executeRoute false Return
             (initial_state (with_middleware [Validation Invalid; ErrorHandler_default]))).2
    = trace (initial_state (with_middleware [Validation Invalid; ErrorHandler_default]))
      ++ added ∧
    last added = Some (if bool_decide (Handler ∈ added)
                       then Debug finished_message
                       else Warn early_response_message).
Proof.
  apply (executeRoute_early_response false Return _ _
           [Validation Invalid; ErrorHandler_default]);
    vm_compute; reflexivity.
Defined.

(** ** When the chain or the resolution fails *)

(** The chain of [next] over onion middleware when the handler throws: every
    middleware has been entered, none gets to its last effects, and the
    error of the handler comes out. *)
Lemma next_from_onion_throws (production : bool) (graph : DepGraph)
    (handlerLabels : list string) (e : exn)
    (pre post : string → list string) (rest : list string) (s : State) :
  intact s →
  (∀ n, n ∈ rest →
        truthy n = true ∧
        ∃ m name, getNodeData graph n = Ok m ∧
                  getMiddlewareName (ArgInstance m) = Ok name ∧
                  handle m = onion (pre n) (post n)) →
  ∃ t,
    next_from production graph (effects handlerLabels (Raise e)) rest s
    = (Throw e, {| context := context s; trace := trace s ++ t;
                   handlerHasBeenExecuted := true |}) ∧
    calls t = inward_calls pre rest ++ (Mark <$> handlerLabels).
Proof.
  revert s. induction rest as [|n rest IH]; intros s Hs Hrest.
  - exists ([Debug "Running route handler"; Handler] ++ (Mark <$> handlerLabels)).
    split.
    + cbn [next_from]. unfold run_handler. rewrite bind_strate_debug by done.
      unfold bind, set_handlerHasBeenExecuted, emit. simpl. rewrite exec_effects.
      simpl. unfold throw, append_trace. simpl. by rewrite <- !app_assoc.
    + rewrite calls_app, calls_marks. unfold inward_calls. simpl. done.
  - destruct (Hrest n ltac:(left)) as (Ht & m & name & Hm & Hname & Hh).
    set (s1 := append_trace
                 ([Debug ("Running: " +:+ name); Handle n] ++ (Mark <$> pre n)
                  ++ [Continue n]) s).
    destruct (IH s1 ltac:(done)) as (t & E & Hcalls).
    { intros x Hx. apply Hrest. by right. }
    exists ([Debug ("Running: " +:+ name); Handle n] ++ (Mark <$> pre n)
            ++ [Continue n] ++ t).
    split.
    + cbn [next_from]. rewrite Ht, bind_lift, Hm, bind_lift, Hname.
      rewrite bind_strate_debug by done. unfold bind at 1. unfold emit at 1.
      rewrite Hh. unfold onion. rewrite exec_effects. unfold await_next.
      cbn [exec]. unfold bind at 1, attempt. unfold bind at 1, emit at 1.
      rewrite !append_trace_app.
      change (append_trace _ s) with s1. rewrite E.
      simpl. unfold throw, s1. simpl.
      f_equal. f_equal.
      repeat first [rewrite <- app_assoc | rewrite <- app_comm_cons]. reflexivity.
    + rewrite !calls_app, calls_marks, Hcalls. unfold inward_calls. simpl.
      repeat first [rewrite <- app_assoc | rewrite <- app_comm_cons]. reflexivity.
Qed.

(** X9: when the handler throws and the middleware are of the form effects,
    [await next()], effects, with no [try] around the continuation,
    executeRoute throws the error of the handler to its caller, after these
    calls and no other: the [handle], first effects and continuation of each
    middleware in the resolved order, the handler and the effects it had
    before it threw.  No middleware has its last effects. *)
Theorem executeRoute_handler_throws (production : bool) (s s1 : State)
    (instances : list Middleware) (graph : DepGraph) (order handlerLabels : list string)
    (pre post : string → list string) (e : exn) :
  intact s →
  middleware (strate_configuration (context s)) = Some instances →
  resolveMiddleware s = (Ok (graph, order), s1) →
  (∀ n m, n ∈ order → getNodeData graph n = Ok m → handle m = onion (pre n) (post n)) →
  ∃ s',
    executeRoute production (effects handlerLabels (Raise e)) s = (Throw e, s') ∧
    calls (trace s')
    = calls (trace s) ++ inward_calls pre order ++ (Mark <$> handlerLabels).
Proof.
  intros Hs Hm E Honion.
  destruct (executeRoute_resolved_logs production s s1 instances graph order Hs Hm E)
    as (before & Hbefore & ->).
  destruct (resolveMiddleware_ok s s1 instances graph order Hs Hm E)
    as (_ & _ & _ & Hnodes & _).
  set (s2 := {| context := context s; trace := trace s ++ before;
                handlerHasBeenExecuted := false |}).
  destruct (next_from_onion_throws production graph handlerLabels e pre post order s2)
    as (t & Enext & Ht); [done| |].
  { intros n Hn. destruct (Hnodes n Hn) as (Htruthy & m & Hmi & Hi & Hdata).
    split; [done|]. exists m, n. split; [done|]. split; [done|]. by apply Honion. }
  eexists. split.
  - unfold bind, next. rewrite drop_0, Enext. reflexivity.
  - simpl. rewrite !calls_app, Ht, (calls_logs before) by done. by rewrite app_nil_r.
Qed.

Lemma executeRoute_handler_throws_witness :
  let s := initial_state (with_middleware [middleware_B; middleware_A]) in
  let pre := λ n : string, if String.eqb n "App.A" then ["A-pre"] else ["B-pre"] in
  let post := λ n : string, if String.eqb n "App.A" then ["A-post"] else ["B-post"] in
  let r := resolveMiddleware s in
  let graph := match r.1 with Ok resolved => resolved.1 | Throw _ => new_DepGraph end in
  r = (Ok (graph, ["App.A"; "App.B"]), r.2) ∧
  ∃ s',
    executeRoute true (effects ["query"] (Raise (Error "boom"))) s
    = (Throw (Error "boom"), s') ∧
    calls (trace s')
    = [Handle "App.A"; Mark "A-pre"; Continue "App.A";
       Handle "App.B"; Mark "B-pre"; Continue "App.B"; Handler; Mark "query"].
Proof.
  intros s pre post r graph.
  assert (r = (Ok (graph, ["App.A"; "App.B"]), r.2)) as Hr by (vm_compute; reflexivity).
  split; [exact Hr|].
  apply (executeRoute_handler_throws true s r.2 [middleware_B; middleware_A] graph
           ["App.A"; "App.B"] ["query"] pre post (Error "boom")).
  - vm_compute; reflexivity.
  - reflexivity.
  - exact Hr.
  - intros n m Hn Hg. apply elem_of_cons in Hn as [->|Hn].
    + vm_compute in Hg. injection Hg as <-. reflexivity.
    + apply list_elem_of_singleton in Hn as ->.
      vm_compute in Hg. injection Hg as <-. reflexivity.
Defined.

(** X10: when some installed middleware declares a dependency that is not
    installed, or the dependency declarations form a cycle, executeRoute
    throws, and before that it has only called the loggers: no [handle], no
    continuation, the handler not, no response sent, the context as it was. *)
Theorem executeRoute_unresolvable (production : bool) (handler : RouteHandler)
    (s : State) (instances : list Middleware) :
  intact s →
  middleware (strate_configuration (context s)) = Some instances →
  (∃ a b, depends_on instances a b ∧ ¬ installed instances b)
  ∨ (∃ x, tc (depends_on instances) x x) →
  ∃ e s',
    executeRoute production handler s = (Throw e, s') ∧
    context s' = context s ∧
    calls (trace s') = calls (trace s).
Proof.
  intros Hs Hm Hbad.
  destruct (resolveMiddleware s) as [[[graph order]|e] s1] eqn:E.
  - exfalso. destruct Hbad as [(a & b & Hab & Hno)|[x Hx]].
    + destruct (resolveMiddleware_ok _ _ _ _ _ Hs Hm E) as (_ & Hall & Hdeps & _).
      destruct (Hdeps a b Hab) as (i & j & _ & Hi & _). apply Hno, Hall.
      apply list_elem_of_lookup. eauto.
    + destruct (resolveMiddleware_spec s instances Hs Hm) as (r & w & E0 & _ & Hr).
      rewrite E in E0. injection E0 as <- _.
      destruct Hr as (Hwf & _ & Hedge & _ & Ho).
      destruct (overallOrder_cyclic graph Hwf) as [cyclePath Hc]; [|congruence].
      exists x. eapply tc_impl; [|exact Hx]. intros a b. apply Hedge.
  - destruct (executeRoute_throws_logs production handler s s1 instances e Hs Hm E)
      as (before & Hbefore & ->).
    eexists _, _. split; [reflexivity|]. split; [done|].
    simpl. rewrite calls_app, (calls_logs before) by done. by rewrite app_nil_r.
Qed.

Lemma executeRoute_unresolvable_witness :
  ∃ e s',
    executeRoute true Return (initial_state (with_middleware [ping; pong])) = (Throw e, s') ∧
    context s' = context (initial_state (with_middleware [ping; pong])) ∧
    calls (trace s') = calls (trace (initial_state (with_middleware [ping; pong]))).
Proof.
  apply (executeRoute_unresolvable true Return _ [ping; pong]).
  - vm_compute; reflexivity.
  - reflexivity.
  - left. exists "App.Ping", "App.Cache". split.
    + exists ping, (RefClass cache_class). split; [left|]. split; [right; left|].
      split; reflexivity.
    + intros (m & Hm & Hi). unfold identity_of in Hi.
      apply elem_of_cons in Hm as [->|Hm]; [vm_compute in Hi; congruence|].
      apply list_elem_of_singleton in Hm as ->. vm_compute in Hi. congruence.
Defined.

(** ** Dependencies run first *)

Lemma closed_after (e : event) (b : string) : closed (after e b).
Proof.
  split.
  - intros l1 l2 H. by destruct l1.
  - intros q Hq l1 l2 H. destruct l1 as [|x l1]; [by injection H as -> | by destruct l1].
  - intros x y Hx Hy l1 l2 H.
    apply app_eq_inv in H as [(k & -> & H)|(k & -> & ->)].
    + destruct k as [|z k].
      * simpl in H. subst y. pose proof (Hy [] l2 eq_refl) as Hin.
        by apply elem_of_nil in Hin.
      * injection H as <- ->. apply (Hx l1 k). done.
    + apply elem_of_app. right. by apply (Hy k l2).
Qed.

Lemma after_prefix (e : event) (b : string) (p l : list event) :
  e ∈ p → Handle b ∉ p → after e b (p ++ l).
Proof.
  intros He Hb l1 l2 H. apply app_eq_inv in H as [(k & -> & H)|(k & -> & _)].
  - destruct k as [|z k]; [by rewrite app_nil_r in He|].
    injection H as <- _. exfalso. apply Hb. apply elem_of_app. right. left.
  - apply elem_of_app. by left.
Qed.

Lemma closed_preceded (a b : string) : closed (preceded a b).
Proof.
  split.
  - split; apply closed_after.
  - intros q Hq. split; by apply closed_after.
  - intros l1 l2 [H1 H1'] [H2 H2']. split; by apply closed_after.
Qed.

Lemma after_single (e q : event) (b : string) : q ≠ Handle b → after e b [q].
Proof.
  intros Hq l1 l2 H. destruct l1 as [|y l1]; [simpl in H; congruence | by destruct l1].
Qed.

Lemma preceded_single (a b : string) (q : event) : q ≠ Handle b → preceded a b [q].
Proof. intros Hq. split; by apply after_single. Qed.

(** A closed property holds of any run of quiet events. *)
Lemma closed_quiet_list (P : list event → Prop) (l : list event) :
  closed P → Forall quiet l → P l.
Proof.
  intros HP Hl. induction Hl as [|e l He _ IH]; [apply HP|].
  change (e :: l) with ([e] ++ l). apply HP; [by apply HP | done].
Qed.

Section DependenciesFirst.
Context (production : bool) (graph : DepGraph) (handler : RouteHandler).

Lemma next_from_appends (rest : list string) :
  adds (λ _, True) (next_from production graph handler rest).
Proof.
  assert (closed (λ _ : list event, True)) as HT by done.
  induction rest as [|identity rest IH]; [by apply run_handler_adds|].
  apply next_from_step; try done.
  apply adds_bind; [done | by apply adds_emit | by intros _].
Qed.

(** From the middleware [a] on, a [handle] call of another middleware comes
    after the [handle] call of [a] and after a call of its continuation. *)
Lemma next_from_preceded_here (a b : string) (rest : list string) :
  a ≠ b → adds (preceded a b) (next_from production graph handler (a :: rest)).
Proof.
  intros Hne. pose proof (closed_preceded a b) as HP.
  assert (preceded a b [Handler]) as Hh by (by apply preceded_single).
  cbn [next_from]. destruct (truthy a); [|by apply run_handler_adds].
  apply adds_bind; [apply HP | apply adds_lift, HP |]. intros m.
  apply adds_bind; [apply HP | apply adds_lift, HP |]. intros n.
  apply adds_bind; [apply HP | by apply adds_strate_debug |]. intros _.
  intros s. unfold bind at 1, emit at 1.
  set (k := λ _ : unit, emit (Continue a) ;; next_from production graph handler rest).
  assert (∀ u, adds (after (Continue a) b) (k u)) as Hk.
  { intros u s'. unfold k, bind, emit.
    destruct (next_from_appends rest (append_trace [Continue a] s')) as (l & E & _).
    exists (Continue a :: l). split; [rewrite E; simpl; by rewrite <- app_assoc|].
    apply (after_prefix _ _ [Continue a]); [left|].
    intros H. by apply list_elem_of_singleton in H. }
  destruct (adds_exec (after (Continue a) b) (closed_after _ _) production k (handle m) Hk
              (append_trace [Handle a] s)) as (l & E & Hl).
  exists (Handle a :: l). split; [rewrite E; simpl; by rewrite <- app_assoc|].
  split.
  - apply (after_prefix _ _ [Handle a]); [left|].
    intros H. apply list_elem_of_singleton in H. congruence.
  - change (Handle a :: l) with ([Handle a] ++ l). apply closed_after; [|done].
    apply after_single. congruence.
Qed.

Lemma next_from_preceded (before : list string) (a b : string) (rest : list string) :
  a ≠ b → b ∉ before →
  adds (preceded a b) (next_from production graph handler (before ++ a :: rest)).
Proof.
  intros Hne. pose proof (closed_preceded a b) as HP.
  induction before as [|x before IH]; intros Hb; [by apply next_from_preceded_here|].
  apply not_elem_of_cons in Hb as [Hx Hb]. simpl.
  apply next_from_step; [done | by apply preceded_single | |].
  - apply preceded_single. congruence.
  - apply adds_bind; [apply HP | by apply adds_emit, preceded_single | intros _; by apply IH].
Qed.
End DependenciesFirst.

(** X11: in every invocation, whatever the middleware and the handler do, a
    middleware is entered only after each middleware it depends on: every
    call of the [handle] of a middleware comes after a call of the [handle]
    of each of its declared dependencies and after a call of the continuation
    that this dependency was given. *)
Theorem executeRoute_dependencies_first (production : bool) (handler : RouteHandler)
    (s : State) (instances : list Middleware) (a b : string) :
  intact s →
  middleware (strate_configuration (context s)) = Some instances →
  depends_on instances b a →
  ∃ added,
    trace (executeRoute production handler s).2 = trace s ++ added ∧
    preceded a b added.
Proof.
  intros Hs Hm Hdep. pose proof (closed_preceded a b) as HP.
  destruct (resolveMiddleware s) as [[[graph order]|e] s1] eqn:E.
  - destruct (executeRoute_resolved production handler s s1 instances graph order Hs Hm E)
      as (before & Hbefore & ->).
    destruct (resolveMiddleware_ok s s1 instances graph order Hs Hm E)
      as (Hnd & _ & Hdeps & _).
    destruct (Hdeps b a Hdep) as (i & j & Hij & Hi & Hj).
    assert (a ≠ b) as Hne.
    { intros ->. pose proof (NoDup_lookup _ _ _ _ Hnd Hi Hj). lia. }
    assert (b ∉ take i order) as Hnot.
    { intros [k Hk]%list_elem_of_lookup. pose proof (lookup_lt_Some _ _ _ Hk) as Hlt.
      rewrite length_take in Hlt. rewrite lookup_take_lt in Hk by lia.
      pose proof (NoDup_lookup _ _ _ _ Hnd Hk Hj). lia. }
    set (s2 := {| context := context s; trace := trace s ++ before;
                  handlerHasBeenExecuted := false |}).
    assert (adds (preceded a b) (next production graph handler order 0 ;; finish)) as Hadds.
    { apply adds_bind; [apply HP | |].
      - unfold next. rewrite drop_0, <- (take_drop_middle order i a Hi).
        by apply next_from_preceded.
      - intros _. eapply adds_weaken; [|apply finish_adds].
        intros l. by apply closed_quiet_list. }
    destruct (Hadds s2) as (l & El & Hl). exists (before ++ l).
    split; [rewrite El; simpl; by rewrite <- app_assoc|].
    apply HP; [by apply closed_quiet_list | done].
  - destruct (executeRoute_throws production handler s s1 instances e Hs Hm E)
      as (before & Hbefore & ->).
    exists before. split; [done|]. by apply closed_quiet_list.
Qed.

Lemma executeRoute_dependencies_first_witness :
  ∃ added,
    trace (executeRoute false Return
             (initial_state (with_middleware [middleware_B; middleware_A]))).2
    = trace (initial_state (with_middleware [middleware_B; middleware_A])) ++ added ∧
    preceded "App.A" "App.B" added.
Proof.
  apply (executeRoute_dependencies_first false Return _ [middleware_B; middleware_A]).
  - vm_compute; reflexivity.
  - reflexivity.
  - exists middleware_B, (RefClass A_class). split; [left|]. split; [left|].
    split; reflexivity.
Defined.

(** ** The shipped middleware *)



(** X13: on a route whose only middleware is an ErrorHandler, a handler that
    calls [context.error] finds it on the context, the response that is sent
    has the arguments of the call, each one left out replaced by the default
    of the ErrorHandler instance, and the invocation returns normally, with
    the handler counted as executed. *)
Theorem ErrorHandler_context_error (production : bool)
    (defaultCode defaultMessage : string) (defaultStatusCode : Z)
    (code message : option string) (statusCode : option Z) (request : Request) :
  let r := Route production
             (ContextGet "error" (λ error, Call error code message statusCode))
             2%positive request
             (route_heap (with_middleware
                            [ErrorHandler defaultCode defaultMessage defaultStatusCode])) in
  r.1.1 = Ok () ∧
  calls (trace r.1.2)
  = [Handle "Strate.ErrorHandler"; Continue "Strate.ErrorHandler"; Handler;
     Response (default defaultStatusCode statusCode) (default defaultCode code)
              (default defaultMessage message)] ∧
  last (trace r.1.2) = Some (Debug finished_message).
Proof. intros r. split; [|split]; vm_compute; reflexivity. Qed.

(** X14: on a route with Validation and an ErrorHandler, listed in either
    order, a request whose body the schema rejects never reaches the
    handler, whatever the handler is: ErrorHandler is entered first,
    Validation sends the response 422 with the code V-KI-0000, and the
    invocation returns normally after the warning about an early response. *)
Theorem Validation_rejects_invalid_body (production : bool)
    (defaultCode defaultMessage : string) (defaultStatusCode : Z)
    (handler : RouteHandler) (request : Request) (instances : list Middleware) :
  instances = [Validation Invalid;
               ErrorHandler defaultCode defaultMessage defaultStatusCode]
  ∨ instances = [ErrorHandler defaultCode defaultMessage defaultStatusCode;
                 Validation Invalid] →
  let r := Route production handler 2%positive request
                 (route_heap (with_middleware instances)) in
  r.1.1 = Ok () ∧
  calls (trace r.1.2)
  = [Handle "Strate.ErrorHandler"; Continue "Strate.ErrorHandler";
     Handle "Strate.Validation";
     Response 422 "V-KI-0000" "There were validation errors on your request."] ∧
  last (trace r.1.2) = Some (Warn early_response_message).
Proof.
  intros [->| ->] r; (split; [|split]); vm_compute; reflexivity.
Qed.

Lemma Validation_rejects_invalid_body_witness :
  let r := Route true (Effect "create user" Return) 2%positive a_request
                 (route_heap (with_middleware [Validation Invalid; ErrorHandler_default])) in
  r.1.1 = Ok () ∧
  calls (trace r.1.2)
  = [Handle "Strate.ErrorHandler"; Continue "Strate.ErrorHandler";
     Handle "Strate.Validation";
     Response 422 "V-KI-0000" "There were validation errors on your request."] ∧
  last (trace r.1.2) = Some (Warn early_response_message).
Proof.
  apply (Validation_rejects_invalid_body true "ERR-0000" "An unspecified error occurred."
           500 (Effect "create user" Return) a_request
           [Validation Invalid; ErrorHandler_default]).
  left. reflexivity.
Defined.

(** ** One-time middleware *)

Lemma bind_emit {B} (e : event) (f : unit → M B) (s : State) :
  bind (emit e) f s = f () (append_trace [e] s).
Proof. reflexivity. Qed.

Lemma bind_exec_effects {N B} (production : bool) (next : N → M unit)
    (labels : list string) (f : unit → M B) (s : State) :
  bind (exec production next (effects labels Return)) f s
  = f () (append_trace (Mark <$> labels) s).
Proof. unfold bind. by rewrite exec_effects. Qed.

(** A function that has no continuation to call and is no handler leaves
    the flag of executeRoute as it was. *)
Lemma run_flag (production : bool) (f : prog Empty_set) (s : State) :
  handlerHasBeenExecuted s = false →
  handlerHasBeenExecuted (run production f s).2 = false.
Proof.
  intros Hs. unfold run.
  destruct (tracks_exec production (λ n : Empty_set, match n with end) f
              ltac:(intros []) s) as (added & E & Hflag).
  assert (closed (λ l, count Handler l = 0)) as H0 by (apply closed_none; cbn; tauto).
  destruct (adds_exec _ H0 production (λ n : Empty_set, match n with end) f
              ltac:(intros []) s) as (added' & E' & Hnone).
  rewrite E in E'. apply app_inv_head in E' as <-.
  apply not_true_is_false. intros Ht. apply Hflag in Ht as [Ht|Hin]; [congruence|].
  by apply count_zero_not_in in Hnone.
Qed.

(** X15: a function given to [makeRoute] in place of a base configuration
    runs once per invocation, on the context made for the default
    configuration, after the line that announces the route and before
    anything of the route.  When it throws, the invocation throws the same
    and nothing of the route runs.  When it returns, the route is executed on
    the context as the function has left it; and if the function has left
    the context as it found it, the invocation has the outcome, the store and
    the final context of the invocation of [Route], and its trace is that of
    [Route] with what the function appended put after the first line. *)
Theorem makeRoute_one_time_middleware (production : bool) (f : prog Empty_set)
    (handler : RouteHandler) (routeConfiguration : location) (request : Request)
    (h h' : heap) (l : location) :
  loadConfiguration defaultConfiguration routeConfiguration h = (Ok l, h') →
  let line := Debug ("Route: " +:+ method request +:+ " " +:+ url request) in
  let s0 := append_trace [line] (initial_state (default DefaultConfiguration (h' !! l))) in
  let r := Route production handler routeConfiguration request h in
  let r' := makeRoute production (inr f) handler routeConfiguration request h in
  ∃ outcome s1 added,
    run production f s0 = (outcome, s1) ∧
    trace s1 = [line] ++ added ∧
    r'.2 = r.2 ∧
    match outcome with
    | Throw e => r'.1 = (Throw e, s1)
    | Ok _ =>
        r'.1 = executeRoute production handler s1 ∧
        (context s1 = context s0 →
         r'.1.1 = r.1.1 ∧ context r'.1.2 = context r.1.2 ∧
         ∃ rest, trace r.1.2 = line :: rest ∧ trace r'.1.2 = line :: added ++ rest)
    end.
Proof.
  intros Hload line s0 r r'. unfold r, r', Route, makeRoute. rewrite Hload.
  set (configuration := default DefaultConfiguration (h' !! l)) in *.
  cbn [fst snd]. rewrite !bind_emit. fold line. fold s0.
  change (exec production (λ n : Empty_set, match n with end) f) with (run production f).
  pose proof (run_flag production f s0 eq_refl) as Hflag.
  assert (closed (λ _ : list event, True)) as HT by (by split).
  destruct (adds_exec _ HT production (λ n : Empty_set, match n with end) f
              ltac:(intros []) s0) as (added & E & _).
  fold (run production f) in E.
  destruct (run production f s0) as [outcome s1] eqn:Ef. cbn [snd] in E, Hflag.
  assert ((run production f ;; executeRoute production handler) s0
          = match outcome with
            | Ok _ => executeRoute production handler s1
            | Throw e => (Throw e, s1)
            end) as Hb by (unfold bind; rewrite Ef; by destruct outcome as [[]|]).
  rewrite !Hb.
  exists outcome, s1, added. split; [done|]. split; [exact E|]. split; [done|].
  destruct outcome as [[]|e]; [|done]. split; [done|]. intros Hctx.
  pose proof (oblivious_executeRoute production handler (initial_state configuration))
    as Hob.
  assert (s1 = rebase ([line] ++ added) (initial_state configuration)) as ->.
  { destruct s1 as [c1 t1 f1]. unfold rebase. simpl in *. by subst. }
  change s0 with (rebase [line] (initial_state configuration)).
  rewrite (Hob ([line] ++ added)), (Hob [line]). cbn [fst snd rebase context trace].
  split; [done|]. split; [done|]. eexists. split; [reflexivity|].
  by rewrite <- app_assoc.
Qed.

Lemma makeRoute_one_time_middleware_witness :
  let h := route_heap (with_middleware [middleware_A]) in
  let f : prog Empty_set :=
    ContextGet "strate" (λ _, Effect "authenticate" Return) in
  let line := Debug ("Route: " +:+ method a_request +:+ " " +:+ url a_request) in
  let s0 := append_trace [line]
              (initial_state {| debug := Some false; middleware := Some [middleware_A];
                                skip := Some [] |}) in
  let r := Route false Return 2%positive a_request h in
  let r' := makeRoute false (inr f) Return 2%positive a_request h in
  ∃ outcome s1 added,
    run false f s0 = (outcome, s1) ∧
    trace s1 = [line] ++ added ∧
    r'.2 = r.2 ∧
    match outcome with
    | Throw e => r'.1 = (Throw e, s1)
    | Ok _ =>
        r'.1 = executeRoute false Return s1 ∧
        (context s1 = context s0 →
         r'.1.1 = r.1.1 ∧ context r'.1.2 = context r.1.2 ∧
         ∃ rest, trace r.1.2 = line :: rest ∧ trace r'.1.2 = line :: added ++ rest)
    end.
Proof.
  intros h f line s0 r r'.
  assert (loadConfiguration defaultConfiguration 2%positive h
          = (Ok 3%positive,
             <[3%positive := {| debug := Some false; middleware := Some [middleware_A];
                                skip := Some [] |}]> h)) as H
    by (vm_compute; reflexivity).
  exact (makeRoute_one_time_middleware false f Return 2%positive a_request h _ _ H).
Defined.

(** A one-time function that stores a value on the context: the handler
    reads it without a warning, which it does not on the route made by
    [Route]. *)
Example makeRoute_function_writes_context :
  let h := route_heap (with_middleware []) in
  let handler : RouteHandler := ContextGet "user" (λ _, Return) in
  let f : prog Empty_set := ContextSet "user" (VData DUndefined) Return in
  Warn (not_found_message "user")
    ∈ trace (Route false handler 2%positive a_request h).1.2 ∧
  Warn (not_found_message "user")
    ∉ trace (makeRoute false (inr f) handler 2%positive a_request h).1.2.
Proof. split; vm_compute; set_solver. Qed.

(** ** Instances used more than once *)

Lemma lookup_data_absent (l : list (string * Middleware)) (node : string) :
  node ∉ l.*1 → lookup_data l node = None.
Proof.
  intros H. destruct (lookup_data l node) eqn:E; [|done].
  exfalso. apply H, lookup_data_Some. eauto.
Qed.

(** What addMiddlewareToGraph makes of a graph when every identity resolves:
    the new identities become nodes in the order in which they first occur,
    the data of a node is the last instance of its identity, and the warn
    logger is called once for every instance whose identity was a node
    already. *)
Lemma addMiddlewareToGraph_nodes (instances : list Middleware) (names : list string)
    (graph : DepGraph) (s : State) :
  intact s →
  Forall2 identity_of instances names →
  ∃ graph' w,
    addMiddlewareToGraph graph instances s = (Ok graph', append_trace w s) ∧
    keys graph' = foldl (λ acc n, push_unique n acc) (keys graph) names ∧
    (∀ n, lookup_data (nodes graph') n
          = match last_named n instances with
            | Some m => Some m
            | None => lookup_data (nodes graph) n
            end) ∧
    Forall (λ e, ∃ message, e = Warn message) w ∧
    length w + length (keys graph') = length instances + length (keys graph).
Proof.
  intros Hs Hnames. revert graph s Hs.
  induction Hnames as [|instance n rest names Hn _ IH]; intros graph s Hs.
  - exists graph, []. simpl. rewrite append_trace_nil. done.
  - cbn [addMiddlewareToGraph]. rewrite bind_lift, Hn.
    assert (∀ x, last_named x (instance :: rest)
                    = match last_named x rest with
                      | Some m' => Some m'
                      | None => if String.eqb n x then Some instance else None
                      end) as Hlast.
    { intros x. cbn [last_named]. destruct (last_named x rest); [done|].
      unfold identity_of in Hn. rewrite Hn.
      destruct (String.eqb_spec n x) as [->|Hne].
      - by rewrite bool_decide_eq_true_2.
      - rewrite bool_decide_eq_false_2; [done | congruence]. }
    destruct (hasNode graph n) eqn:Hh.
    + rewrite bind_strate_record by done. rewrite bind_strate_warn by done.
      rewrite bind_lift. unfold setNodeData. rewrite Hh.
      set (g1 := {| nodes := replace_data (nodes graph) n instance;
                    outgoingEdges := outgoingEdges graph;
                    incomingEdges := incomingEdges graph |}).
      set (line := Warn _).
      destruct (IH g1 (append_trace [line] s) ltac:(done)) as (g' & w & E & Hk & Hd & Hw & Hl).
      exists g', (line :: w). rewrite E, append_trace_app. split; [done|].
      apply hasNode_true in Hh.
      assert (keys g1 = keys graph) as Hk1 by apply replace_data_keys.
      split; [|split; [|split]].
      * rewrite Hk, Hk1. cbn [foldl].
        assert (push_unique n (keys graph) = keys graph) as ->; [|done].
        unfold push_unique. by rewrite bool_decide_eq_true_2.
      * intros x. rewrite Hd, (Hlast x). destruct (last_named x rest); [done|].
        unfold g1. simpl. rewrite lookup_data_replace.
        destruct (String.eqb_spec n x) as [->|Hne]; [|done].
        apply lookup_data_Some in Hh as [m' ->]. done.
      * constructor; [by eexists | done].
      * rewrite Hk1 in Hl. simpl. lia.
    + apply hasNode_false in Hh.
      destruct (IH (addNode graph n instance) s Hs) as (g' & w & E & Hk & Hd & Hw & Hl).
      exists g', w. split; [done|].
      assert (addNode graph n instance
              = {| nodes := nodes graph ++ [(n, instance)];
                   outgoingEdges := <[n := []]> (outgoingEdges graph);
                   incomingEdges := <[n := []]> (incomingEdges graph) |}) as Hadd.
      { unfold addNode. by rewrite (proj2 (hasNode_false graph n) Hh). }
      assert (keys (addNode graph n instance) = keys graph ++ [n]) as Hk1.
      { rewrite Hadd. unfold keys. simpl. by rewrite fmap_app. }
      split; [|split; [|split]].
      * rewrite Hk, Hk1. cbn [foldl].
        assert (push_unique n (keys graph) = keys graph ++ [n]) as ->; [|done].
        unfold push_unique. by rewrite bool_decide_eq_false_2.
      * intros x. rewrite Hd, (Hlast x). destruct (last_named x rest); [done|].
        rewrite Hadd. simpl. rewrite lookup_data_app.
        destruct (String.eqb_spec n x) as [->|Hne].
        -- by rewrite (lookup_data_absent _ _ Hh).
        -- by destruct (lookup_data (nodes graph) x).
      * done.
      * rewrite Hk1, length_app in Hl. simpl in *. lia.
Qed.

(** X16: when every identity of the list resolves, addMiddlewareToGraph on a
    new graph makes one node of each identity, in the order in which the
    identities first occur in the list; the instance kept for an identity
    is the last one of the list that has it; and the warn logger is called
    once for each instance that repeats an identity, and not otherwise. *)
Theorem addMiddlewareToGraph_last_instance (instances : list Middleware)
    (names : list string) (s : State) :
  intact s →
  Forall2 identity_of instances names →
  ∃ graph w,
    addMiddlewareToGraph new_DepGraph instances s = (Ok graph, append_trace w s) ∧
    keys graph = insertion_order names ∧
    (∀ n, getNodeData graph n = match last_named n instances with
                                | Some m => Ok m
                                | None => Throw (node_missing n)
                                end) ∧
    Forall (λ e, ∃ message, e = Warn message) w ∧
    length w + length (keys graph) = length instances.
Proof.
  intros Hs Hnames.
  destruct (addMiddlewareToGraph_nodes instances names new_DepGraph s Hs Hnames)
    as (graph & w & E & Hk & Hd & Hw & Hl).
  exists graph, w. split; [done|]. split; [done|]. split; [|split; [done|]].
  - intros n. unfold getNodeData. rewrite Hd. by destruct (last_named n instances).
  - simpl in Hl. lia.
Qed.

Lemma addMiddlewareToGraph_last_instance_witness :
  ∃ graph w,
    addMiddlewareToGraph new_DepGraph [tenant "eu"; middleware_A; tenant "eu"]
                         (initial_state DefaultConfiguration)
    = (Ok graph, append_trace w (initial_state DefaultConfiguration)) ∧
    keys graph = insertion_order ["App.eu"; "App.A"; "App.eu"] ∧
    (∀ n, getNodeData graph n
          = match last_named n [tenant "eu"; middleware_A; tenant "eu"] with
            | Some m => Ok m
            | None => Throw (node_missing n)
            end) ∧
    Forall (λ e, ∃ message, e = Warn message) w ∧
    length w + length (keys graph) = length [tenant "eu"; middleware_A; tenant "eu"].
Proof.
  apply (addMiddlewareToGraph_last_instance [tenant "eu"; middleware_A; tenant "eu"]
           ["App.eu"; "App.A"; "App.eu"] (initial_state DefaultConfiguration)).
  - vm_compute; reflexivity.
  - repeat constructor.
Defined.

(** ** The order without dependencies *)

Lemma push_unique_NoDup (acc names : list string) :
  NoDup acc → NoDup (foldl (λ acc n, push_unique n acc) acc names).
Proof.
  revert acc. induction names as [|n names IH]; intros acc Hacc; [done|].
  simpl. apply IH. unfold push_unique. case_bool_decide; [done|].
  apply NoDup_app. split; [done|]. split; [|apply NoDup_singleton].
  intros x Hx Hx'. apply list_elem_of_singleton in Hx'. by subst.
Qed.

Lemma push_unique_fresh (acc l : list string) :
  NoDup (acc ++ l) → foldl (λ acc n, push_unique n acc) acc l = acc ++ l.
Proof.
  revert acc. induction l as [|n l IH]; intros acc Hnd; [by rewrite app_nil_r|].
  cbn [foldl].
  assert (push_unique n acc = acc ++ [n]) as ->.
  { unfold push_unique. rewrite bool_decide_eq_false_2; [done|].
    apply NoDup_app in Hnd as (_ & Hd & _). intros Hin. apply (Hd n Hin). left. }
  rewrite IH; [by rewrite <- app_assoc | by rewrite <- app_assoc].
Qed.

Lemma insertion_order_NoDup (names : list string) : NoDup (insertion_order names).
Proof. apply push_unique_NoDup. constructor. Qed.

(** In a graph without edges every traversal only marks its start. *)
Lemma visit_each_no_edges (edges : gmap string (list string)) (fuel : nat)
    (starts visited : list string) :
  (∀ x, edges_of edges x = []) →
  visit_each (DFS edges (S fuel) []) starts visited
  = Ok (foldl (λ acc n, push_unique n acc) visited starts).
Proof.
  intros Hno. revert visited. induction starts as [|node starts IH]; intros visited; [done|].
  cbn [visit_each DFS foldl].
  assert (push_unique node visited
          = if bool_decide (node ∈ visited) then visited else visited ++ [node]) as ->
    by done.
  destruct (bool_decide (node ∈ visited)) eqn:E; [apply IH|].
  rewrite bool_decide_eq_false_2 by apply not_elem_of_nil.
  rewrite Hno. cbn [visit_each]. apply IH.
Qed.

Lemma filter_all {A} (P : A → Prop) `{∀ x, Decision (P x)} (l : list A) :
  Forall P l → filter P l = l.
Proof.
  intros Hl. induction Hl as [|x l Hx _ IH]; [done|].
  rewrite filter_cons_True by done. by rewrite IH.
Qed.

Lemma overallOrder_no_edges (graph : DepGraph) :
  well_formed graph →
  (∀ x, edges_of (outgoingEdges graph) x = []) →
  overallOrder graph = Ok (keys graph).
Proof.
  intros Hwf Hno. unfold overallOrder. rewrite !visit_each_no_edges by done.
  rewrite filter_all.
  - rewrite push_unique_fresh; [done|]. apply Hwf.
  - apply Forall_forall. intros b _.
    destruct (edges_of (incomingEdges graph) b) as [|a l] eqn:E; [done|].
    assert (b ∈ edges_of (outgoingEdges graph) a) as Hin
      by (apply (wf_mirror _ Hwf); rewrite E; left).
    rewrite Hno in Hin. by apply elem_of_nil in Hin.
Qed.

Lemma setDependencies_none (instances : list Middleware) (graph : DepGraph) (s : State) :
  (∀ m, m ∈ instances → ∃ n, identity_of m n) →
  (∀ m, m ∈ instances → default [] (dependencies m) = []) →
  setDependencies graph instances s = (Ok graph, s).
Proof.
  induction instances as [|m instances IH]; intros Hres Hno; [done|].
  cbn [setDependencies]. destruct (Hres m ltac:(left)) as [n Hn].
  unfold identity_of in Hn. rewrite bind_lift, Hn, (Hno m) by left.
  cbn [addDependencies]. unfold bind at 1, ret. apply IH.
  - intros m' Hm'. apply Hres. by right.
  - intros m' Hm'. apply Hno. by right.
Qed.

(** Without dependencies the graph is the one that addMiddlewareToGraph
    built, and its order is the order of its nodes. *)
Lemma resolveMiddleware_without_dependencies (s : State) (instances : list Middleware)
    (names : list string) :
  intact s →
  middleware (strate_configuration (context s)) = Some instances →
  Forall2 identity_of instances names →
  (∀ m, m ∈ instances → default [] (dependencies m) = []) →
  ∃ graph w,
    addMiddlewareToGraph new_DepGraph instances s = (Ok graph, append_trace w s) ∧
    resolveMiddleware s = (Ok (graph, keys graph), append_trace w s) ∧
    keys graph = insertion_order names.
Proof.
  intros Hs Hm Hnames Hno.
  destruct (addMiddlewareToGraph_nodes instances names new_DepGraph s Hs Hnames)
    as (graph & w & E & Hk & _).
  destruct (addMiddlewareToGraph_spec instances new_DepGraph s Hs well_formed_new)
    as (r & w' & E' & _ & Hr).
  rewrite E in E'. injection E' as <- _.
  destruct Hr as (Hwf & Hres & _ & Hedges & _).
  exists graph, w. split; [done|]. split; [|done]. unfold resolveMiddleware.
  rewrite bind_strate_record by done. rewrite Hm. simpl.
  unfold bind at 1. rewrite E.
  rewrite bind_strate_record by done. simpl. rewrite Hm.
  unfold bind at 1. rewrite (setDependencies_none instances graph _ Hres Hno).
  rewrite bind_lift, overallOrder_no_edges; [done | done |].
  intros x. rewrite Hedges. unfold edges_of. simpl. by rewrite lookup_empty.
Qed.

(** X17: when no installed middleware declares a dependency, the order that
    resolveMiddleware returns is the order of the list: the identities, each
    at the place where it first occurs; and the graph it returns is the one
    that addMiddlewareToGraph built, with no edge added. *)
Theorem resolveMiddleware_listing_order (s : State) (instances : list Middleware)
    (names : list string) :
  intact s →
  middleware (strate_configuration (context s)) = Some instances →
  Forall2 identity_of instances names →
  (∀ m, m ∈ instances → default [] (dependencies m) = []) →
  ∃ graph s',
    resolveMiddleware s = (Ok (graph, insertion_order names), s') ∧
    (addMiddlewareToGraph new_DepGraph instances s).1 = Ok graph.
Proof.
  intros Hs Hm Hnames Hno.
  destruct (resolveMiddleware_without_dependencies s instances names Hs Hm Hnames Hno)
    as (graph & w & Eadd & E & Hk).
  exists graph, (append_trace w s). rewrite E, Eadd, Hk. done.
Qed.

Lemma resolveMiddleware_listing_order_witness :
  ∃ graph s',
    resolveMiddleware (initial_state (with_middleware [tenant "us"; middleware_A; tenant "eu"]))
    = (Ok (graph, insertion_order ["App.us"; "App.A"; "App.eu"]), s') ∧
    (addMiddlewareToGraph new_DepGraph [tenant "us"; middleware_A; tenant "eu"]
       (initial_state (with_middleware [tenant "us"; middleware_A; tenant "eu"]))).1
    = Ok graph.
Proof.
  apply (resolveMiddleware_listing_order _ [tenant "us"; middleware_A; tenant "eu"]).
  - vm_compute; reflexivity.
  - reflexivity.
  - repeat constructor.
  - intros m Hm. repeat (apply elem_of_cons in Hm as [->|Hm]; [reflexivity|]).
    by apply elem_of_nil in Hm.
Defined.

(** ** The skip list and the dependencies *)

Lemma skip_includes_strings (configuration : StrateConfiguration) (names : list string)
    (b : string) :
  skip configuration = Some (RefString <$> names) →
  skip_includes configuration b = true ↔ b ∈ names.
Proof.
  intros Hs. unfold skip_includes. rewrite Hs. clear Hs.
  induction names as [|n names IH]; simpl.
  - split; [done|]. intros H. by apply elem_of_nil in H.
  - rewrite orb_true_iff, IH, elem_of_cons, String.eqb_eq. naive_solver.
Qed.

(** X18: in the configuration that loadConfiguration returns, the skip list
    includes an identity, in the sense of the test that resolveMiddleware
    makes to choose between its two errors, exactly when some entry of the
    route's skip list, a string or a class reference, resolves to that
    identity. *)
Theorem loadConfiguration_skip_includes (base route : location) (h : heap)
    (baseObject routeObject configuration : StrateConfiguration) (b : string) :
  h !! base = Some baseObject → h !! route = Some routeObject →
  loaded (loadConfiguration base route h) = Ok configuration →
  skip_includes configuration b = true
  ↔ ∃ r, r ∈ default [] (skip routeObject) ∧ getMiddlewareName (arg_of_reference r) = Ok b.
Proof.
  intros Hb Hr. rewrite (loadConfiguration_loaded _ _ _ _ _ Hb Hr).
  unfold merge_configurations.
  destruct (result_map_references (default [] (skip routeObject))) as (names & -> & Hnames).
  destruct (result_filter _ _) as [kept|e]; [|done]. intros [= <-].
  rewrite (skip_includes_strings _ names) by done. clear -Hnames.
  induction Hnames as [|r n references names Hn _ IH].
  - split; [intros H; by apply elem_of_nil in H|]. intros (r & H & _). by apply elem_of_nil in H.
  - rewrite elem_of_cons, IH. split.
    + intros [->|(r' & Hr' & Hn')]; [exists r; split; [left|done]|].
      exists r'. split; [by right|done].
    + intros (r' & [->|Hr']%elem_of_cons & Hn'); [left; congruence|].
      right. by exists r'.
Qed.

Lemma loadConfiguration_skip_includes_witness :
  skip_includes {| debug := Some true; middleware := Some [ErrorHandler_default; middleware_B];
                   skip := Some [RefString "App.A"] |} "App.A" = true.
Proof.
  apply (loadConfiguration_skip_includes 2%positive 3%positive base_heap
           base_with_skip route_skipping_A _ "App.A");
    [vm_compute; reflexivity ..|].
  exists (RefClass A_class). split; [left | reflexivity].
Defined.

(** ** The shipped middleware and the handler *)

Lemma ErrorHandler_handle_invokes_once (defaultCode defaultMessage : string)
    (defaultStatusCode : Z) :
  invokes_at_most 1 (ErrorHandler_handle defaultCode defaultMessage defaultStatusCode).
Proof.
  unfold ErrorHandler_handle. constructor. constructor. intros [[]|e]; [constructor|].
  case_bool_decide; [constructor|]. constructor. intros []; repeat constructor.
Qed.

Lemma Validation_handle_invokes_once (outcome : ValidateOutcome) :
  invokes_at_most 1 (Validation_handle outcome).
Proof.
  unfold Validation_handle. constructor. intros error.
  destruct outcome; [| apply iam_Invoke |]; unfold await_next;
    (apply iam_AwaitNext; intros [[]|?]; constructor).
Qed.

(** X19: on a route whose middleware are all instances of the shipped
    ErrorHandler and Validation, the handler is called at most once in an
    invocation, whatever it does and whatever the schemas answer. *)
Theorem shipped_middleware_handler_once (production : bool) (handler : RouteHandler)
    (s : State) (instances : list Middleware) :
  intact s →
  middleware (strate_configuration (context s)) = Some instances →
  (∀ m, m ∈ instances →
        (∃ defaultCode defaultMessage defaultStatusCode,
           handle m = ErrorHandler_handle defaultCode defaultMessage defaultStatusCode)
        ∨ (∃ outcome, handle m = Validation_handle outcome)) →
  ∃ added,
    trace (executeRoute production handler s).2 = trace s ++ added ∧
    count Handler added ≤ 1.
Proof.
  intros Hs Hm Hshipped.
  assert (¬ quiet Handler) as Hq by (cbn; tauto).
  destruct (resolveMiddleware s) as [[[graph order]|e] s1] eqn:E.
  - destruct (executeRoute_resolved production handler s s1 instances graph order Hs Hm E)
      as (before & Hbefore & ->).
    destruct (resolveMiddleware_ok s s1 instances graph order Hs Hm E)
      as (_ & _ & _ & Hnodes & _).
    destruct (resolveMiddleware_spec s instances Hs Hm) as (r & w & E0 & _ & Hr).
    rewrite E in E0. injection E0 as <- _. destruct Hr as (_ & _ & _ & Hdata & _).
    set (s2 := {| context := context s; trace := trace s ++ before;
                  handlerHasBeenExecuted := false |}).
    assert (adds (λ l, count Handler l ≤ 1)
                 (next production graph handler order 0)) as Hnext.
    { unfold next. apply next_from_once. intros identity m Hg.
      unfold getNodeData in Hg.
      destruct (lookup_data (nodes graph) identity) as [m'|] eqn:El; [|done].
      injection Hg as ->. destruct (Hdata identity m El) as [Hin _].
      destruct (Hshipped m Hin) as [(c & msg & st & ->)|(o & ->)].
      - apply ErrorHandler_handle_invokes_once.
      - apply Validation_handle_invokes_once. }
    destruct (Hnext s2) as (l & El & Hl). unfold bind.
    destruct (next production graph handler order 0 s2) as [[[]|e] s3].
    + destruct (finish_adds s3) as (after & Ea & Ha). simpl in El.
      exists (before ++ l ++ after). split; [rewrite Ea, El; by rewrite <- !app_assoc|].
      by rewrite count_between_quiet.
    + simpl in *. exists (before ++ l ++ []). rewrite app_nil_r.
      split; [rewrite El; by rewrite <- app_assoc|].
      rewrite count_app, (count_Forall_quiet Handler before) by done. lia.
  - destruct (executeRoute_throws production handler s s1 instances e Hs Hm E)
      as (before & Hbefore & ->).
    exists before. split; [done|]. rewrite count_Forall_quiet by done. lia.
Qed.

Lemma shipped_middleware_handler_once_witness :
  ∃ added,
    trace (executeRoute true (Effect "create user" Return)
             (initial_state (with_middleware [Validation Valid; ErrorHandler_default]))).2
    = trace (initial_state (with_middleware [Validation Valid; ErrorHandler_default]))
      ++ added ∧
    count Handler added ≤ 1.
Proof.
  apply (shipped_middleware_handler_once true (Effect "create user" Return) _
           [Validation Valid; ErrorHandler_default]).
  - vm_compute; reflexivity.
  - reflexivity.
  - intros m Hm. apply elem_of_cons in Hm as [->|Hm]; [right; by exists Valid|].
    apply list_elem_of_singleton in Hm as ->. left. by eexists _, _, _.
Defined.

(** ** What the handler finds on the context *)

Lemma proxy_set_result (property : string) `{!NotReserved property} (v : value)
    (s : State) :
  ∃ s', proxy_set property v s = (Ok true, s') ∧
        own (target (context s')) property = Some v.
Proof.
  destruct (proxy_set_target s property v) as (w & -> & _). eexists. split; [done|].
  rewrite own_not_reserved by done. apply lookup_insert_eq.
Qed.

(** A body that stores a value and awaits its continuation: the
    continuation runs in the state that the assignment leaves. *)
Lemma exec_set_await {N} (production : bool) (nxt : N → M unit) (property : string)
    `{!NotReserved property} (v : value) (n : N) (K : result unit → prog N) (s : State) :
  exec production nxt (ContextSet property v (AwaitNext n K)) s
  = exec production nxt (K (nxt n (proxy_set property v s).2).1)
         (nxt n (proxy_set property v s).2).2.
Proof.
  cbn [exec]. unfold bind at 1.
  destruct (proxy_set_result property v s) as (s' & -> & _).
  unfold bind, attempt. cbn [snd]. by destruct (nxt n s').
Qed.

(** A handler that begins by reading a key that is present goes on with the
    value stored there. *)
Lemma run_handler_reads (production : bool) (property : string) (v : value)
    (k : value → RouteHandler) (s : State) :
  own (target (context s)) property = Some v →
  run_handler production (ContextGet property k) s = run_handler production (k v) s.
Proof.
  intros Hp. unfold run_handler. unfold bind at 1 4.
  destruct (strate_debug "Running route handler" s) as [[[]|e] s1] eqn:E; [|done].
  apply strate_debug_returns in E as ->.
  unfold bind at 1 3, set_handlerHasBeenExecuted. unfold bind at 1 2, emit.
  cbn [exec]. unfold bind at 1. by rewrite (proxy_get_present _ property v).
Qed.

(** X20: on a route whose middleware stores a value under a key of the
    context (any key but [__proto__] and [hasOwnProperty]) before it awaits
    its continuation, a handler that begins by reading that key gets the
    stored value, with no warning: the invocation is, in its outcome, its
    trace, its context and the store, the one of the handler that goes on
    with that value directly. *)
Theorem context_reaches_handler (production : bool) (class : ClassRef)
    (property : string) `{!NotReserved property} (v : value) (post : list string)
    (k : value → RouteHandler) (request : Request) :
  let m := {| constructor := class; dependencies := None; id := None;
              handle := ContextSet property v (await_next (effects post Return)) |} in
  Route production (ContextGet property k) 2%positive request
        (route_heap (with_middleware [m]))
  = Route production (k v) 2%positive request (route_heap (with_middleware [m])).
Proof.
  intros m.
  assert (∃ n, identity_of m n) as [n Hn].
  { unfold identity_of. rewrite getMiddlewareName_instance. cbv zeta. by eexists. }
  unfold identity_of in Hn.
  set (h := route_heap (with_middleware [m])).
  set (configuration := {| debug := Some false; middleware := Some [m]; skip := Some [] |}).
  assert (loadConfiguration defaultConfiguration 2%positive h
          = (Ok (fresh (dom h)), <[fresh (dom h) := configuration]> h)) as Hload.
  { assert (h !! defaultConfiguration = Some DefaultConfiguration) as H1.
    { unfold h, route_heap, initial_heap, defaultConfiguration.
      rewrite lookup_insert_ne by done. apply lookup_singleton_eq. }
    assert (h !! 2%positive = Some (with_middleware [m])) as H2
      by apply lookup_insert_eq.
    unfold loadConfiguration. rewrite H1, H2.
    cbn [middleware skip debug with_middleware DefaultConfiguration default
         app result_map result_filter fmap list_fmap].
    change (Datatypes.id [m]) with [m]. cbn [result_filter]. rewrite Hn.
    by rewrite bool_decide_eq_false_2 by apply not_elem_of_nil. }
  unfold Route. rewrite Hload, lookup_insert_eq. cbn [default option_rect].
  f_equal. rewrite !bind_emit. change (Datatypes.id configuration) with configuration.
  set (s := append_trace _ (initial_state configuration)).
  assert (intact s) as Hs by done.
  assert (middleware (strate_configuration (context s)) = Some [m]) as Hm by done.
  destruct (resolveMiddleware_without_dependencies s [m] [n] Hs Hm)
    as (graph & w & _ & E & Hk).
  { by repeat constructor. }
  { intros m' Hm'. by apply list_elem_of_singleton in Hm' as ->. }
  assert (insertion_order [n] = [n]) as Ho.
  { unfold insertion_order. cbn [foldl]. unfold push_unique.
    by rewrite bool_decide_eq_false_2 by apply not_elem_of_nil. }
  rewrite Hk, Ho in E. set (s1 := append_trace w s) in E.
  destruct (resolveMiddleware_ok s s1 [m] graph [n] Hs Hm E) as (_ & _ & _ & Hnodes & _).
  destruct (Hnodes n ltac:(left)) as (Ht & m' & Hin & _ & Hdata).
  apply list_elem_of_singleton in Hin as ->.
  destruct (executeRoute_resolved_logs production s s1 [m] graph [n] Hs Hm E)
    as (before & _ & Hexec).
  rewrite !Hexec. set (s2 := {| context := context s; trace := trace s ++ before;
                                handlerHasBeenExecuted := false |}).
  assert (next production graph (ContextGet property k) [n] 0 s2
          = next production graph (k v) [n] 0 s2) as Hnext; [|unfold bind; by rewrite Hnext].
  unfold next. rewrite drop_0.
  cbn [next_from]. rewrite Ht, !bind_lift, Hdata, !bind_lift, Hn.
  rewrite !bind_strate_debug by done. rewrite !bind_emit.
  change (handle m) with (ContextSet property v (await_next (effects post Return))).
  unfold await_next. rewrite !exec_set_await.
  match goal with |- context [proxy_set property v ?st] =>
    destruct (proxy_set_result property v st) as (s3 & -> & Hp) end.
  cbn [snd]. rewrite !bind_emit.
  cbn [next_from]. rewrite (run_handler_reads production property v) by done.
  destruct (run_handler production (k v) _) as [[[]|e] s4]; cbn [fst snd];
    [by rewrite !exec_effects | done].
Qed.

Lemma context_reaches_handler_witness :
  let m := {| constructor := A_class; dependencies := None; id := None;
              handle := ContextSet "user" (VData DUndefined)
                          (await_next (effects ["A after"] Return)) |} in
  Route true (ContextGet "user" (λ _, Effect "create user" Return)) 2%positive a_request
        (route_heap (with_middleware [m]))
  = Route true (Effect "create user" Return) 2%positive a_request
          (route_heap (with_middleware [m])).
Proof.
  exact (context_reaches_handler true A_class "user" (VData DUndefined) ["A after"]
           (λ _, Effect "create user" Return) a_request).
Defined.

(** ** Skipped middleware *)

(** X21: on a route made by [makeRoute] from a base configuration, a
    middleware whose identity an entry of the route's skip list resolves to
    is never entered, whether it comes from the base list or from the route
    list and whatever the other middleware and the handler do: its [handle]
    is not called in any invocation. *)
Theorem makeRoute_skipped_never_runs (production : bool) (handler : RouteHandler)
    (base routeConfiguration : location) (request : Request) (h : heap)
    (routeObject : StrateConfiguration) (r : Reference) (n : string) :
  h !! routeConfiguration = Some routeObject →
  r ∈ default [] (skip routeObject) →
  getMiddlewareName (arg_of_reference r) = Ok n →
  Handle n ∉ trace (makeRoute production (inl base) handler routeConfiguration
                              request h).1.2.
Proof.
  intros Hr Hin Hn. unfold makeRoute.
  destruct (loadConfiguration base routeConfiguration h) as [[l|e] h'] eqn:Hload;
    [|apply not_elem_of_nil].
  apply loadConfiguration_inv in Hload
    as (baseObject & routeObject' & configuration & Hb & Hr' & Hmerge & -> & ->).
  rewrite Hr in Hr'. injection Hr' as <-. rewrite lookup_insert_eq.
  change (default DefaultConfiguration (Some configuration)) with configuration.
  cbn [fst snd]. rewrite bind_emit. unfold bind at 1, ret.
  set (s := append_trace _ (initial_state configuration)).
  (* the loaded list holds no instance of identity [n] *)
  unfold merge_configurations in Hmerge.
  destruct (result_map_references (default [] (skip routeObject))) as (names & E & Hnames).
  rewrite E in Hmerge.
  pose proof (result_filter_skip names (listed baseObject routeObject)) as Hf.
  unfold listed in Hf. destruct (result_filter _ _) as [kept|e]; [|done].
  injection Hmerge as <-. destruct Hf as [Hsub Hkept].
  assert (n ∈ names) as Hnin.
  { clear -Hin Hn Hnames. revert Hin.
    induction Hnames as [|r' n' references names Hn' _ IH]; intros Hin.
    - by apply elem_of_nil in Hin.
    - apply elem_of_cons in Hin as [<-|Hin]; [|right; by apply IH].
      assert (n = n') as -> by congruence. left. }
  assert (¬ installed kept n) as Hno.
  { intros (m & Hm & Hi). assert (m ∈ listed baseObject routeObject) as Hl
      by (by eapply elem_of_sublist).
    destruct (Hkept m Hl) as (n' & Hn' & Hiff). unfold identity_of in *.
    assert (n' = n) as -> by congruence. by apply Hiff. }
  assert (intact s) as Hs by done.
  assert (middleware (strate_configuration (context s)) = Some kept) as Hm by done.
  assert (¬ quiet (Handle n)) as Hq by (cbn; tauto).
  assert (Handle n ∉ trace s) as Hbase.
  { intros H. apply list_elem_of_singleton in H. done. }
  destruct (resolveMiddleware s) as [[[graph order]|e] s1] eqn:E1.
  - destruct (executeRoute_resolved production handler s s1 kept graph order Hs Hm E1)
      as (before & Hbefore & ->).
    destruct (resolveMiddleware_ok s s1 kept graph order Hs Hm E1) as (_ & Hall & _).
    set (s2 := {| context := context s; trace := trace s ++ before;
                  handlerHasBeenExecuted := false |}).
    assert (adds (λ l, count (Handle n) l = 0)
                 (next production graph handler order 0 ;; finish)) as Hadds.
    { apply adds_bind; [apply closed_none; by apply Hq | |].
      - unfold next. rewrite drop_0. apply next_from_handles. by rewrite Hall.
      - intros _. eapply adds_weaken; [|apply finish_adds].
        intros l. by apply count_Forall_quiet. }
    destruct (Hadds s2) as (l & El & Hl). rewrite El. unfold s2. cbn [trace].
    rewrite !elem_of_app.
    intros [[H|H]|H]; [done | | by apply count_zero_not_in in Hl].
    by eapply (proj1 (Forall_forall _ _) Hbefore) in H.
  - destruct (executeRoute_throws production handler s s1 kept e Hs Hm E1)
      as (before & Hbefore & ->).
    cbn [snd rebase trace]. rewrite elem_of_app. intros [H|H]; [done|].
    by eapply (proj1 (Forall_forall _ _) Hbefore) in H.
Qed.

Lemma makeRoute_skipped_never_runs_witness :
  Handle "App.A" ∉ trace (makeRoute false (inl 2%positive) Return 3%positive a_request
                                    base_heap).1.2.
Proof.
  apply (makeRoute_skipped_never_runs false Return 2%positive 3%positive a_request
           base_heap route_skipping_A (RefClass A_class) "App.A").
  - vm_compute; reflexivity.
  - left.
  - reflexivity.
Defined.

(** ** The default configuration *)

Lemma console_without_debug (configuration : StrateConfiguration) (t : list event) :
  debug_enabled configuration = false → console configuration t = [].
Proof.
  intros Hd. unfold console. induction t as [|e t IH]; [done|].
  destruct e; cbn [omap list_omap console_line]; rewrite ?Hd; exact IH.
Qed.

(** X22: a route that is loaded on the default configuration and does not
    set its debug flag to true is silent: with the configuration that
    loadConfiguration returns for it, the loggers print nothing, whatever
    they are called with. *)
Theorem Route_silent_by_default (routeConfiguration : location) (h : heap)
    (routeObject configuration : StrateConfiguration) (t : list event) :
  h !! defaultConfiguration = Some DefaultConfiguration →
  h !! routeConfiguration = Some routeObject →
  debug routeObject ≠ Some true →
  loaded (loadConfiguration defaultConfiguration routeConfiguration h) = Ok configuration →
  console configuration t = [].
Proof.
  intros Hb Hr Hd. rewrite (loadConfiguration_loaded _ _ _ _ _ Hb Hr).
  unfold merge_configurations.
  destruct (result_map _ _) as [names|e]; [|done].
  destruct (result_filter _ _) as [kept|e]; [|done].
  intros [= <-]. apply console_without_debug. unfold debug_enabled. simpl.
  by destruct (debug routeObject) as [[]|].
Qed.

Lemma Route_silent_by_default_witness :
  console {| debug := Some false; middleware := Some [middleware_A]; skip := Some [] |}
          [Debug "Route: GET /api/users"; Warn "An error was thrown:"]
  = [].
Proof.
  apply (Route_silent_by_default 2%positive (route_heap (with_middleware [middleware_A]))
           (with_middleware [middleware_A]));
    [vm_compute; reflexivity | vm_compute; reflexivity | discriminate | vm_compute; reflexivity].
Defined.
